(** * FreeHeap: a first-fit, address-ordered free-list allocator (heap.c)

    Shallow embedding of [src/heap.c] and of the test program in
    [src/stress.c], and proofs of their specification.

    The C code works on raw memory through [BlockLink_t *] pointers.  The
    embedding keeps that shape: addresses and [size_t] values are integers
    ([Z]) with the wrap-around of the target's word written out, memory is a
    store of machine words indexed by byte address, and the two fields of a
    [BlockLink_t] at address [p] are the words at [p] (pxNextFreeBlock) and
    at [p + sizeof(void* )] (xBlockSize).  An access outside the two objects
    the allocator owns ([ucHeap] and [xStart]) has no defined result. *)

From Stdlib Require Import ZArith List Bool Lia Permutation.
Import ListNotations.
Local Open Scope Z_scope.

(* ================================================================== *)
(** ** Target platform and configuration *)

(** What the C source leaves to the compiler and linker: the width of
    [size_t] and of pointers (taken equal, as on every ILP32 and LP64
    target), and where the two static objects are placed. *)
Record platform : Type := {
  ptr_bytes : Z;      (* sizeof(size_t) = sizeof(void * ) *)
  ucHeap : Z;         (* address of the static array ucHeap *)
  xStart_addr : Z     (* address of the static struct xStart *)
}.

Definition configTOTAL_HEAP_SIZE : Z := 40960.
Definition portBYTE_ALIGNMENT : Z := 8.
Definition portBYTE_ALIGNMENT_MASK : Z := portBYTE_ALIGNMENT - 1.
Definition NULL : Z := 0.

(** Fuel of the two list walks: a walk over a well-formed free list takes
    fewer steps than the arena has bytes. *)
Definition heap_fuel : nat := Z.to_nat configTOTAL_HEAP_SIZE.
Strategy 1000 [heap_fuel].

(** The allocator's scalar globals and the memory it reads and writes. *)
Definition memory : Type := Z -> Z.

Definition upd (m : memory) (a v : Z) : memory :=
  fun x => if x =? a then v else m x.

Definition clear_range (m : memory) (lo hi : Z) : memory :=
  fun x => if (lo <=? x) && (x <? hi) then 0 else m x.

Record heap : Type := {
  mem : memory;
  pxEnd : Z;
  xFreeBytesRemaining : Z;
  xMinimumEverFreeBytesRemaining : Z;
  xNumberOfSuccessfulAllocations : Z;
  xNumberOfSuccessfulFrees : Z
}.

(** Result of a public call: it returns, it spins forever in
    [configASSERT] (the state it spins in is recorded), or it has no
    defined behaviour (an access outside the allocator's objects, or a
    list walk that does not end). *)
Inductive outcome (A : Type) : Type :=
| Ok (a : A)
| Halted (s : heap)
| Fault.
Arguments Ok {A} a.
Arguments Halted {A} s.
Arguments Fault {A}.

Definition obind {A B : Type} (o : option A) (k : A -> option B) : option B :=
  match o with Some a => k a | None => None end.

Notation "x <- c ;; k" := (obind c (fun x => k))
  (at level 61, c at next level, right associativity).
Notation "' p <- c ;; k" := (obind c (fun p => k))
  (at level 61, p pattern, c at next level, right associativity).

Section Model.
Variable P : platform.

Definition word_bits : Z := 8 * ptr_bytes P.
Definition modulus : Z := 2 ^ word_bits.
(** Unsigned wrap-around of [size_t] and [uintptr_t] arithmetic. *)
Definition wrap (z : Z) : Z := z mod modulus.

Definition sizeof_BlockLink : Z := 2 * ptr_bytes P.

(** [~portBYTE_ALIGNMENT_MASK] converted to the word type. *)
Definition align_mask : Z := wrap (Z.lnot portBYTE_ALIGNMENT_MASK).

Definition xHeapStructSize : Z :=
  Z.land (wrap (sizeof_BlockLink + portBYTE_ALIGNMENT_MASK)) align_mask.

Definition heapMINIMUM_BLOCK_SIZE : Z := wrap (Z.shiftl xHeapStructSize 1).

Definition heapBLOCK_ALLOCATED_BITMASK : Z :=
  wrap (Z.shiftl 1 (word_bits - 1)).

(* ---------------------------------------------------------------- *)
(** *** Memory *)

Definition in_ucHeap (a : Z) : bool :=
  (ucHeap P <=? a) && (a + ptr_bytes P <=? ucHeap P + configTOTAL_HEAP_SIZE).

Definition in_xStart (a : Z) : bool :=
  (a =? xStart_addr P) || (a =? xStart_addr P + ptr_bytes P).

(** A word access is defined when it is aligned and falls inside
    [ucHeap] or on a field of [xStart]. *)
Definition valid_word (a : Z) : bool :=
  (a mod ptr_bytes P =? 0) && (in_ucHeap a || in_xStart a).

Definition load (m : memory) (a : Z) : option Z :=
  if valid_word a then Some (m a) else None.

Definition store (m : memory) (a v : Z) : option memory :=
  if valid_word a then Some (upd m a v) else None.

(** [p->pxNextFreeBlock] and [p->xBlockSize]. *)
Definition load_next (m : memory) (p : Z) : option Z := load m p.
Definition load_size (m : memory) (p : Z) : option Z :=
  load m (wrap (p + ptr_bytes P)).
Definition store_next (m : memory) (p v : Z) : option memory := store m p v.
Definition store_size (m : memory) (p v : Z) : option memory :=
  store m (wrap (p + ptr_bytes P)) v.

(** [memset( pv, 0, len )] on the word store: the bytes [pv .. pv+len-1]
    must lie in [ucHeap]; every word that starts in the range is cleared
    (the allocator only ever passes word-aligned [pv] and [len]). *)
Definition memset0 (m : memory) (pv len : Z) : option memory :=
  if len =? 0 then Some m
  else if (ucHeap P <=? pv) && (pv + len <=? ucHeap P + configTOTAL_HEAP_SIZE)
       then Some (clear_range m pv (pv + len))
       else None.

(* ---------------------------------------------------------------- *)
(** *** Flag bit of xBlockSize *)

Definition heapBLOCK_IS_ALLOCATED (sz : Z) : bool :=
  negb (Z.land sz heapBLOCK_ALLOCATED_BITMASK =? 0).
Definition heapALLOCATE_BLOCK (sz : Z) : Z :=
  Z.lor sz heapBLOCK_ALLOCATED_BITMASK.
Definition heapFREE_BLOCK (sz : Z) : Z :=
  Z.land sz (wrap (Z.lnot heapBLOCK_ALLOCATED_BITMASK)).

(* ---------------------------------------------------------------- *)
(** *** prvInsertBlockIntoFreeList *)

(** The [for] loop that looks for the insertion point: it stops at the
    last node whose successor is not below the block. *)
Fixpoint insert_scan (fuel : nat) (m : memory) (pxIterator pxBlockToInsert : Z)
  : option Z :=
  match fuel with
  | O => None
  | S fuel' =>
      nxt <- load_next m pxIterator ;;
      if nxt <? pxBlockToInsert
      then insert_scan fuel' m nxt pxBlockToInsert
      else Some pxIterator
  end.

(** Second half of the function: merge with the block behind, then
    link the node in front to the block. *)
Definition merge_behind (m1 : memory) (end_ : Z)
           (pxIterator pxBlockToInsert : Z) : option memory :=
  bsz <- load_size m1 pxBlockToInsert ;;
  inx <- load_next m1 pxIterator ;;
  m2 <-
    (if wrap (pxBlockToInsert + bsz) =? inx then
       if negb (inx =? end_) then
         nsz <- load_size m1 inx ;;
         m' <- store_size m1 pxBlockToInsert (wrap (bsz + nsz)) ;;
         inx' <- load_next m' pxIterator ;;
         nn <- load_next m' inx' ;;
         store_next m' pxBlockToInsert nn
       else store_next m1 pxBlockToInsert end_
     else store_next m1 pxBlockToInsert inx) ;;
  if negb (pxIterator =? pxBlockToInsert)
  then store_next m2 pxIterator pxBlockToInsert
  else Some m2.

Definition prvInsertBlockIntoFreeList (m : memory) (end_ : Z)
           (pxBlockToInsert : Z) : option memory :=
  pxIterator <- insert_scan heap_fuel m (xStart_addr P) pxBlockToInsert ;;
  (* merge with the block in front *)
  isz <- load_size m pxIterator ;;
  if wrap (pxIterator + isz) =? pxBlockToInsert then
    bsz <- load_size m pxBlockToInsert ;;
    m1 <- store_size m pxIterator (wrap (isz + bsz)) ;;
    merge_behind m1 end_ pxIterator pxIterator
  else merge_behind m end_ pxIterator pxBlockToInsert.

(* ---------------------------------------------------------------- *)
(** *** prvHeapInit *)

Definition uxStartAddress : Z :=
  if negb (Z.land (ucHeap P) portBYTE_ALIGNMENT_MASK =? 0)
  then Z.land (wrap (ucHeap P + (portBYTE_ALIGNMENT - 1))) align_mask
  else ucHeap P.

Definition xTotalHeapSize : Z :=
  if negb (Z.land (ucHeap P) portBYTE_ALIGNMENT_MASK =? 0)
  then wrap (configTOTAL_HEAP_SIZE - wrap (uxStartAddress - ucHeap P))
  else configTOTAL_HEAP_SIZE.

Definition uxEndAddress : Z :=
  Z.land (wrap (wrap (uxStartAddress + xTotalHeapSize) - xHeapStructSize))
         align_mask.

Definition prvHeapInit (s : heap) : option heap :=
  m1 <- store_next (mem s) (xStart_addr P) uxStartAddress ;;
  m2 <- store_size m1 (xStart_addr P) 0 ;;
  m3 <- store_size m2 uxEndAddress 0 ;;
  m4 <- store_next m3 uxEndAddress NULL ;;
  m5 <- store_size m4 uxStartAddress (wrap (uxEndAddress - uxStartAddress)) ;;
  m6 <- store_next m5 uxStartAddress uxEndAddress ;;
  fsz <- load_size m6 uxStartAddress ;;
  Some {| mem := m6;
          pxEnd := uxEndAddress;
          xFreeBytesRemaining := fsz;
          xMinimumEverFreeBytesRemaining := fsz;
          xNumberOfSuccessfulAllocations := xNumberOfSuccessfulAllocations s;
          xNumberOfSuccessfulFrees := xNumberOfSuccessfulFrees s |}.

(* ---------------------------------------------------------------- *)
(** *** pvPortMalloc *)

(** The block size computed from the request: header added, rounded up
    to the alignment, both with the wrap-around of [size_t]. *)
Definition wanted_size (xWantedSize : Z) : Z :=
  if 0 <? xWantedSize then
    let w := wrap (xWantedSize + xHeapStructSize) in
    if negb (Z.land w portBYTE_ALIGNMENT_MASK =? 0)
    then wrap (w + (portBYTE_ALIGNMENT - Z.land w portBYTE_ALIGNMENT_MASK))
    else w
  else xWantedSize.

(** The first-fit [while] loop; returns [(pxPreviousBlock, pxBlock)]. *)
Fixpoint find_fit (fuel : nat) (m : memory) (xWantedSize : Z)
         (pxPreviousBlock pxBlock : Z) : option (Z * Z) :=
  match fuel with
  | O => None
  | S fuel' =>
      bsz <- load_size m pxBlock ;;
      if bsz <? xWantedSize then
        nxt <- load_next m pxBlock ;;
        if negb (nxt =? NULL)
        then find_fit fuel' m xWantedSize pxBlock nxt
        else Some (pxPreviousBlock, pxBlock)
      else Some (pxPreviousBlock, pxBlock)
  end.

(** The body of [pvPortMalloc] once the arena is initialised. *)
Definition malloc_body (s : heap) (xWantedSize : Z) : option (heap * Z) :=
  if (0 <? xWantedSize) && (xWantedSize <=? xFreeBytesRemaining s) then
    first <- load_next (mem s) (xStart_addr P) ;;
    '(pxPreviousBlock, pxBlock) <-
      find_fit heap_fuel (mem s) xWantedSize (xStart_addr P) first ;;
    if negb (pxBlock =? pxEnd s) then
      pnx <- load_next (mem s) pxPreviousBlock ;;
      let pvReturn := wrap (pnx + xHeapStructSize) in
      bnx <- load_next (mem s) pxBlock ;;
      m1 <- store_next (mem s) pxPreviousBlock bnx ;;
      bsz <- load_size m1 pxBlock ;;
      m2 <-
        (if heapMINIMUM_BLOCK_SIZE <? wrap (bsz - xWantedSize) then
           let pxNewBlockLink := wrap (pxBlock + xWantedSize) in
           ma <- store_size m1 pxNewBlockLink (wrap (bsz - xWantedSize)) ;;
           mb <- store_size ma pxBlock xWantedSize ;;
           prvInsertBlockIntoFreeList mb (pxEnd s) pxNewBlockLink
         else Some m1) ;;
      bsz2 <- load_size m2 pxBlock ;;
      let free' := wrap (xFreeBytesRemaining s - bsz2) in
      let min' := if free' <? xMinimumEverFreeBytesRemaining s
                  then free' else xMinimumEverFreeBytesRemaining s in
      bsz3 <- load_size m2 pxBlock ;;
      m3 <- store_size m2 pxBlock (heapALLOCATE_BLOCK bsz3) ;;
      m4 <- store_next m3 pxBlock NULL ;;
      Some ({| mem := m4;
               pxEnd := pxEnd s;
               xFreeBytesRemaining := free';
               xMinimumEverFreeBytesRemaining := min';
               xNumberOfSuccessfulAllocations :=
                 wrap (xNumberOfSuccessfulAllocations s + 1);
               xNumberOfSuccessfulFrees := xNumberOfSuccessfulFrees s |},
            pvReturn)
    else Some (s, NULL)
  else Some (s, NULL).

Definition pvPortMalloc (s : heap) (xWantedSize : Z) : option (heap * Z) :=
  let w := wanted_size xWantedSize in
  s1 <- (if pxEnd s =? NULL then prvHeapInit s else Some s) ;;
  malloc_body s1 w.

(* ---------------------------------------------------------------- *)
(** *** vPortFree *)

Definition free_block (s : heap) (pv pxLink : Z) : option heap :=
  sz <- load_size (mem s) pxLink ;;
  if heapBLOCK_IS_ALLOCATED sz then
    sz0 <- load_size (mem s) pxLink ;;
    m1 <- store_size (mem s) pxLink (heapFREE_BLOCK sz0) ;;
    sz1 <- load_size m1 pxLink ;;
    m2 <- memset0 m1 pv (wrap (sz1 - xHeapStructSize)) ;;
    sz2 <- load_size m2 pxLink ;;
    m3 <- prvInsertBlockIntoFreeList m2 (pxEnd s) pxLink ;;
    Some {| mem := m3;
            pxEnd := pxEnd s;
            xFreeBytesRemaining := wrap (xFreeBytesRemaining s + sz2);
            xMinimumEverFreeBytesRemaining := xMinimumEverFreeBytesRemaining s;
            xNumberOfSuccessfulAllocations := xNumberOfSuccessfulAllocations s;
            xNumberOfSuccessfulFrees :=
              wrap (xNumberOfSuccessfulFrees s + 1) |}
  else Some s.

Definition vPortFree (s : heap) (pv : Z) : outcome heap :=
  if negb (pv =? NULL) then
    let pxLink := wrap (pv - xHeapStructSize) in
    match load_size (mem s) pxLink with
    | None => Fault
    | Some sz =>
        (* configASSERT( heapBLOCK_IS_ALLOCATED( pxLink ) != 0 ) *)
        if negb (heapBLOCK_IS_ALLOCATED sz) then Halted s
        else
          match load_next (mem s) pxLink with
          | None => Fault
          | Some nx =>
              (* configASSERT( pxLink->pxNextFreeBlock == NULL ) *)
              if negb (nx =? NULL) then Halted s
              else match free_block s pv pxLink with
                   | Some s' => Ok s'
                   | None => Fault
                   end
          end
    end
  else Ok s.

Definition xPortGetFreeHeapSize (s : heap) : Z := xFreeBytesRemaining s.
Definition xPortGetMinimumEverFreeHeapSize (s : heap) : Z :=
  xMinimumEverFreeBytesRemaining s.

End Model.

(** The state of the program before the first call: statics are zero. *)
Definition heap0 : heap :=
  {| mem := fun _ => 0;
     pxEnd := NULL;
     xFreeBytesRemaining := 0;
     xMinimumEverFreeBytesRemaining := 0;
     xNumberOfSuccessfulAllocations := 0;
     xNumberOfSuccessfulFrees := 0 |}.

(** Two concrete targets. *)
Definition ILP32 : platform :=
  {| ptr_bytes := 4; ucHeap := 536871936; xStart_addr := 536870928 |}.
Definition LP64 : platform :=
  {| ptr_bytes := 8; ucHeap := 6296000; xStart_addr := 6295584 |}.

(* ================================================================== *)
(** ** Facts about the platform constants *)

Record wf_platform (P : platform) : Prop := {
  wf_ptr : ptr_bytes P = 4 \/ ptr_bytes P = 8;
  wf_heap_pos : 0 < ucHeap P;
  wf_heap_top : ucHeap P + configTOTAL_HEAP_SIZE < modulus P;
  wf_start_pos : 0 < xStart_addr P;
  wf_start_top : xStart_addr P + 2 * ptr_bytes P <= modulus P;
  wf_start_aligned : xStart_addr P mod ptr_bytes P = 0;
  wf_disjoint : xStart_addr P + 2 * ptr_bytes P <= ucHeap P \/
                ucHeap P + configTOTAL_HEAP_SIZE <= xStart_addr P
}.

Lemma land_mask_mod (x : Z) : Z.land x portBYTE_ALIGNMENT_MASK = x mod 8.
Proof. change portBYTE_ALIGNMENT_MASK with (Z.ones 3). now rewrite Z.land_ones. Qed.

Section PlatformFacts.
Variable P : platform.
Hypothesis WF : wf_platform P.

Lemma modulus_cases :
  (ptr_bytes P = 4 /\ modulus P = 4294967296) \/
  (ptr_bytes P = 8 /\ modulus P = 18446744073709551616).
Proof.
  unfold modulus, word_bits.
  destruct (wf_ptr P WF) as [H | H]; rewrite H; [left | right]; split; reflexivity.
Qed.

Lemma modulus_pos : 0 < modulus P.
Proof. destruct modulus_cases as [[_ H] | [_ H]]; rewrite H; lia. Qed.

Lemma wrap_small (z : Z) : 0 <= z < modulus P -> wrap P z = z.
Proof. intros; unfold wrap; now apply Z.mod_small. Qed.

Lemma wrap_range (z : Z) : 0 <= wrap P z < modulus P.
Proof. unfold wrap; apply Z.mod_pos_bound, modulus_pos. Qed.

Lemma modulus_mult8 : modulus P mod 8 = 0.
Proof. destruct modulus_cases as [[_ H] | [_ H]]; rewrite H; reflexivity. Qed.

Lemma wrap_mod8 (z : Z) : wrap P z mod 8 = z mod 8.
Proof.
  unfold wrap. apply Z.mod_mod_divide.
  destruct modulus_cases as [[_ H] | [_ H]]; rewrite H.
  - exists 536870912; reflexivity.
  - exists 2305843009213693952; reflexivity.
Qed.

Lemma align_mask_val : align_mask P = modulus P - 8.
Proof.
  unfold align_mask, wrap.
  destruct modulus_cases as [[_ H] | [_ H]]; rewrite H; reflexivity.
Qed.

(** [x & ~portBYTE_ALIGNMENT_MASK] rounds a word down to a multiple of 8. *)
Lemma land_align_mask (x : Z) :
  0 <= x < modulus P -> Z.land x (align_mask P) = x - x mod 8.
Proof.
  intros Hx.
  assert (E : align_mask P = Z.land (Z.lnot (Z.ones 3)) (Z.ones (word_bits P))).
  { unfold align_mask, wrap, modulus. rewrite Z.land_ones; [reflexivity|].
    unfold word_bits. destruct (wf_ptr P WF) as [H | H]; rewrite H; lia. }
  rewrite E, (Z.land_comm (Z.lnot _)), Z.land_assoc.
  rewrite Z.land_ones by (unfold word_bits; destruct (wf_ptr P WF) as [H | H]; rewrite H; lia).
  fold (modulus P). rewrite Z.mod_small by lia.
  rewrite <- Z.ldiff_land, Z.ldiff_ones_r by lia.
  rewrite Z.shiftr_div_pow2, Z.shiftl_mul_pow2 by lia.
  change (2 ^ 3) with 8. pose proof (Z.div_mod x 8). lia.
Qed.

Lemma xHeapStructSize_val : xHeapStructSize P = 2 * ptr_bytes P.
Proof.
  unfold xHeapStructSize. rewrite land_align_mask by apply wrap_range.
  unfold sizeof_BlockLink, wrap.
  destruct modulus_cases as [[Hp H] | [Hp H]]; rewrite H, Hp; reflexivity.
Qed.

Lemma heapMINIMUM_BLOCK_SIZE_val :
  heapMINIMUM_BLOCK_SIZE P = 2 * xHeapStructSize P.
Proof.
  unfold heapMINIMUM_BLOCK_SIZE. rewrite xHeapStructSize_val.
  unfold wrap.
  destruct modulus_cases as [[Hp H] | [Hp H]]; rewrite H, Hp; reflexivity.
Qed.

Lemma bitmask_val : 2 * heapBLOCK_ALLOCATED_BITMASK P = modulus P.
Proof.
  unfold heapBLOCK_ALLOCATED_BITMASK, wrap, modulus, word_bits.
  destruct (wf_ptr P WF) as [H | H]; rewrite H; reflexivity.
Qed.

Lemma bitmask_pow : heapBLOCK_ALLOCATED_BITMASK P = 2 ^ (word_bits P - 1).
Proof.
  unfold heapBLOCK_ALLOCATED_BITMASK, wrap, modulus, word_bits.
  destruct (wf_ptr P WF) as [H | H]; rewrite H; reflexivity.
Qed.

Lemma word_bits_pos : 3 < word_bits P - 1.
Proof. unfold word_bits. destruct (wf_ptr P WF) as [H | H]; rewrite H; lia. Qed.

Lemma land_bitmask (x : Z) :
  Z.land x (heapBLOCK_ALLOCATED_BITMASK P) =
  if Z.testbit x (word_bits P - 1) then heapBLOCK_ALLOCATED_BITMASK P else 0.
Proof.
  rewrite bitmask_pow. pose proof word_bits_pos as Hk.
  apply Z.bits_inj'. intros n Hn.
  rewrite Z.land_spec, Z.pow2_bits_eqb by lia.
  destruct (Z.eqb_spec (word_bits P - 1) n) as [<- | Hne].
  - rewrite andb_true_r. destruct (Z.testbit x (word_bits P - 1)) eqn:E.
    + now rewrite Z.pow2_bits_true by lia.
    + now rewrite Z.bits_0.
  - rewrite andb_false_r. destruct (Z.testbit x (word_bits P - 1)).
    + rewrite Z.pow2_bits_false; auto.
    + now rewrite Z.bits_0.
Qed.

Lemma is_allocated_testbit (x : Z) :
  heapBLOCK_IS_ALLOCATED P x = Z.testbit x (word_bits P - 1).
Proof.
  unfold heapBLOCK_IS_ALLOCATED. rewrite land_bitmask.
  destruct (Z.testbit x (word_bits P - 1)); [|reflexivity].
  rewrite bitmask_pow. pose proof word_bits_pos.
  assert (0 < 2 ^ (word_bits P - 1)) by (apply Z.pow_pos_nonneg; lia).
  destruct (Z.eqb_spec (2 ^ (word_bits P - 1)) 0); [lia | reflexivity].
Qed.

Lemma testbit_small (x : Z) :
  0 <= x < heapBLOCK_ALLOCATED_BITMASK P -> Z.testbit x (word_bits P - 1) = false.
Proof.
  rewrite bitmask_pow. intros Hx. pose proof word_bits_pos.
  apply Z.testbit_false; [lia|]. now rewrite Z.div_small.
Qed.

Lemma testbit_marked (x : Z) :
  0 <= x < heapBLOCK_ALLOCATED_BITMASK P ->
  Z.testbit (x + heapBLOCK_ALLOCATED_BITMASK P) (word_bits P - 1) = true.
Proof.
  rewrite bitmask_pow. intros Hx. pose proof word_bits_pos.
  apply Z.testbit_true; [lia|].
  replace (x + 2 ^ (word_bits P - 1)) with (x + 1 * 2 ^ (word_bits P - 1)) by lia.
  rewrite Z.div_add by lia. now rewrite Z.div_small.
Qed.

Lemma is_allocated_small (x : Z) :
  0 <= x < heapBLOCK_ALLOCATED_BITMASK P -> heapBLOCK_IS_ALLOCATED P x = false.
Proof. intros; rewrite is_allocated_testbit; now apply testbit_small. Qed.

Lemma is_allocated_marked (x : Z) :
  0 <= x < heapBLOCK_ALLOCATED_BITMASK P ->
  heapBLOCK_IS_ALLOCATED P (x + heapBLOCK_ALLOCATED_BITMASK P) = true.
Proof. intros; rewrite is_allocated_testbit; now apply testbit_marked. Qed.

Lemma allocate_small (x : Z) :
  0 <= x < heapBLOCK_ALLOCATED_BITMASK P ->
  heapALLOCATE_BLOCK P x = x + heapBLOCK_ALLOCATED_BITMASK P.
Proof.
  intros Hx. unfold heapALLOCATE_BLOCK.
  pose proof (Z.add_lor_land x (heapBLOCK_ALLOCATED_BITMASK P)) as E.
  rewrite land_bitmask, testbit_small in E by assumption. lia.
Qed.

Lemma free_mask_val :
  wrap P (Z.lnot (heapBLOCK_ALLOCATED_BITMASK P)) = Z.ones (word_bits P - 1).
Proof.
  unfold heapBLOCK_ALLOCATED_BITMASK, wrap, modulus, word_bits.
  destruct (wf_ptr P WF) as [H | H]; rewrite H; reflexivity.
Qed.

Lemma free_block_mod (x : Z) :
  heapFREE_BLOCK P x = x mod heapBLOCK_ALLOCATED_BITMASK P.
Proof.
  unfold heapFREE_BLOCK. rewrite free_mask_val, Z.land_ones, bitmask_pow.
  - reflexivity.
  - pose proof word_bits_pos; lia.
Qed.

Lemma free_marked (x : Z) :
  0 <= x < heapBLOCK_ALLOCATED_BITMASK P ->
  heapFREE_BLOCK P (x + heapBLOCK_ALLOCATED_BITMASK P) = x.
Proof.
  intros Hx. rewrite free_block_mod.
  replace (x + heapBLOCK_ALLOCATED_BITMASK P)
    with (x + 1 * heapBLOCK_ALLOCATED_BITMASK P) by lia.
  rewrite Z.mod_add by lia. now apply Z.mod_small.
Qed.

Lemma free_small (x : Z) :
  0 <= x < heapBLOCK_ALLOCATED_BITMASK P -> heapFREE_BLOCK P x = x.
Proof. intros; rewrite free_block_mod; now apply Z.mod_small. Qed.

End PlatformFacts.

(* ================================================================== *)
(** ** Addresses of the arena and of the list nodes *)

Section Addresses.
Variable P : platform.
Hypothesis WF : wf_platform P.

Lemma start_facts :
  ucHeap P <= uxStartAddress P <= ucHeap P + 7 /\ uxStartAddress P mod 8 = 0.
Proof.
  pose proof (wf_heap_pos P WF). pose proof (wf_heap_top P WF).
  unfold uxStartAddress. rewrite land_mask_mod.
  destruct (Z.eqb_spec (ucHeap P mod 8) 0) as [E | E]; simpl.
  - lia.
  - unfold configTOTAL_HEAP_SIZE, portBYTE_ALIGNMENT in *.
    change (8 - 1) with 7.
    rewrite (wrap_small P) by lia.
    rewrite (land_align_mask P WF) by lia.
    pose proof (Z.mod_pos_bound (ucHeap P + 7) 8).
    pose proof (Z.div_mod (ucHeap P + 7) 8).
    split; [lia|].
    replace (ucHeap P + 7 - (ucHeap P + 7) mod 8)
      with (((ucHeap P + 7) / 8) * 8) by lia.
    apply Z.mod_mul; lia.
Qed.

Lemma total_facts :
  uxStartAddress P + xTotalHeapSize P = ucHeap P + configTOTAL_HEAP_SIZE.
Proof.
  pose proof start_facts as [Hs _].
  pose proof (wf_heap_pos P WF). pose proof (wf_heap_top P WF).
  unfold xTotalHeapSize.
  assert (E : uxStartAddress P = ucHeap P \/
              negb (Z.land (ucHeap P) portBYTE_ALIGNMENT_MASK =? 0) = true).
  { unfold uxStartAddress.
    destruct (negb (Z.land (ucHeap P) portBYTE_ALIGNMENT_MASK =? 0)); auto. }
  destruct (negb (Z.land (ucHeap P) portBYTE_ALIGNMENT_MASK =? 0)).
  - unfold configTOTAL_HEAP_SIZE in *.
    rewrite (wrap_small P (_ - ucHeap P)) by lia.
    rewrite (wrap_small P) by lia. lia.
  - destruct E as [E | E]; [lia | discriminate].
Qed.

Lemma hdr_cases :
  (ptr_bytes P = 4 /\ xHeapStructSize P = 8) \/
  (ptr_bytes P = 8 /\ xHeapStructSize P = 16).
Proof.
  rewrite (xHeapStructSize_val P WF).
  destruct (wf_ptr P WF) as [H | H]; rewrite H; [left | right]; split; lia.
Qed.

Lemma end_facts :
  ucHeap P + configTOTAL_HEAP_SIZE - xHeapStructSize P - 7 <= uxEndAddress P
    <= ucHeap P + configTOTAL_HEAP_SIZE - xHeapStructSize P /\
  uxEndAddress P mod 8 = 0.
Proof.
  pose proof (wf_heap_pos P WF). pose proof (wf_heap_top P WF).
  unfold uxEndAddress. rewrite total_facts.
  unfold configTOTAL_HEAP_SIZE in *.
  rewrite (wrap_small P (ucHeap P + 40960)) by lia.
  assert (Hh : xHeapStructSize P = 8 \/ xHeapStructSize P = 16)
    by (destruct hdr_cases as [[_ ->] | [_ ->]]; auto).
  rewrite (wrap_small P) by lia.
  rewrite (land_align_mask P WF) by lia.
  set (e := ucHeap P + 40960 - xHeapStructSize P).
  pose proof (Z.mod_pos_bound e 8). pose proof (Z.div_mod e 8).
  split; [lia|].
  replace (e - e mod 8) with ((e / 8) * 8) by lia. apply Z.mod_mul; lia.
Qed.

(** The usable span of the arena, as [prvHeapInit] records it. *)
Definition usable_size : Z := uxEndAddress P - uxStartAddress P.

Lemma usable_bounds : 40930 <= usable_size <= 40952.
Proof.
  unfold usable_size. pose proof start_facts. pose proof end_facts.
  unfold configTOTAL_HEAP_SIZE in *.
  destruct hdr_cases as [[_ E] | [_ E]]; rewrite E in *; lia.
Qed.

(** Addresses at which a [BlockLink_t] of the arena may sit. *)
Definition hdr_addr (a : Z) : Prop :=
  uxStartAddress P <= a <= uxEndAddress P /\ a mod 8 = 0.

(** A list node: a header of the arena or [xStart]. *)
Definition node (a : Z) : Prop := hdr_addr a \/ a = xStart_addr P.

Lemma mod8_ptr (a : Z) : a mod 8 = 0 -> a mod ptr_bytes P = 0.
Proof.
  intros H. destruct (wf_ptr P WF) as [E | E]; rewrite E; [|assumption].
  pose proof (Z.div_mod a 8). replace a with ((a / 8 * 2) * 4) by lia.
  apply Z.mod_mul; lia.
Qed.

Lemma add_ptr_mod (a : Z) : a mod ptr_bytes P = 0 -> (a + ptr_bytes P) mod ptr_bytes P = 0.
Proof.
  intros H. destruct (wf_ptr P WF) as [E | E]; rewrite E in *.
  - replace (a + 4) with (a + 1 * 4) by lia. now rewrite Z.mod_add by lia.
  - replace (a + 8) with (a + 1 * 8) by lia. now rewrite Z.mod_add by lia.
Qed.

Lemma node_range (a : Z) : node a -> 0 < a /\ a + 2 * ptr_bytes P <= modulus P.
Proof.
  pose proof start_facts. pose proof end_facts.
  pose proof (wf_heap_pos P WF). pose proof (wf_heap_top P WF).
  pose proof (wf_start_pos P WF). pose proof (wf_start_top P WF).
  pose proof (xHeapStructSize_val P WF).
  intros [[Ha _] | ->]; lia.
Qed.

Lemma node_valid_next (a : Z) : node a -> valid_word P a = true.
Proof.
  pose proof start_facts. pose proof end_facts.
  pose proof (xHeapStructSize_val P WF).
  assert (0 < ptr_bytes P) by (destruct (wf_ptr P WF); lia).
  unfold valid_word, in_ucHeap, in_xStart.
  intros [[Ha Hm] | ->].
  - rewrite (mod8_ptr _ Hm). simpl.
    apply orb_true_iff; left. apply andb_true_iff; split; apply Z.leb_le; lia.
  - apply andb_true_iff; split; [apply Z.eqb_eq, (wf_start_aligned P WF)|].
    apply orb_true_iff; right. apply orb_true_iff; left. apply Z.eqb_refl.
Qed.

Lemma node_valid_size (a : Z) : node a -> valid_word P (a + ptr_bytes P) = true.
Proof.
  pose proof start_facts. pose proof end_facts.
  pose proof (xHeapStructSize_val P WF).
  assert (0 < ptr_bytes P) by (destruct (wf_ptr P WF); lia).
  unfold valid_word, in_ucHeap, in_xStart.
  intros [[Ha Hm] | ->].
  - rewrite (add_ptr_mod _ (mod8_ptr _ Hm)). simpl.
    apply orb_true_iff; left. apply andb_true_iff; split; apply Z.leb_le; lia.
  - apply andb_true_iff; split;
      [apply Z.eqb_eq, add_ptr_mod, (wf_start_aligned P WF)|].
    apply orb_true_iff; right. apply orb_true_iff; right. apply Z.eqb_refl.
Qed.

Lemma ld_next (m : memory) (a : Z) : node a -> load_next P m a = Some (m a).
Proof. intros H. unfold load_next, load. now rewrite node_valid_next. Qed.

Lemma ld_size (m : memory) (a : Z) :
  node a -> load_size P m a = Some (m (a + ptr_bytes P)).
Proof.
  intros H. unfold load_size, load. pose proof (node_range a H).
  assert (0 < ptr_bytes P) by (destruct (wf_ptr P WF); lia).
  rewrite (wrap_small P) by lia. now rewrite node_valid_size.
Qed.

Lemma st_next (m : memory) (a v : Z) :
  node a -> store_next P m a v = Some (upd m a v).
Proof. intros H. unfold store_next, store. now rewrite node_valid_next. Qed.

Lemma st_size (m : memory) (a v : Z) :
  node a -> store_size P m a v = Some (upd m (a + ptr_bytes P) v).
Proof.
  intros H. unfold store_size, store. pose proof (node_range a H).
  assert (0 < ptr_bytes P) by (destruct (wf_ptr P WF); lia).
  rewrite (wrap_small P) by lia. now rewrite node_valid_size.
Qed.

End Addresses.

(* ================================================================== *)
(** ** The arena as a sequence of blocks

    Between [uxStartAddress] and [pxEnd] the arena is a sequence of
    blocks laid end to end.  A block is described by its size (header
    included) and by whether it is allocated; its address is the sum of
    the sizes in front of it. *)

Abbreviation block := (Z * bool)%type.

Fixpoint total (bl : list block) : Z :=
  match bl with
  | [] => 0
  | (sz, _) :: r => sz + total r
  end.

Fixpoint free_total (bl : list block) : Z :=
  match bl with
  | [] => 0
  | (sz, false) :: r => sz + free_total r
  | (_, true) :: r => free_total r
  end.

Fixpoint used_total (bl : list block) : Z :=
  match bl with
  | [] => 0
  | (sz, true) :: r => sz + used_total r
  | (_, false) :: r => used_total r
  end.

(** Address of the first free block of [bl] (laid out from [a]), or [nf]
    when there is none. *)
Fixpoint ff (a : Z) (bl : list block) (nf : Z) : Z :=
  match bl with
  | [] => nf
  | (sz, true) :: r => ff (a + sz) r nf
  | (_, false) :: _ => a
  end.

(** Address of the last free block of [bl], or [d] when there is none. *)
Fixpoint last_free (a : Z) (bl : list block) (d : Z) : Z :=
  match bl with
  | [] => d
  | (sz, true) :: r => last_free (a + sz) r d
  | (sz, false) :: r => last_free (a + sz) r a
  end.

(** Payload pointers of the allocated blocks. *)
Fixpoint used_ptrs (h a : Z) (bl : list block) : list Z :=
  match bl with
  | [] => []
  | (sz, true) :: r => (a + h) :: used_ptrs h (a + sz) r
  | (sz, false) :: r => used_ptrs h (a + sz) r
  end.

(** Addresses and sizes of the free blocks, in address order. *)
Fixpoint free_nodes (a : Z) (bl : list block) : list (Z * Z) :=
  match bl with
  | [] => []
  | (sz, true) :: r => free_nodes (a + sz) r
  | (sz, false) :: r => (a, sz) :: free_nodes (a + sz) r
  end.

Definition all_used (bl : list block) : Prop := Forall (fun b => snd b = true) bl.

Definition head_used (bl : list block) : Prop :=
  match bl with (_, false) :: _ => False | _ => True end.

(** No two neighbouring blocks are both free. *)
Fixpoint no_adj (bl : list block) : Prop :=
  match bl with
  | [] => True
  | (_, false) :: r => head_used r /\ no_adj r
  | (_, true) :: r => no_adj r
  end.

Section BlockLists.
Variable P : platform.

Definition block_ok (b : block) : Prop :=
  xHeapStructSize P <= fst b /\ fst b mod 8 = 0.

(** The headers of the free blocks form a list segment that ends in
    [nf]. *)
Fixpoint fseg (m : memory) (a : Z) (bl : list block) (nf : Z) : Prop :=
  match bl with
  | [] => True
  | (sz, true) :: r => fseg m (a + sz) r nf
  | (sz, false) :: r =>
      m (a + ptr_bytes P) = sz /\ m a = ff (a + sz) r nf /\
      fseg m (a + sz) r nf
  end.

(** The headers of the allocated blocks carry the flag and a NULL link. *)
Fixpoint useg (m : memory) (a : Z) (bl : list block) : Prop :=
  match bl with
  | [] => True
  | (sz, true) :: r =>
      m (a + ptr_bytes P) = sz + heapBLOCK_ALLOCATED_BITMASK P /\ m a = NULL /\
      useg m (a + sz) r
  | (sz, false) :: r => useg m (a + sz) r
  end.

(** A run of blocks laid out from [a] stays inside the arena. *)
Definition seg_ok (a : Z) (bl : list block) : Prop :=
  uxStartAddress P <= a /\ a mod 8 = 0 /\
  a + total bl <= uxEndAddress P /\ Forall block_ok bl.

Hypothesis WF : wf_platform P.

Lemma hdr_pos :
  8 <= xHeapStructSize P /\ 4 <= ptr_bytes P /\
  ptr_bytes P + ptr_bytes P = xHeapStructSize P.
Proof. destruct (hdr_cases P WF) as [[-> ->] | [-> ->]]; lia. Qed.

Lemma total_app (l1 l2 : list block) : total (l1 ++ l2) = total l1 + total l2.
Proof. induction l1 as [|[sz u] l1 IH]; simpl; lia. Qed.

Lemma free_total_app (l1 l2 : list block) :
  free_total (l1 ++ l2) = free_total l1 + free_total l2.
Proof. induction l1 as [|[sz [|]] l1 IH]; simpl; lia. Qed.

Lemma used_total_app (l1 l2 : list block) :
  used_total (l1 ++ l2) = used_total l1 + used_total l2.
Proof. induction l1 as [|[sz [|]] l1 IH]; simpl; lia. Qed.

Lemma total_split (bl : list block) : total bl = free_total bl + used_total bl.
Proof. induction bl as [|[sz [|]] l1 IH]; simpl; lia. Qed.

Lemma total_nonneg (bl : list block) : Forall block_ok bl -> 0 <= total bl.
Proof.
  pose proof hdr_pos. induction 1 as [|[sz u] r [Hb _] _ IH]; simpl in *; lia.
Qed.

Lemma free_total_nonneg (bl : list block) : Forall block_ok bl -> 0 <= free_total bl.
Proof.
  pose proof hdr_pos. induction 1 as [|[sz [|]] r [Hb _] _ IH]; simpl in *; lia.
Qed.

Lemma used_total_nonneg (bl : list block) : Forall block_ok bl -> 0 <= used_total bl.
Proof.
  pose proof hdr_pos. induction 1 as [|[sz [|]] r [Hb _] _ IH]; simpl in *; lia.
Qed.

Lemma total_length (bl : list block) :
  Forall block_ok bl -> 8 * Z.of_nat (length bl) <= total bl.
Proof.
  pose proof hdr_pos.
  induction 1 as [|[sz u] r [Hb _] _ IH]; simpl length; simpl total; [lia|].
  simpl in Hb. lia.
Qed.

Lemma ff_app (l1 l2 : list block) (a nf : Z) :
  ff a (l1 ++ l2) nf = ff a l1 (ff (a + total l1) l2 nf).
Proof.
  revert a; induction l1 as [|[sz [|]] l1 IH]; intros a; simpl.
  - f_equal; lia.
  - rewrite IH. f_equal. f_equal. lia.
  - reflexivity.
Qed.

Lemma last_free_app (l1 l2 : list block) (a d : Z) :
  last_free a (l1 ++ l2) d = last_free (a + total l1) l2 (last_free a l1 d).
Proof.
  revert a d; induction l1 as [|[sz [|]] l1 IH]; intros a d; simpl.
  - f_equal; lia.
  - rewrite IH. f_equal. lia.
  - rewrite IH. f_equal. lia.
Qed.

Lemma ff_all_used (bl : list block) (a nf : Z) : all_used bl -> ff a bl nf = nf.
Proof.
  intros H; revert a; induction H as [|[sz u] r Hu _ IH]; intros a; simpl; [reflexivity|].
  simpl in Hu; subst u. apply IH.
Qed.

Lemma last_free_all_used (bl : list block) (a d : Z) :
  all_used bl -> last_free a bl d = d.
Proof.
  intros H; revert a; induction H as [|[sz u] r Hu _ IH]; intros a; simpl; [reflexivity|].
  simpl in Hu; subst u. apply IH.
Qed.

Lemma ff_range (bl : list block) (a nf : Z) :
  Forall block_ok bl ->
  ff a bl nf = nf \/ (a <= ff a bl nf /\ ff a bl nf < a + total bl).
Proof.
  pose proof hdr_pos.
  intros H0; revert a; induction H0 as [|[sz [|]] r [Hb _] Hr IH]; intros a; simpl in *.
  - now left.
  - destruct (IH (a + sz)) as [E | E]; [now left | right; lia].
  - right. pose proof (total_nonneg r Hr). lia.
Qed.

Lemma last_free_range (bl : list block) (a d : Z) :
  Forall block_ok bl ->
  last_free a bl d = d \/ (a <= last_free a bl d /\ last_free a bl d < a + total bl).
Proof.
  pose proof hdr_pos.
  intros H0; revert a d; induction H0 as [|[sz [|]] r [Hb _] Hr IH]; intros a d; simpl in *.
  - now left.
  - destruct (IH (a + sz) d) as [E | E]; [now left | right; lia].
  - pose proof (total_nonneg r Hr).
    destruct (IH (a + sz) a) as [E | E]; right; lia.
Qed.

(** The prefix in front of a block either has no free block, or its
    last free block is followed by allocated blocks only. *)
Lemma prefix_cases (bl : list block) (a d : Z) :
  (all_used bl /\ last_free a bl d = d) \/
  (exists p1 fsz p2, bl = p1 ++ (fsz, false) :: p2 /\ all_used p2 /\
                     last_free a bl d = a + total p1).
Proof.
  revert a d; induction bl as [|[sz [|]] r IH]; intros a d; simpl.
  - left; split; [constructor | reflexivity].
  - destruct (IH (a + sz) d) as [[Hu E] | (p1 & fsz & p2 & E1 & Hu & E2)].
    + left; split; [constructor; auto | assumption].
    + right. exists ((sz, true) :: p1), fsz, p2. subst r; simpl.
      repeat split; auto. rewrite E2; lia.
  - destruct (IH (a + sz) a) as [[Hu E] | (p1 & fsz & p2 & E1 & Hu & E2)].
    + right. exists [], sz, r. simpl. repeat split; auto. rewrite E; lia.
    + right. exists ((sz, false) :: p1), fsz, p2. subst r; simpl.
      repeat split; auto. rewrite E2; lia.
Qed.

Lemma fseg_app (m : memory) (l1 l2 : list block) (a nf : Z) :
  fseg m a (l1 ++ l2) nf <->
  fseg m a l1 (ff (a + total l1) l2 nf) /\ fseg m (a + total l1) l2 nf.
Proof.
  revert a; induction l1 as [|[sz [|]] l1 IH]; intros a; simpl.
  - replace (a + 0) with a by lia. tauto.
  - rewrite IH. replace (a + sz + total l1) with (a + (sz + total l1)) by lia. tauto.
  - rewrite IH, ff_app.
    replace (a + sz + total l1) with (a + (sz + total l1)) by lia. tauto.
Qed.

Lemma useg_app (m : memory) (l1 l2 : list block) (a : Z) :
  useg m a (l1 ++ l2) <-> useg m a l1 /\ useg m (a + total l1) l2.
Proof.
  revert a; induction l1 as [|[sz [|]] l1 IH]; intros a; simpl.
  - replace (a + 0) with a by lia. tauto.
  - rewrite IH. replace (a + sz + total l1) with (a + (sz + total l1)) by lia. tauto.
  - rewrite IH. replace (a + sz + total l1) with (a + (sz + total l1)) by lia. tauto.
Qed.

Lemma fseg_all_used (m : memory) (bl : list block) (a nf : Z) :
  all_used bl -> fseg m a bl nf.
Proof.
  intros H; revert a; induction H as [|[sz u] r Hu _ IH]; intros a; simpl; [exact I|].
  simpl in Hu; subst u. apply IH.
Qed.

(** Frame: a segment only depends on the memory it occupies. *)
Lemma fseg_frame (m m' : memory) (bl : list block) (a nf : Z) :
  Forall block_ok bl ->
  (forall x, a <= x < a + total bl -> m' x = m x) ->
  fseg m a bl nf -> fseg m' a bl nf.
Proof.
  pose proof hdr_pos.
  intros H0; revert a; induction H0 as [|[sz [|]] r [Hb _] Hr IH]; intros a Hm; simpl in *.
  - trivial.
  - pose proof (total_nonneg r Hr). apply IH. intros x Hx; apply Hm; lia.
  - pose proof (total_nonneg r Hr). intros (E1 & E2 & E3).
    rewrite !Hm by lia. repeat split; auto.
    apply IH; auto. intros x Hx; apply Hm; lia.
Qed.

Lemma useg_frame (m m' : memory) (bl : list block) (a : Z) :
  Forall block_ok bl ->
  (forall x, a <= x < a + total bl -> m' x = m x) ->
  useg m a bl -> useg m' a bl.
Proof.
  pose proof hdr_pos.
  intros H0; revert a; induction H0 as [|[sz [|]] r [Hb _] Hr IH]; intros a Hm; simpl in *.
  - trivial.
  - pose proof (total_nonneg r Hr). intros (E1 & E2 & E3).
    rewrite !Hm by lia. repeat split; auto.
    apply IH; auto. intros x Hx; apply Hm; lia.
  - pose proof (total_nonneg r Hr). apply IH. intros x Hx; apply Hm; lia.
Qed.

(** The link of the last node in front of a position holds the first
    free address behind it. *)
Lemma last_free_link (m : memory) (bl : list block) (a d nf : Z) :
  fseg m a bl nf -> m d = ff a bl nf -> m (last_free a bl d) = nf.
Proof.
  revert a d; induction bl as [|[sz [|]] r IH]; intros a d; simpl.
  - auto.
  - apply IH.
  - intros (E1 & E2 & E3) _. now apply IH.
Qed.

(** Redirecting the link of the last node redirects the segment. *)
Lemma fseg_retarget (m : memory) (bl : list block) (a d nf nf' : Z) :
  Forall block_ok bl ->
  ~ (a <= d < a + total bl) ->
  fseg m a bl nf -> m d = ff a bl nf ->
  fseg (upd m (last_free a bl d) nf') a bl nf' /\
  upd m (last_free a bl d) nf' d = ff a bl nf'.
Proof.
  pose proof hdr_pos.
  intros H0; revert a d; induction H0 as [|[sz [|]] r [Hb _] Hr IH];
    intros a d Hd; simpl in *.
  - intros _ _. split; [exact I|]. unfold upd. now rewrite Z.eqb_refl.
  - pose proof (total_nonneg r Hr). intros Hs Hl. apply IH; auto. lia.
  - pose proof (total_nonneg r Hr). intros (E1 & E2 & E3) Hl.
    destruct (IH (a + sz) a ltac:(lia) E3 E2) as [F1 F2].
    pose proof (last_free_range r (a + sz) a Hr) as Hr'.
    repeat split; auto.
    + unfold upd. destruct (Z.eqb_spec (a + ptr_bytes P) (last_free (a + sz) r a)); [lia | assumption].
    + unfold upd. destruct (Z.eqb_spec d (last_free (a + sz) r a)); [lia | assumption].
Qed.

Lemma seg_ok_cons (a : Z) (b : block) (r : list block) :
  seg_ok a (b :: r) -> hdr_addr P a /\ seg_ok (a + fst b) r /\ block_ok b.
Proof.
  pose proof hdr_pos.
  intros (H1 & H2 & H3 & H4). inversion H4 as [|? ? Hb Hr]; subst.
  destruct b as [sz u]; simpl in *. destruct Hb as [Hb1 Hb2]; simpl in *.
  pose proof (total_nonneg r Hr).
  repeat split; auto; try lia.
  rewrite Z.add_mod, H2, Hb2 by lia. reflexivity.
Qed.

Lemma total_mod8 (bl : list block) : Forall block_ok bl -> total bl mod 8 = 0.
Proof.
  induction 1 as [|[sz u] r [_ Hb] _ IH]; simpl in *; [reflexivity|].
  rewrite Z.add_mod, Hb, IH by lia. reflexivity.
Qed.

Lemma seg_ok_app (a : Z) (l1 l2 : list block) :
  seg_ok a (l1 ++ l2) <-> seg_ok a l1 /\ seg_ok (a + total l1) l2.
Proof.
  unfold seg_ok. rewrite total_app, Forall_app. split.
  - intros (H1 & H2 & H3 & H4 & H5).
    pose proof (total_nonneg l1 H4). pose proof (total_nonneg l2 H5).
    pose proof (total_mod8 l1 H4).
    repeat split; auto; try lia.
    rewrite Z.add_mod, H2, H6 by lia. reflexivity.
  - intros ((H1 & H2 & H3 & H4) & (G1 & G2 & G3 & G4)).
    repeat split; auto; lia.
Qed.

Lemma seg_ok_hdr (a : Z) (bl : list block) : seg_ok a bl -> hdr_addr P a.
Proof.
  intros (H1 & H2 & H3 & H4). pose proof (total_nonneg bl H4).
  repeat split; auto; lia.
Qed.

Lemma seg_ok_end (a : Z) (bl : list block) : seg_ok a bl -> hdr_addr P (a + total bl).
Proof.
  intros H. replace bl with (bl ++ []) in H by apply app_nil_r.
  apply seg_ok_app in H. destruct H as [_ H]. now apply seg_ok_hdr in H.
Qed.

End BlockLists.

(* ================================================================== *)
(** ** The two list walks *)

(** What the first-fit walk computes on the block sequence:
    [(pxPreviousBlock, pxBlock)]. *)
Fixpoint fit_abs (w a prev : Z) (bl : list block) : Z * Z :=
  match bl with
  | [] => (prev, a)
  | (sz, true) :: r => fit_abs w (a + sz) prev r
  | (sz, false) :: r => if sz <? w then fit_abs w (a + sz) a r else (prev, a)
  end.

(** The block handed out for a block size [w]: whole, or split when more
    than [mn] bytes would be left over. *)
Definition carve (mn w sz : Z) : list block :=
  if mn <? sz - w then [(w, true); (sz - w, false)] else [(sz, true)].

(** First-fit allocation on the block sequence: address of the chosen
    block and the sequence afterwards. *)
Fixpoint alloc_abs (mn w a : Z) (bl : list block) : option (Z * list block) :=
  match bl with
  | [] => None
  | (sz, true) :: r =>
      match alloc_abs mn w (a + sz) r with
      | Some (p, r') => Some (p, (sz, true) :: r')
      | None => None
      end
  | (sz, false) :: r =>
      if sz <? w then
        match alloc_abs mn w (a + sz) r with
        | Some (p, r') => Some (p, (sz, false) :: r')
        | None => None
        end
      else Some (a, carve mn w sz ++ r)
  end.

Section Walks.
Variable P : platform.
Hypothesis WF : wf_platform P.

Lemma fit_cases (mn w : Z) (bl : list block) (a prev : Z) :
  (alloc_abs mn w a bl = None /\ snd (fit_abs w a prev bl) = a + total bl) \/
  (exists pre sz post,
      bl = pre ++ (sz, false) :: post /\ w <= sz /\
      fit_abs w a prev bl = (last_free a pre prev, a + total pre) /\
      alloc_abs mn w a bl = Some (a + total pre, pre ++ carve mn w sz ++ post)).
Proof.
  revert a prev; induction bl as [|[sz [|]] r IH]; intros a prev; simpl.
  - left; split; [reflexivity | lia].
  - destruct (IH (a + sz) prev) as [[E1 E2] | (pre & s & post & E1 & E2 & E3 & E4)].
    + left. rewrite E1, E2. split; [reflexivity | lia].
    + right. exists ((sz, true) :: pre), s, post. subst r. simpl.
      rewrite E3, E4. repeat split; auto. f_equal; lia.
      do 2 f_equal. lia.
  - destruct (Z.ltb_spec sz w) as [Hlt | Hge].
    + destruct (IH (a + sz) a) as [[E1 E2] | (pre & s & post & E1 & E2 & E3 & E4)].
      * left. rewrite E1, E2. split; [reflexivity | lia].
      * right. exists ((sz, false) :: pre), s, post. subst r. simpl.
        rewrite E3, E4. repeat split; auto. f_equal; lia.
        do 2 f_equal. lia.
    + right. exists [], sz, r. simpl. repeat split; auto.
      * f_equal; lia.
      * do 2 f_equal. lia.
Qed.

(** No block fits when the request exceeds the free total. *)
Lemma alloc_abs_none (mn w : Z) (bl : list block) (a : Z) :
  Forall (block_ok P) bl -> free_total bl < w -> alloc_abs mn w a bl = None.
Proof.
  pose proof (hdr_pos P WF) as Hh.
  intros H0; revert a; induction H0 as [|[sz [|]] r [Hb _] Hr IH]; intros a Hw; simpl in *.
  - reflexivity.
  - now rewrite IH.
  - pose proof (free_total_nonneg P WF r Hr).
    destruct (Z.ltb_spec sz w); [|lia]. rewrite IH; [reflexivity | lia].
Qed.

Lemma find_fit_spec (m : memory) (w : Z) (bl : list block) :
  forall (a prev : Z) (fuel : nat),
    seg_ok P a bl -> a + total bl = uxEndAddress P ->
    fseg P m a bl (uxEndAddress P) ->
    m (uxEndAddress P) = NULL -> m (uxEndAddress P + ptr_bytes P) = 0 ->
    0 < w ->
    (length bl < fuel)%nat ->
    find_fit P fuel m w prev (ff a bl (uxEndAddress P)) =
    Some (fit_abs w a prev bl).
Proof.
  pose proof (start_facts P WF) as Hst. pose proof (wf_heap_pos P WF) as Hhp.
  induction bl as [|[sz [|]] r IH]; intros a prev fuel Hs He Hf Hn Hz Hw Hfuel;
    (destruct fuel as [|fuel]; [simpl in Hfuel; lia|]).
  - simpl in *. replace a with (uxEndAddress P) in * by lia.
    assert (Hnode : node P (uxEndAddress P)) by (left; apply (seg_ok_hdr P WF _ _ Hs)).
    rewrite (ld_size P WF _ _ Hnode). simpl. rewrite Hz.
    destruct (Z.ltb_spec 0 w); [|lia].
    rewrite (ld_next P WF _ _ Hnode). simpl. rewrite Hn. reflexivity.
  - destruct (seg_ok_cons P WF _ _ _ Hs) as (Ha & Hr & Hb).
    simpl fst in Hr. simpl ff. simpl fit_abs.
    apply IH; auto.
    + simpl in He. lia.
    + simpl in Hfuel. lia.
  - destruct (seg_ok_cons P WF _ _ _ Hs) as (Ha & Hr & Hb).
    simpl fst in Hr. simpl ff. simpl fit_abs.
    destruct Hf as (E1 & E2 & E3).
    assert (Hnode : node P a) by now left.
    simpl find_fit. rewrite (ld_size P WF _ _ Hnode). simpl obind. rewrite E1.
    destruct (Z.ltb_spec sz w); [|reflexivity].
    rewrite (ld_next P WF _ _ Hnode). simpl obind. rewrite E2.
    assert (Hnz : ff (a + sz) r (uxEndAddress P) <> NULL).
    { destruct Hr as (G1 & _ & G3 & G4). destruct Ha as [Ha _].
      destruct (ff_range P WF r (a + sz) (uxEndAddress P) G4) as [-> | ?];
        unfold NULL; lia. }
    destruct (Z.eqb_spec (ff (a + sz) r (uxEndAddress P)) NULL); [contradiction|].
    simpl negb. cbv iota. apply IH; auto.
    + simpl in He. lia.
    + simpl in Hfuel. lia.
Qed.

Lemma insert_scan_spec (m : memory) (blk nf : Z) (rest : list block) (pre : list block) :
  forall (a d : Z) (fuel : nat),
    seg_ok P a (pre ++ rest) -> node P d ->
    fseg P m a (pre ++ rest) nf -> m d = ff a (pre ++ rest) nf ->
    blk = a + total pre -> blk <= ff blk rest nf ->
    (length pre < fuel)%nat ->
    insert_scan P fuel m d blk = Some (last_free a pre d).
Proof.
  pose proof (hdr_pos P WF) as Hh.
  induction pre as [|[sz [|]] r IH]; intros a d fuel Hs Hd Hf Hl Hb Hge Hfuel;
    (destruct fuel as [|fuel]; [simpl in Hfuel; lia|]).
  - simpl in *. replace (a + 0) with a in Hb by lia. subst blk.
    rewrite (ld_next P WF _ _ Hd). simpl. rewrite Hl.
    destruct (Z.ltb_spec (ff a rest nf) a); [lia | reflexivity].
  - simpl app in *. destruct (seg_ok_cons P WF _ _ _ Hs) as (Ha & Hr & Hbk).
    simpl fst in Hr. simpl last_free. simpl in Hf, Hl.
    apply IH; auto.
    + simpl in Hb. lia.
    + simpl in Hfuel. lia.
  - simpl app in *. destruct (seg_ok_cons P WF _ _ _ Hs) as (Ha & Hr & Hbk).
    simpl fst in Hr. simpl last_free. simpl in Hf, Hl.
    destruct Hf as (E1 & E2 & E3). destruct Hbk as [Hbk _]. simpl in Hbk.
    rewrite seg_ok_app in Hr by assumption. destruct Hr as [(_ & _ & _ & Hr1) _].
    pose proof (total_nonneg P WF r Hr1).
    simpl in Hb.
    simpl insert_scan. rewrite (ld_next P WF _ _ Hd). simpl obind. rewrite Hl.
    destruct (Z.ltb_spec a blk); [|lia].
    apply IH; auto.
    + rewrite seg_ok_app by assumption.
      destruct (seg_ok_cons P WF _ _ _ Hs) as (_ & Hr & _). simpl fst in Hr.
      now rewrite seg_ok_app in Hr by assumption.
    + now left.
    + lia.
    + simpl in Hfuel. lia.
Qed.

End Walks.

(* ================================================================== *)
(** ** Coalescing on the block sequence *)

(** The block being inserted absorbs the block behind it when that one is
    free ... *)
Definition merge_fwd (sz : Z) (post : list block) : Z * list block :=
  match post with
  | (nsz, false) :: post0 => (sz + nsz, post0)
  | _ => (sz, post)
  end.

(** ... and is absorbed by the block in front of it when that one is
    free. *)
Fixpoint merge_back (pre : list block) (sz : Z) : list block * Z :=
  match pre with
  | [] => ([], sz)
  | b :: r =>
      match r, b with
      | [], (psz, false) => ([], psz + sz)
      | _, _ => let (r', s) := merge_back r sz in (b :: r', s)
      end
  end.

Definition coalesce (pre : list block) (sz : Z) (post : list block) : list block :=
  let mb := merge_back pre sz in
  let mf := merge_fwd (snd mb) post in
  fst mb ++ (fst mf, false) :: snd mf.

Lemma merge_back_snoc_free (p1 : list block) (fsz sz : Z) :
  merge_back (p1 ++ [(fsz, false)]) sz = (p1, fsz + sz).
Proof.
  induction p1 as [|b p1 IH]; simpl; [reflexivity|].
  rewrite IH. destruct (p1 ++ [(fsz, false)]) eqn:E.
  - destruct p1; discriminate.
  - now destruct b.
Qed.

Lemma merge_back_all_used (pre : list block) (sz : Z) :
  all_used pre -> merge_back pre sz = (pre, sz).
Proof.
  induction 1 as [|[s u] r Hu _ IH]; simpl; [reflexivity|].
  simpl in Hu; subst u. rewrite IH. now destruct r.
Qed.

Lemma merge_back_used_tail (p1 p2 : list block) (sz : Z) :
  all_used p2 -> p2 <> [] -> merge_back (p1 ++ p2) sz = (p1 ++ p2, sz).
Proof.
  intros Hu Hne. induction p1 as [|b p1 IH]; simpl.
  - now apply merge_back_all_used.
  - rewrite IH. destruct (p1 ++ p2) eqn:E.
    + destruct p1; [contradiction | discriminate].
    + now destruct b.
Qed.

Lemma merge_back_mid (p1 : list block) (fsz : Z) (b2 : block) (p2 : list block) (sz : Z) :
  all_used (b2 :: p2) ->
  merge_back (p1 ++ (fsz, false) :: b2 :: p2) sz = (p1 ++ (fsz, false) :: b2 :: p2, sz).
Proof.
  intros Hu.
  pose proof (merge_back_used_tail (p1 ++ [(fsz, false)]) (b2 :: p2) sz Hu) as H.
  rewrite <- app_assoc in H. apply H. discriminate.
Qed.

Ltac upd_tac :=
  unfold upd;
  repeat match goal with
         | |- context [?x =? ?y] => destruct (Z.eqb_spec x y)
         end;
  try lia; auto.

Ltac small_tac :=
  unfold upd;
  repeat match goal with
         | |- context [?x =? ?y] => destruct (Z.eqb_spec x y)
         end;
  first [left; reflexivity | right; lia].

Ltac finish_upd :=
  repeat split; intros; first [contradiction | upd_tac; fail | small_tac].

Section Insert.
Variable P : platform.
Hypothesis WF : wf_platform P.

Local Abbreviation xs := (xStart_addr P).
Local Abbreviation pb := (ptr_bytes P).
Local Abbreviation hdr := (xHeapStructSize P).
Local Abbreviation e := (uxEndAddress P).

Lemma xs_apart (a : Z) :
  hdr_addr P a -> a <> xs /\ a + pb <> xs /\ a <> xs + pb /\ a + pb <> xs + pb.
Proof.
  pose proof (start_facts P WF). pose proof (end_facts P WF).
  pose proof (hdr_pos P WF). pose proof (wf_disjoint P WF).
  intros [Ha _]. lia.
Qed.

Lemma end_small : 0 < e /\ e + hdr < modulus P.
Proof.
  pose proof (end_facts P WF).
  pose proof (wf_heap_pos P WF). pose proof (wf_heap_top P WF).
  unfold configTOTAL_HEAP_SIZE in *.
  destruct (hdr_cases P WF) as [[_ E] | [_ E]]; rewrite E in *; lia.
Qed.

Lemma merge_behind_spec (m1 : memory) (it b s : Z) (post : list block) :
  node P it -> hdr_addr P b -> (it = xs \/ it <= b) ->
  hdr <= s ->
  seg_ok P (b + s) post -> b + s + total post = e ->
  fseg P m1 (b + s) post e ->
  m1 (b + pb) = s ->
  m1 it = ff (b + s) post e ->
  exists m',
    merge_behind P m1 e it b = Some m' /\
    m' (b + pb) = fst (merge_fwd s post) /\
    m' b = ff (b + fst (merge_fwd s post)) (snd (merge_fwd s post)) e /\
    (it <> b -> m' it = b) /\
    (forall x, x <> b -> x <> b + pb -> x <> it -> m' x = m1 x) /\
    (forall x, m' x = m1 x \/ 0 <= m' x <= e).
Proof.
  intros Hit Hb Hord Hs Hpost Hend Hf Hsz Hlink.
  pose proof (hdr_pos P WF) as (Hh1 & Hh2 & Hh3).
  pose proof end_small as [He1 He2].
  pose proof (start_facts P WF) as [Hst _]. pose proof (wf_heap_pos P WF) as Hhp.
  assert (Hnb : node P b) by now left.
  destruct (xs_apart b Hb) as (X1 & X2 & X3 & X4).
  assert (Hbr : uxStartAddress P <= b <= e) by apply Hb.
  unfold merge_behind.
  rewrite (ld_size P WF _ _ Hnb); cbn [obind]. rewrite Hsz.
  rewrite (ld_next P WF _ _ Hit); cbn [obind]. rewrite Hlink.
  assert (Hws : wrap P (b + s) = b + s).
  { apply wrap_small. destruct Hpost as (G1 & _ & G3 & G4).
    pose proof (total_nonneg P WF post G4). lia. }
  rewrite Hws.
  destruct post as [|[nsz [|]] post0].
  - (* the block reaches the end sentinel *)
    simpl in *. replace (b + s) with e by lia.
    rewrite Z.eqb_refl. simpl negb. cbv iota.
    rewrite (st_next P WF _ _ _ Hnb); cbn [obind].
    destruct (Z.eqb_spec it b) as [E | E]; simpl negb; cbv iota.
    + eexists; split; [reflexivity|]. subst it. finish_upd.
    + rewrite (st_next P WF _ _ _ Hit); cbn [obind].
      eexists; split; [reflexivity|].
      assert (it <> b + pb) by (destruct Hord as [-> | ?]; [auto | lia]).
      finish_upd.
  - (* an allocated block follows: plain link *)
    destruct (seg_ok_cons P WF _ _ _ Hpost) as (Ha & Hr & [Hbk _]).
    simpl in Hr, Hbk, Hend, Hf. simpl ff. simpl merge_fwd. cbn [fst snd].
    simpl ff.
    destruct Hr as (G1 & G2 & G3 & G4).
    pose proof (total_nonneg P WF post0 G4).
    assert (Hne : b + s <> ff (b + s + nsz) post0 e).
    { destruct (ff_range P WF post0 (b + s + nsz) e G4) as [-> | ?]; lia. }
    assert (Hrng : 0 <= ff (b + s + nsz) post0 e <= e).
    { destruct (ff_range P WF post0 (b + s + nsz) e G4) as [-> | ?]; lia. }
    destruct (Z.eqb_spec (b + s) (ff (b + s + nsz) post0 e)); [contradiction|].
    rewrite (st_next P WF _ _ _ Hnb); cbn [obind].
    destruct (Z.eqb_spec it b) as [E | E]; simpl negb; cbv iota.
    + eexists; split; [reflexivity|]. subst it. finish_upd.
    + rewrite (st_next P WF _ _ _ Hit); cbn [obind].
      eexists; split; [reflexivity|].
      assert (it <> b + pb) by (destruct Hord as [-> | ?]; [auto | lia]).
      finish_upd.
  - (* a free block follows: absorb it *)
    destruct (seg_ok_cons P WF _ _ _ Hpost) as (Ha & Hr & [Hbk _]).
    simpl in Hr, Hbk, Hend, Hf. simpl ff. simpl merge_fwd. cbn [fst snd].
    destruct Hf as (E1 & E2 & E3).
    destruct Hr as (G1 & G2 & G3 & G4).
    pose proof (total_nonneg P WF post0 G4).
    rewrite Z.eqb_refl.
    destruct (Z.eqb_spec (b + s) e); [lia|]. simpl negb. cbv iota.
    assert (Hnn : node P (b + s)) by now left.
    rewrite (ld_size P WF _ _ Hnn); cbn [obind]. rewrite E1.
    rewrite (st_size P WF _ _ _ Hnb); cbn [obind].
    rewrite (ld_next P WF _ _ Hit); cbn [obind].
    assert (it <> b + pb) by (destruct Hord as [-> | ?]; [auto | lia]).
    assert (Hl1 : upd m1 (b + pb) (wrap P (s + nsz)) it = b + s).
    { unfold upd. destruct (Z.eqb_spec it (b + pb)); [contradiction | assumption]. }
    rewrite Hl1.
    rewrite (ld_next P WF _ _ Hnn); cbn [obind].
    assert (Hl2 : upd m1 (b + pb) (wrap P (s + nsz)) (b + s) = ff (b + s + nsz) post0 e).
    { unfold upd. destruct (Z.eqb_spec (b + s) (b + pb)); [lia | assumption]. }
    rewrite Hl2.
    rewrite (st_next P WF _ _ _ Hnb); cbn [obind].
    rewrite (wrap_small P (s + nsz)) by lia.
    assert (Hrng : 0 <= ff (b + s + nsz) post0 e <= e).
    { destruct (ff_range P WF post0 (b + s + nsz) e G4) as [-> | ?]; lia. }
    replace (b + (s + nsz)) with (b + s + nsz) by lia.
    destruct (Z.eqb_spec it b) as [E | E]; simpl negb; cbv iota.
    + eexists; split; [reflexivity|]. subst it. finish_upd.
    + rewrite (st_next P WF _ _ _ Hit); cbn [obind].
      eexists; split; [reflexivity|].
      finish_upd.
Qed.

Lemma merge_fwd_total (s : Z) (post : list block) :
  fst (merge_fwd s post) + total (snd (merge_fwd s post)) = s + total post.
Proof. destruct post as [|[nsz [|]] r]; simpl; lia. Qed.

Lemma merge_fwd_fseg (m : memory) (a s nf : Z) (post : list block) :
  fseg P m (a + s) post nf ->
  fseg P m (a + fst (merge_fwd s post)) (snd (merge_fwd s post)) nf.
Proof.
  destruct post as [|[nsz [|]] r]; simpl; auto.
  intros (_ & _ & H). now replace (a + (s + nsz)) with (a + s + nsz) by lia.
Qed.

Lemma merge_fwd_useg (m : memory) (a s : Z) (post : list block) :
  useg P m (a + s) post ->
  useg P m (a + fst (merge_fwd s post)) (snd (merge_fwd s post)).
Proof.
  destruct post as [|[nsz [|]] r]; simpl; auto.
  intros H. now replace (a + (s + nsz)) with (a + s + nsz) by lia.
Qed.

Lemma merge_fwd_ok (s : Z) (post : list block) :
  Forall (block_ok P) post ->
  Forall (block_ok P) (snd (merge_fwd s post)) /\ s <= fst (merge_fwd s post) /\
  (fst (merge_fwd s post) - s) mod 8 = 0.
Proof.
  pose proof (hdr_pos P WF).
  intros H0. destruct post as [|[nsz [|]] r]; simpl.
  - repeat split; auto; try lia. now rewrite Z.sub_diag.
  - repeat split; auto; try lia. now rewrite Z.sub_diag.
  - inversion H0 as [|? ? [Hb1 Hb2] Hr]; subst. simpl in *.
    repeat split; auto; try lia. now replace (s + nsz - s) with nsz by lia.
Qed.

Lemma fuel_enough (a : Z) (bl : list block) :
  seg_ok P a bl -> (length bl < heap_fuel)%nat.
Proof.
  intros (H1 & H2 & H3 & H4). pose proof (total_length P WF bl H4).
  pose proof (usable_bounds P WF). unfold usable_size in *.
  unfold heap_fuel, configTOTAL_HEAP_SIZE. lia.
Qed.

(** What [prvInsertBlockIntoFreeList] does to a heap in which the block
    at [blk] (of size [sz], between the runs [pre] and [post]) is not on
    the free list: afterwards the free list is that of the coalesced
    sequence. *)
Lemma insert_spec (m : memory) (pre post : list block) (sz : Z) :
  let st := uxStartAddress P in
  let blk := st + total pre in
  let it := last_free st pre xs in
  seg_ok P st (pre ++ (sz, true) :: post) ->
  st + total (pre ++ (sz, true) :: post) = e ->
  fseg P m st (pre ++ (sz, true) :: post) e ->
  m xs = ff st (pre ++ (sz, true) :: post) e ->
  m (xs + pb) = 0 ->
  m (blk + pb) = sz ->
  exists m',
    prvInsertBlockIntoFreeList P m e blk = Some m' /\
    fseg P m' st (coalesce pre sz post) e /\
    (useg P m st pre -> useg P m (blk + sz) post ->
     useg P m' st (coalesce pre sz post)) /\
    m' xs = ff st (coalesce pre sz post) e /\
    m' (xs + pb) = 0 /\
    (forall x, x <> blk -> x <> blk + pb -> x <> it -> x <> it + pb -> m' x = m x) /\
    (forall x, m' x = m x \/ 0 <= m' x <= e) /\
    (m' (blk + pb) = sz \/ m' (blk + pb) = fst (merge_fwd sz post)).
Proof.
  intros st blk it Hs Hend Hf Hxs Hxz Hsz.
  pose proof (hdr_pos P WF) as (Hh1 & Hh2 & Hh3).
  pose proof end_small as [He1 He2].
  pose proof (start_facts P WF) as [Hst _]. pose proof (wf_heap_pos P WF) as Hhp.
  pose proof (wf_disjoint P WF) as Hdis. pose proof (end_facts P WF) as [Hef _].
  assert (Hs' := Hs). rewrite seg_ok_app in Hs' by assumption.
  destruct Hs' as [Hspre Hsrest].
  destruct (seg_ok_cons P WF _ _ _ Hsrest) as (Hblk & Hspost & [Hbk1 Hbk2]).
  simpl fst in Hspost, Hbk1, Hbk2. fold blk in Hblk, Hspost, Hsrest.
  assert (Hf' := Hf). rewrite fseg_app in Hf' by assumption.
  destruct Hf' as [Hfpre Hfpost]. simpl in Hfpre, Hfpost. fold blk in Hfpre, Hfpost.
  rewrite ff_app in Hxs by assumption. simpl ff in Hxs. fold blk in Hxs.
  rewrite total_app in Hend by assumption. simpl total in Hend.
  set (nfp := ff (blk + sz) post e) in *.
  assert (Hend' : blk + sz + total post = e) by (unfold blk; lia).
  destruct Hspre as (P1 & P2 & P3 & P4).
  assert (Hspost' := Hspost).
  destruct Hspost as (Q1 & Q2 & Q3 & Q4).
  pose proof (total_nonneg P WF pre P4) as Hpre0.
  pose proof (total_nonneg P WF post Q4) as Hpost0.
  assert (Hnfp : blk + sz <= nfp <= e).
  { unfold nfp. destruct (ff_range P WF post (blk + sz) e Q4) as [-> | ?]; lia. }
  destruct (xs_apart blk Hblk) as (X1 & X2 & X3 & X4).
  (* the scan *)
  assert (Hscan : insert_scan P heap_fuel m xs blk = Some it).
  { apply (insert_scan_spec P WF m blk e ((sz, true) :: post) pre st xs); auto.
    - now right.
    - rewrite ff_app by assumption. exact Hxs.
    - simpl. fold nfp. lia.
    - apply (fuel_enough st). repeat split; auto. }
  assert (Hlink : m it = nfp) by (apply (last_free_link P m pre st xs nfp); auto).
  unfold prvInsertBlockIntoFreeList. rewrite Hscan; cbn [obind].
  (* what happens when the block in front is not adjacent *)
  assert (NoMerge :
    node P it -> (it = xs \/ it < blk) ->
    (forall m', (forall x, x <> blk -> x <> blk + pb -> x <> it -> m' x = m x) ->
                useg P m st pre -> useg P m' st pre) ->
    exists m',
      merge_behind P m e it blk = Some m' /\
      fseg P m' st (pre ++ (fst (merge_fwd sz post), false) :: snd (merge_fwd sz post)) e /\
      (useg P m st pre -> useg P m (blk + sz) post ->
       useg P m' st (pre ++ (fst (merge_fwd sz post), false) :: snd (merge_fwd sz post))) /\
      m' xs = ff st (pre ++ (fst (merge_fwd sz post), false) :: snd (merge_fwd sz post)) e /\
      m' (xs + pb) = 0 /\
      (forall x, x <> blk -> x <> blk + pb -> x <> it -> x <> it + pb -> m' x = m x) /\
      (forall x, m' x = m x \/ 0 <= m' x <= e) /\
      (m' (blk + pb) = sz \/ m' (blk + pb) = fst (merge_fwd sz post))).
  { intros Hnit Hord Hupre.
    assert (Hord' : it = xs \/ it <= blk) by (destruct Hord; [now left | right; lia]).
    destruct (merge_behind_spec m it blk sz post Hnit Hblk Hord' Hbk1 Hspost' Hend'
                Hfpost Hsz Hlink) as (m' & Em & M1 & M2 & M3 & M4 & M5).
    assert (Hitblk : it <> blk) by (destruct Hord; [congruence | lia]).
    exists m'. split; [exact Em|].
    destruct (merge_fwd_ok sz post Q4) as (F1 & F2 & F3).
    pose proof (merge_fwd_total sz post) as Ft.
    set (s2 := fst (merge_fwd sz post)) in *. set (post' := snd (merge_fwd sz post)) in *.
    pose proof (total_nonneg P WF post' F1) as Hpost'0.
    assert (Hnot : ~ (st <= xs < st + total pre)) by (fold blk; lia).
    destruct (fseg_retarget P WF m pre st xs nfp blk P4 Hnot Hfpre Hxs) as [R1 R2].
    fold it in R1, R2.
    assert (Hagree : forall x, x <> blk -> x <> blk + pb -> m' x = upd m it blk x).
    { intros x G1 G2. unfold upd. destruct (Z.eqb_spec x it) as [-> | G3].
      - now apply M3.
      - now apply M4. }
    repeat split.
    - rewrite fseg_app by assumption. fold blk. split.
      + simpl. apply (fseg_frame P WF (upd m it blk)); auto.
        intros x Hx. apply Hagree; lia.
      + simpl. repeat split; auto.
        apply (fseg_frame P WF m); auto.
        * intros x Hx. apply M4; destruct Hord; lia.
        * now apply merge_fwd_fseg.
    - intros Hu1 Hu2. rewrite useg_app by assumption. fold blk. split.
      + apply Hupre; auto.
      + simpl. apply (useg_frame P WF m); auto.
        * intros x Hx. apply M4; destruct Hord; lia.
        * now apply merge_fwd_useg.
    - rewrite ff_app by assumption. simpl. fold blk.
      rewrite Hagree by lia. exact R2.
    - rewrite M4; auto; try lia.
      destruct Hnit as [Hh | Hh]; [|lia].
      destruct (xs_apart _ Hh) as (? & ? & ? & ?); lia.
    - intros x G1 G2 G3 G4. now apply M4.
    - exact M5.
    - right. exact M1. }
  destruct (prefix_cases pre st xs) as [[Hall Hit] | (p1 & fsz & p2 & Epre & Hall & Hit)];
    fold it in Hit.
  - (* no free block in front: the iterator is xStart *)
    assert (Hnit : node P it) by (rewrite Hit; now right).
    rewrite (ld_size P WF _ _ Hnit); cbn [obind].
    assert (Hz : m (it + pb) = 0) by (rewrite Hit; exact Hxz). rewrite Hz.
    rewrite (wrap_small P (it + 0))
      by (pose proof (wf_start_pos P WF); pose proof (wf_start_top P WF); lia).
    destruct (Z.eqb_spec (it + 0) blk); [lia|].
    unfold coalesce. rewrite (merge_back_all_used pre sz Hall). cbn [fst snd].
    apply NoMerge; auto.
    intros m' Hm' Hu1. apply (useg_frame P WF m); auto.
    intros x Hx. apply Hm'; fold blk in Hx; lia.
  - (* a free block [it] in front *)
    assert (Hs1 := P4). rewrite Epre in Hs1.
    apply Forall_app in Hs1. destruct Hs1 as [P41 P42].
    apply Forall_cons_iff in P42. destruct P42 as [[Hfs1 Hfs2] P43]. simpl in Hfs1, Hfs2.
    pose proof (total_nonneg P WF p1 P41) as Hp10.
    pose proof (total_nonneg P WF p2 P43) as Hp20.
    assert (Etot : total pre = total p1 + (fsz + total p2))
      by (rewrite Epre, total_app; reflexivity).
    assert (Hfpre' := Hfpre). rewrite Epre in Hfpre'.
    rewrite fseg_app in Hfpre' by assumption. destruct Hfpre' as [Hfp1 Hfit].
    simpl in Hfit, Hfp1. rewrite <- Hit in Hfit, Hfp1. destruct Hfit as (I1 & I2 & I3).
    assert (Hhit : hdr_addr P it).
    { rewrite Hit. split; [lia|].
      rewrite Z.add_mod, P2, (total_mod8 P p1 P41) by lia. reflexivity. }
    assert (Hnit : node P it) by now left.
    destruct (xs_apart it Hhit) as (Y1 & Y2 & Y3 & Y4).
    rewrite (ld_size P WF _ _ Hnit); cbn [obind].
    rewrite I1.
    rewrite (wrap_small P) by lia.
    destruct p2 as [|b2 p2'].
    + (* adjacent: merge with the block in front *)
      simpl total in *. assert (Eb : it + fsz = blk) by (unfold blk; lia).
      rewrite Eb, Z.eqb_refl.
      assert (Hnb : node P blk) by now left.
      rewrite (ld_size P WF _ _ Hnb); cbn [obind]. rewrite Hsz.
      rewrite (st_size P WF _ _ _ Hnit); cbn [obind].
      rewrite (wrap_small P) by lia.
      set (m1 := upd m (it + pb) (fsz + sz)).
      assert (Eaddr : it + (fsz + sz) = blk + sz) by lia.
      assert (A1 : it = xs \/ it <= it) by (right; lia).
      assert (A2 : hdr <= fsz + sz) by lia.
      assert (A3 : seg_ok P (it + (fsz + sz)) post) by (rewrite Eaddr; exact Hspost').
      assert (A4 : it + (fsz + sz) + total post = e) by lia.
      assert (A5 : fseg P m1 (it + (fsz + sz)) post e).
      { rewrite Eaddr. apply (fseg_frame P WF m); auto.
        intros x Hx. unfold m1. upd_tac. }
      assert (A6 : m1 (it + pb) = fsz + sz) by (unfold m1; upd_tac).
      assert (A7 : m1 it = ff (it + (fsz + sz)) post e).
      { rewrite Eaddr. unfold m1. upd_tac. }
      destruct (merge_behind_spec m1 it it (fsz + sz) post Hnit Hhit A1 A2 A3 A4 A5 A6 A7)
        as (m' & Em & M1 & M2 & M3 & M4 & M5).
      exists m'. split; [exact Em|].
      unfold coalesce. rewrite Epre, merge_back_snoc_free. cbn [fst snd].
      destruct (merge_fwd_ok (fsz + sz) post Q4) as (F1 & F2 & F3).
      pose proof (merge_fwd_total (fsz + sz) post) as Ft.
      set (s2 := fst (merge_fwd (fsz + sz) post)) in *.
      set (post' := snd (merge_fwd (fsz + sz) post)) in *.
      pose proof (total_nonneg P WF post' F1) as Hpost'0.
      assert (Hm'm : forall x, x <> it -> x <> it + pb -> m' x = m x).
      { intros x G1 G2. rewrite M4; auto. unfold m1. upd_tac. }
      repeat split.
      * rewrite fseg_app by assumption. rewrite <- Hit. split.
        -- simpl. apply (fseg_frame P WF m); auto.
           intros x Hx. apply Hm'm; lia.
        -- simpl. repeat split; auto.
           apply (fseg_frame P WF m1); auto.
           ++ intros x Hx. apply M4; lia.
           ++ now apply merge_fwd_fseg.
      * intros Hu1 Hu2.
        rewrite useg_app in Hu1 by assumption. destruct Hu1 as [Hup1 Hup2].
        rewrite useg_app by assumption. rewrite <- Hit. split.
        -- apply (useg_frame P WF m); auto. intros x Hx. apply Hm'm; lia.
        -- simpl. apply (useg_frame P WF m); auto.
           ++ intros x Hx. apply Hm'm; lia.
           ++ apply merge_fwd_useg. now rewrite Eaddr.
      * rewrite ff_app by assumption. simpl. rewrite Hm'm by auto.
        rewrite Hxs, Epre. rewrite ff_app by assumption. reflexivity.
      * rewrite Hm'm; auto.
      * intros x G1 G2 G3 G4. apply Hm'm; auto.
      * intros x. destruct (M5 x) as [E | E]; [|now right].
        rewrite E. unfold m1. small_tac.
      * left. rewrite Hm'm by lia. exact Hsz.
    + (* allocated blocks in between: no merge in front *)
      apply Forall_cons_iff in P43. destruct P43 as [Hb2 P44].
      destruct b2 as [s2b u2]. destruct Hb2 as [Hb21 Hb22].
      pose proof (total_nonneg P WF p2' P44) as Hp2'0.
      simpl in Hb21, Hb22. simpl total in *.
      destruct (Z.eqb_spec (it + fsz) blk); [unfold blk in *; lia|].
      unfold coalesce. rewrite Epre.
      rewrite (merge_back_mid p1 fsz (s2b, u2) p2' sz Hall). cbn [fst snd].
      rewrite <- Epre.
      apply NoMerge; auto.
      * right. unfold blk. lia.
      * intros m' Hm' Hu1. rewrite Epre in Hu1.
        rewrite useg_app in Hu1 by assumption. destruct Hu1 as [Hup1 Hup2].
        simpl in Hup2. rewrite <- Hit in Hup2.
        rewrite Epre.
        rewrite useg_app by assumption. rewrite <- Hit. split.
        -- apply (useg_frame P WF m); auto. intros x Hx. apply Hm'; unfold blk; lia.
        -- change (useg P m' (it + fsz) ((s2b, u2) :: p2')).
           apply (useg_frame P WF m); [ | | exact Hup2].
           ++ constructor; [split; assumption | assumption].
           ++ intros x Hx. simpl total in Hx. apply Hm'; unfold blk; lia.
Qed.

Lemma insert_spec_at (m : memory) (pre post bl : list block) (sz blk it : Z) :
  bl = pre ++ (sz, true) :: post ->
  blk = uxStartAddress P + total pre ->
  it = last_free (uxStartAddress P) pre xs ->
  seg_ok P (uxStartAddress P) bl ->
  uxStartAddress P + total bl = e ->
  fseg P m (uxStartAddress P) bl e ->
  m xs = ff (uxStartAddress P) bl e ->
  m (xs + pb) = 0 ->
  m (blk + pb) = sz ->
  exists m',
    prvInsertBlockIntoFreeList P m e blk = Some m' /\
    fseg P m' (uxStartAddress P) (coalesce pre sz post) e /\
    (useg P m (uxStartAddress P) pre -> useg P m (blk + sz) post ->
     useg P m' (uxStartAddress P) (coalesce pre sz post)) /\
    m' xs = ff (uxStartAddress P) (coalesce pre sz post) e /\
    m' (xs + pb) = 0 /\
    (forall x, x <> blk -> x <> blk + pb -> x <> it -> x <> it + pb -> m' x = m x) /\
    (forall x, m' x = m x \/ 0 <= m' x <= e) /\
    (m' (blk + pb) = sz \/ m' (blk + pb) = fst (merge_fwd sz post)).
Proof. intros -> -> ->. apply insert_spec. Qed.

End Insert.

(* ================================================================== *)
(** ** Properties of the block-sequence operations *)

Section Sequences.

Lemma head_used_app (l1 l2 : list block) :
  l1 <> [] -> (head_used (l1 ++ l2) <-> head_used l1).
Proof. destruct l1 as [|[s [|]] r]; simpl; tauto. Qed.

Lemma no_adj_used (l1 l2 : list block) (s : Z) :
  no_adj (l1 ++ (s, true) :: l2) <-> no_adj l1 /\ no_adj l2.
Proof.
  induction l1 as [|[z [|]] r IH]; simpl.
  - tauto.
  - exact IH.
  - rewrite IH. destruct r as [|b r]; simpl; [tauto|].
    destruct b as [zb [|]]; simpl; tauto.
Qed.

Lemma no_adj_free (l1 l2 : list block) (s : Z) :
  no_adj (l1 ++ (s, false) :: l2) <->
  no_adj (l1 ++ [(s, false)]) /\ head_used l2 /\ no_adj l2.
Proof.
  induction l1 as [|[z [|]] r IH]; simpl.
  - tauto.
  - exact IH.
  - rewrite IH. destruct r as [|b r]; simpl; [tauto|].
    destruct b as [zb [|]]; simpl; tauto.
Qed.

Lemma no_adj_resize (q : list block) (s s' : Z) :
  no_adj (q ++ [(s, false)]) -> no_adj (q ++ [(s', false)]).
Proof.
  induction q as [|[z [|]] r IH]; simpl; auto.
  intros [H1 H2]. split; auto.
  destruct r as [|[zb [|]] r]; simpl in *; tauto.
Qed.

Lemma no_adj_snoc (q : list block) (b : block) : no_adj (q ++ [b]) -> no_adj q.
Proof.
  induction q as [|[z [|]] r IH]; simpl; auto.
  intros [H1 H2]. split; auto.
  destruct r as [|[zc [|]] r]; simpl in *; tauto.
Qed.

Lemma merge_back_cases (pre : list block) (sz : Z) :
  (merge_back pre sz = (pre, sz) /\
   (pre = [] \/ exists q s, pre = q ++ [(s, true)])) \/
  (exists q s, pre = q ++ [(s, false)] /\ merge_back pre sz = (q, s + sz)).
Proof.
  destruct pre as [|b0 r] using rev_ind.
  - left. split; [reflexivity | now left].
  - destruct b0 as [s [|]].
    + left. split.
      * apply merge_back_used_tail; [|discriminate]. repeat constructor.
      * right. now exists r, s.
    + right. exists r, s. split; [reflexivity | apply merge_back_snoc_free].
Qed.

Lemma merge_fwd_cases (s : Z) (post : list block) :
  (merge_fwd s post = (s, post) /\ head_used post) \/
  (exists n r, post = (n, false) :: r /\ merge_fwd s post = (s + n, r)).
Proof.
  destruct post as [|[n [|]] r]; simpl.
  - now left. - now left.
  - right. now exists n, r.
Qed.

Lemma coalesce_no_adj (pre post : list block) (sz : Z) :
  no_adj (pre ++ (sz, true) :: post) -> no_adj (coalesce pre sz post).
Proof.
  rewrite no_adj_used. intros [Hpre Hpost]. unfold coalesce.
  assert (Hf : forall s, head_used (snd (merge_fwd s post)) /\
                         no_adj (snd (merge_fwd s post))).
  { intros s. destruct (merge_fwd_cases s post) as [[-> Hh] | (n & r & -> & ->)]; simpl.
    - split; auto.
    - simpl in Hpost. tauto. }
  destruct (merge_back_cases pre sz) as [[-> Hc] | (q & s & -> & ->)]; cbn [fst snd].
  - rewrite no_adj_free. destruct (Hf sz) as [F1 F2]. repeat split; auto.
    destruct Hc as [-> | (q & s & ->)]; simpl; auto.
    rewrite <- app_assoc. simpl. rewrite no_adj_used. split; simpl; auto.
    rewrite no_adj_used in Hpre. tauto.
  - rewrite no_adj_free. destruct (Hf (s + sz)) as [F1 F2]. repeat split; auto.
    eapply no_adj_resize; eauto.
Qed.

Lemma coalesce_total (pre post : list block) (sz : Z) :
  total (coalesce pre sz post) = total pre + sz + total post.
Proof.
  unfold coalesce.
  destruct (merge_back_cases pre sz) as [[-> Hc] | (q & s & -> & ->)]; cbn [fst snd];
    [destruct (merge_fwd_cases sz post) as [[-> Hh] | (n & r & -> & ->)]
    |destruct (merge_fwd_cases (s + sz) post) as [[-> Hh] | (n & r & -> & ->)]];
    cbn [fst snd]; repeat (rewrite total_app; simpl); lia.
Qed.

Lemma coalesce_free_total (pre post : list block) (sz : Z) :
  free_total (coalesce pre sz post) = free_total pre + sz + free_total post.
Proof.
  unfold coalesce.
  destruct (merge_back_cases pre sz) as [[-> Hc] | (q & s & -> & ->)]; cbn [fst snd];
    [destruct (merge_fwd_cases sz post) as [[-> Hh] | (n & r & -> & ->)]
    |destruct (merge_fwd_cases (s + sz) post) as [[-> Hh] | (n & r & -> & ->)]];
    cbn [fst snd]; repeat (rewrite free_total_app; simpl); lia.
Qed.

Lemma used_ptrs_app (h a : Z) (l1 l2 : list block) :
  used_ptrs h a (l1 ++ l2) = used_ptrs h a l1 ++ used_ptrs h (a + total l1) l2.
Proof.
  revert a; induction l1 as [|[s [|]] r IH]; intros a; simpl.
  - f_equal; lia.
  - rewrite IH. do 3 f_equal. lia.
  - rewrite IH. do 2 f_equal. lia.
Qed.

Lemma coalesce_used_ptrs (h a : Z) (pre post : list block) (sz : Z) :
  used_ptrs h a (coalesce pre sz post) =
  used_ptrs h a pre ++ used_ptrs h (a + total pre + sz) post.
Proof.
  unfold coalesce.
  destruct (merge_back_cases pre sz) as [[-> Hc] | (q & s & -> & ->)]; cbn [fst snd];
    [destruct (merge_fwd_cases sz post) as [[-> Hh] | (n & r & -> & ->)]
    |destruct (merge_fwd_cases (s + sz) post) as [[-> Hh] | (n & r & -> & ->)]];
    cbn [fst snd]; repeat (rewrite used_ptrs_app; simpl); rewrite ?app_nil_r;
    repeat (rewrite total_app; simpl); try reflexivity; f_equal; f_equal; lia.
Qed.

Variable P : platform.
Hypothesis WF : wf_platform P.

Lemma coalesce_ok (pre post : list block) (sz : Z) :
  Forall (block_ok P) (pre ++ (sz, true) :: post) ->
  Forall (block_ok P) (coalesce pre sz post).
Proof.
  pose proof (hdr_pos P WF) as (Hh & _ & _).
  rewrite Forall_app, Forall_cons_iff. intros (Hpre & [Hb1 Hb2] & Hpost).
  simpl in Hb1, Hb2. unfold coalesce.
  assert (Hf : forall s, xHeapStructSize P <= s -> s mod 8 = 0 ->
               Forall (block_ok P) ((fst (merge_fwd s post), false) :: snd (merge_fwd s post))).
  { intros s G1 G2.
    destruct (merge_fwd_cases s post) as [[-> Hh'] | (n & r & -> & ->)]; cbn [fst snd].
    - constructor; auto. split; auto.
    - apply Forall_cons_iff in Hpost. destruct Hpost as [[Hn1 Hn2] Hr].
      simpl in Hn1, Hn2. constructor; auto. split; simpl; [lia|].
      rewrite Z.add_mod, G2, Hn2 by lia. reflexivity. }
  destruct (merge_back_cases pre sz) as [[-> Hc] | (q & s & -> & ->)]; cbn [fst snd].
  - apply Forall_app. split; auto.
  - apply Forall_app in Hpre. destruct Hpre as [Hq Hs].
    apply Forall_cons_iff in Hs. destruct Hs as [[Hs1 Hs2] _]. simpl in Hs1, Hs2.
    apply Forall_app. split; auto. apply Hf; [lia|].
    rewrite Z.add_mod, Hs2, Hb2 by lia. reflexivity.
Qed.

End Sequences.

(* ================================================================== *)
(** ** The heap invariant *)

(** [heap_inv P s bl]: the state [s] is a well-formed heap whose arena is
    the block sequence [bl]. *)
Record heap_inv (P : platform) (s : heap) (bl : list block) : Prop := {
  inv_end : pxEnd s = uxEndAddress P;
  inv_seg : seg_ok P (uxStartAddress P) bl;
  inv_total : uxStartAddress P + total bl = uxEndAddress P;
  inv_no_adj : no_adj bl;
  inv_fseg : fseg P (mem s) (uxStartAddress P) bl (uxEndAddress P);
  inv_useg : useg P (mem s) (uxStartAddress P) bl;
  inv_start_next : mem s (xStart_addr P) = ff (uxStartAddress P) bl (uxEndAddress P);
  inv_start_size : mem s (xStart_addr P + ptr_bytes P) = 0;
  inv_end_next : mem s (uxEndAddress P) = NULL;
  inv_end_size : mem s (uxEndAddress P + ptr_bytes P) = 0;
  inv_free : xFreeBytesRemaining s = free_total bl
}.

Section Init.
Variable P : platform.
Hypothesis WF : wf_platform P.

Local Abbreviation xs := (xStart_addr P).
Local Abbreviation pb := (ptr_bytes P).
Local Abbreviation hdr := (xHeapStructSize P).
Local Abbreviation e := (uxEndAddress P).
Local Abbreviation st := (uxStartAddress P).

Lemma start_hdr : hdr_addr P st.
Proof.
  pose proof (start_facts P WF) as [H1 H2]. pose proof (usable_bounds P WF).
  unfold usable_size in *. repeat split; auto; lia.
Qed.

Lemma end_hdr : hdr_addr P e.
Proof.
  pose proof (end_facts P WF) as [H1 H2]. pose proof (usable_bounds P WF).
  unfold usable_size in *. repeat split; auto; lia.
Qed.

Lemma usable_mod8 : usable_size P mod 8 = 0.
Proof.
  unfold usable_size. pose proof (start_facts P WF) as [_ H1].
  pose proof (end_facts P WF) as [_ H2].
  rewrite Zminus_mod, H1, H2. reflexivity.
Qed.

Lemma modulus_big : 40960 < modulus P.
Proof.
  pose proof (wf_heap_pos P WF). pose proof (wf_heap_top P WF).
  unfold configTOTAL_HEAP_SIZE in *. lia.
Qed.

(** The size of any run of blocks stays far below the flag bit. *)
Lemma bitmask_big : 40960 < heapBLOCK_ALLOCATED_BITMASK P.
Proof.
  pose proof (bitmask_val P WF).
  destruct (modulus_cases P WF) as [[_ E] | [_ E]]; rewrite E in *; lia.
Qed.

Lemma prvHeapInit_spec (s : heap) :
  exists s',
    prvHeapInit P s = Some s' /\
    heap_inv P s' [(usable_size P, false)] /\
    xMinimumEverFreeBytesRemaining s' = usable_size P /\
    xNumberOfSuccessfulAllocations s' = xNumberOfSuccessfulAllocations s /\
    xNumberOfSuccessfulFrees s' = xNumberOfSuccessfulFrees s.
Proof.
  pose proof (hdr_pos P WF) as (Hh1 & Hh2 & Hh3).
  pose proof start_hdr as Hst. pose proof end_hdr as Hen.
  pose proof (usable_bounds P WF) as Hu. pose proof usable_mod8 as Hu8.
  pose proof modulus_big as Hmb.
  destruct (xs_apart P WF _ Hst) as (X1 & X2 & X3 & X4).
  destruct (xs_apart P WF _ Hen) as (Y1 & Y2 & Y3 & Y4).
  assert (Nx : node P xs) by now right.
  assert (Ns : node P st) by now left.
  assert (Ne : node P e) by now left.
  unfold usable_size in *.
  unfold prvHeapInit.
  rewrite (st_next P WF _ _ _ Nx); cbn [obind].
  rewrite (st_size P WF _ _ _ Nx); cbn [obind].
  rewrite (st_size P WF _ _ _ Ne); cbn [obind].
  rewrite (st_next P WF _ _ _ Ne); cbn [obind].
  rewrite (st_size P WF _ _ _ Ns); cbn [obind].
  rewrite (st_next P WF _ _ _ Ns); cbn [obind].
  rewrite (ld_size P WF _ _ Ns); cbn [obind].
  rewrite (wrap_small P (e - st)) by lia.
  eexists; split; [reflexivity|].
  assert (Hhs : hdr <= e - st)
    by (destruct (hdr_cases P WF) as [[_ E] | [_ E]]; rewrite E; lia).
  split; [|cbn; repeat split; upd_tac].
  constructor; cbn [mem pxEnd xFreeBytesRemaining].
  - reflexivity.
  - repeat split; try lia; try apply Hst.
    + simpl. lia.
    + constructor; [|constructor]. split; simpl; auto.
  - simpl. lia.
  - simpl. auto.
  - simpl. repeat split; upd_tac.
  - simpl. exact I.
  - simpl. upd_tac.
  - upd_tac.
  - unfold NULL. upd_tac.
  - upd_tac.
  - simpl. upd_tac.
Qed.

End Init.

(* ================================================================== *)
(** ** vPortFree on a well-formed heap *)

Section Free.
Variable P : platform.
Hypothesis WF : wf_platform P.

Local Abbreviation xs := (xStart_addr P).
Local Abbreviation pb := (ptr_bytes P).
Local Abbreviation hdr := (xHeapStructSize P).
Local Abbreviation e := (uxEndAddress P).
Local Abbreviation st := (uxStartAddress P).

Lemma memset0_spec (m : memory) (pv len : Z) :
  0 <= len -> ucHeap P <= pv -> pv + len <= ucHeap P + configTOTAL_HEAP_SIZE ->
  exists m2, memset0 P m pv len = Some m2 /\
             (forall x, x < pv \/ pv + len <= x -> m2 x = m x) /\
             (forall x, pv <= x < pv + len -> m2 x = 0).
Proof.
  intros H0 H1 H2. unfold memset0.
  destruct (Z.eqb_spec len 0) as [-> | Hne].
  - exists m. repeat split; auto. intros; lia.
  - destruct (Z.leb_spec (ucHeap P) pv); [|lia].
    destruct (Z.leb_spec (pv + len) (ucHeap P + configTOTAL_HEAP_SIZE)); [|lia].
    simpl. eexists; split; [reflexivity|]. unfold clear_range. split; intros x Hx.
    + destruct (Z.leb_spec pv x), (Z.ltb_spec x (pv + len)); simpl; auto; lia.
    + destruct (Z.leb_spec pv x), (Z.ltb_spec x (pv + len)); simpl; auto; lia.
Qed.

(** The full effect of freeing an allocated block, the cleared payload
    included. *)
Lemma vPortFree_spec_clear (s : heap) (pre post : list block) (sz : Z) :
  heap_inv P s (pre ++ (sz, true) :: post) ->
  exists s',
    vPortFree P s (st + total pre + hdr) = Ok s' /\
    heap_inv P s' (coalesce pre sz post) /\
    xFreeBytesRemaining s' = xFreeBytesRemaining s + sz /\
    xMinimumEverFreeBytesRemaining s' = xMinimumEverFreeBytesRemaining s /\
    xNumberOfSuccessfulAllocations s' = xNumberOfSuccessfulAllocations s /\
    xNumberOfSuccessfulFrees s' = wrap P (xNumberOfSuccessfulFrees s + 1) /\
    (forall x, ~ (st + total pre <= x < st + total pre + sz) ->
               x <> last_free st pre xs -> x <> last_free st pre xs + pb ->
               mem s' x = mem s x) /\
    (forall x, mem s' x = mem s x \/ 0 <= mem s' x <= e) /\
    0 <= mem s' (st + total pre + pb) < heapBLOCK_ALLOCATED_BITMASK P /\
    (forall x, st + total pre + hdr <= x < st + total pre + sz -> mem s' x = 0).
Proof.
  intros Hinv. destruct Hinv as [I1 I2 I3 I4 I5 I6 I7 I8 I9 I10 I11].
  set (blk := st + total pre) in *.
  pose proof (hdr_pos P WF) as (Hh1 & Hh2 & Hh3).
  pose proof (end_small P WF) as [He1 He2].
  pose proof (start_facts P WF) as [Hst _]. pose proof (wf_heap_pos P WF) as Hhp.
  pose proof (end_facts P WF) as [Hef _].
  pose proof (bitmask_big P WF) as Hbm. pose proof (usable_bounds P WF) as Hub.
  unfold usable_size in Hub.
  assert (Hs' := I2). rewrite seg_ok_app in Hs' by assumption.
  destruct Hs' as [Hspre Hsrest].
  destruct (seg_ok_cons P WF _ _ _ Hsrest) as (Hblk & Hspost & [Hbk1 Hbk2]).
  simpl fst in Hspost, Hbk1, Hbk2. fold blk in Hblk, Hspost, Hsrest.
  destruct Hspre as (P1 & P2 & P3 & P4). destruct Hspost as (Q1 & Q2 & Q3 & Q4).
  pose proof (total_nonneg P WF pre P4) as Hpre0.
  pose proof (total_nonneg P WF post Q4) as Hpost0.
  assert (Etot : total (pre ++ (sz, true) :: post) = total pre + (sz + total post))
    by (rewrite total_app; reflexivity).
  rewrite Etot in I3.
  assert (Hu := I6). rewrite useg_app in Hu by assumption. fold blk in Hu.
  destruct Hu as [Hupre Hublk]. simpl in Hublk. destruct Hublk as (U1 & U2 & Hupost).
  assert (Hff := I5). rewrite fseg_app in Hff by assumption. fold blk in Hff.
  destruct Hff as [Hfpre Hfpost]. simpl in Hfpost.
  destruct (xs_apart P WF blk Hblk) as (X1 & X2 & X3 & X4).
  assert (Hnb : node P blk) by now left.
  assert (Hszr : 0 <= sz < heapBLOCK_ALLOCATED_BITMASK P) by lia.
  unfold vPortFree.
  destruct (Z.eqb_spec (blk + hdr) NULL) as [E0 | _]; [unfold NULL in E0; lia|].
  simpl negb. cbv iota.
  replace (blk + hdr - hdr) with blk by lia.
  rewrite (wrap_small P blk) by lia.
  rewrite (ld_size P WF _ _ Hnb), U1.
  rewrite (is_allocated_marked P WF sz Hszr). simpl negb. cbv iota.
  rewrite (ld_next P WF _ _ Hnb), U2. simpl negb. cbv iota.
  unfold free_block.
  rewrite (ld_size P WF _ _ Hnb), U1; cbn [obind].
  rewrite (is_allocated_marked P WF sz Hszr).
  rewrite (st_size P WF _ _ _ Hnb); cbn [obind].
  rewrite (free_marked P WF sz Hszr).
  rewrite (ld_size P WF _ _ Hnb); cbn [obind].
  set (m1 := upd (mem s) (blk + pb) sz).
  assert (E1 : m1 (blk + pb) = sz) by (unfold m1; upd_tac).
  rewrite E1. rewrite (wrap_small P (sz - hdr)) by lia.
  destruct (memset0_spec m1 (blk + hdr) (sz - hdr)) as (m2 & Em2 & Z1 & Z2); try lia.
  rewrite Em2; cbn [obind].
  rewrite (ld_size P WF _ _ Hnb); cbn [obind].
  assert (Hm2 : forall x, x < blk \/ blk + sz <= x -> m2 x = mem s x).
  { intros x Hx. rewrite Z1 by lia. unfold m1. upd_tac. }
  assert (E2 : m2 (blk + pb) = sz) by (rewrite Z1 by lia; exact E1).
  rewrite E2.
  (* the insertion *)
  assert (J1 : fseg P m2 st (pre ++ (sz, true) :: post) e).
  { rewrite fseg_app by assumption. fold blk. split.
    - apply (fseg_frame P WF (mem s)); auto. intros x Hx. apply Hm2. lia.
    - simpl. apply (fseg_frame P WF (mem s)); auto. intros x Hx. apply Hm2. lia. }
  assert (J2 : m2 xs = ff st (pre ++ (sz, true) :: post) e).
  { rewrite <- I7. apply Hm2. pose proof (wf_disjoint P WF). lia. }
  assert (J3 : m2 (xs + pb) = 0).
  { rewrite <- I8. apply Hm2. pose proof (wf_disjoint P WF). lia. }
  assert (I3' : st + total (pre ++ (sz, true) :: post) = e) by (rewrite Etot; exact I3).
  destruct (insert_spec P WF m2 pre post sz I2 I3' J1 J2 J3 E2)
    as (m3 & Em3 & K1 & K2 & K3 & K4 & K5 & K6 & K7).
  fold blk in Em3, K2, K5, K7. rewrite I1, Em3; cbn [obind].
  eexists; split; [reflexivity|].
  assert (Hend_it : forall d, d = xs \/ d = xs + pb \/ e <= d ->
                    d <> last_free st pre xs /\ d <> last_free st pre xs + pb \/
                    d = xs \/ d = xs + pb).
  { intros d Hd. destruct (last_free_range P WF pre st xs P4) as [-> | Hr].
    - pose proof (wf_disjoint P WF). lia.
    - fold blk in Hr. pose proof (wf_disjoint P WF). lia. }
  split; [|cbn [mem pxEnd xFreeBytesRemaining xMinimumEverFreeBytesRemaining
                 xNumberOfSuccessfulAllocations xNumberOfSuccessfulFrees]].
  - constructor; cbn [mem pxEnd xFreeBytesRemaining]; auto.
    + repeat split; auto.
      * rewrite coalesce_total. lia.
      * apply (coalesce_ok P WF). apply I2.
    + rewrite coalesce_total. lia.
    + now apply coalesce_no_adj.
    + apply K2.
      * apply (useg_frame P WF (mem s)); auto. intros x Hx. apply Hm2. fold blk in Hx. lia.
      * apply (useg_frame P WF (mem s)); auto. intros x Hx. apply Hm2. lia.
    + rewrite K5; try lia.
      * rewrite Hm2 by lia. exact I9.
      * destruct (last_free_range P WF pre st xs P4) as [-> | Hr];
          [|fold blk in Hr]; pose proof (wf_disjoint P WF); lia.
      * destruct (last_free_range P WF pre st xs P4) as [-> | Hr];
          [|fold blk in Hr]; pose proof (wf_disjoint P WF); lia.
    + rewrite K5; try lia.
      * rewrite Hm2 by lia. exact I10.
      * destruct (last_free_range P WF pre st xs P4) as [-> | Hr];
          [|fold blk in Hr]; pose proof (wf_disjoint P WF); lia.
      * destruct (last_free_range P WF pre st xs P4) as [-> | Hr];
          [|fold blk in Hr]; pose proof (wf_disjoint P WF); lia.
    + rewrite coalesce_free_total, I11, free_total_app. simpl.
      rewrite (wrap_small P).
      * lia.
      * pose proof (free_total_nonneg P WF pre P4).
        pose proof (free_total_nonneg P WF post Q4).
        pose proof (total_split pre). pose proof (total_split post).
        pose proof (used_total_nonneg P WF pre P4).
        pose proof (used_total_nonneg P WF post Q4).
        pose proof (modulus_big P WF). lia.
  - repeat split; auto.
    + rewrite I11, free_total_app. simpl.
      rewrite (wrap_small P); [lia|].
      pose proof (free_total_nonneg P WF pre P4).
      pose proof (free_total_nonneg P WF post Q4).
      pose proof (total_split pre). pose proof (total_split post).
      pose proof (used_total_nonneg P WF pre P4).
      pose proof (used_total_nonneg P WF post Q4).
      pose proof (modulus_big P WF). lia.
    + intros x G1 G2 G3. rewrite K5; try lia. apply Hm2. lia.
    + intros x. destruct (K6 x) as [E | E]; [|now right].
      rewrite E. destruct (Z_lt_ge_dec x blk) as [G | G].
      * left. apply Hm2. lia.
      * destruct (Z_lt_ge_dec x (blk + sz)) as [G' | G'].
        -- destruct (Z_lt_ge_dec x (blk + hdr)) as [G2 | G2].
           ++ rewrite Z1 by lia. unfold m1. small_tac.
           ++ right. rewrite Z2 by lia. lia.
        -- left. apply Hm2. lia.
    + pose proof (merge_fwd_total sz post).
      destruct (merge_fwd_ok P WF sz post Q4) as (F1 & F2 & _).
      pose proof (total_nonneg P WF _ F1). destruct K7 as [E | E]; rewrite E; lia.
    + pose proof (merge_fwd_total sz post).
      destruct (merge_fwd_ok P WF sz post Q4) as (F1 & F2 & _).
      pose proof (total_nonneg P WF _ F1). destruct K7 as [E | E]; rewrite E; lia.
    + intros x Hx. rewrite K5; try lia.
      * apply Z2. lia.
      * destruct (last_free_range P WF pre st xs P4) as [-> | Hr];
          [|fold blk in Hr]; pose proof (wf_disjoint P WF); lia.
      * destruct (last_free_range P WF pre st xs P4) as [-> | Hr];
          [|fold blk in Hr]; pose proof (wf_disjoint P WF); lia.
Qed.

Lemma vPortFree_spec (s : heap) (pre post : list block) (sz : Z) :
  heap_inv P s (pre ++ (sz, true) :: post) ->
  exists s',
    vPortFree P s (st + total pre + hdr) = Ok s' /\
    heap_inv P s' (coalesce pre sz post) /\
    xFreeBytesRemaining s' = xFreeBytesRemaining s + sz /\
    xMinimumEverFreeBytesRemaining s' = xMinimumEverFreeBytesRemaining s /\
    xNumberOfSuccessfulAllocations s' = xNumberOfSuccessfulAllocations s /\
    xNumberOfSuccessfulFrees s' = wrap P (xNumberOfSuccessfulFrees s + 1) /\
    (forall x, ~ (st + total pre <= x < st + total pre + sz) ->
               x <> last_free st pre xs -> x <> last_free st pre xs + pb ->
               mem s' x = mem s x) /\
    (forall x, mem s' x = mem s x \/ 0 <= mem s' x <= e) /\
    0 <= mem s' (st + total pre + pb) < heapBLOCK_ALLOCATED_BITMASK P.
Proof.
  intros Hinv.
  destruct (vPortFree_spec_clear s pre post sz Hinv)
    as (s' & H1 & H2 & H3 & H4 & H5 & H6 & H7 & H8 & H9 & _).
  exists s'. split; [exact H1|]. split; [exact H2|]. split; [exact H3|].
  split; [exact H4|]. split; [exact H5|]. split; [exact H6|].
  split; [exact H7|]. split; [exact H8|]. exact H9.
Qed.

End Free.

(* ================================================================== *)
(** ** pvPortMalloc on a well-formed heap *)

Section Malloc.
Variable P : platform.
Hypothesis WF : wf_platform P.

Local Abbreviation xs := (xStart_addr P).
Local Abbreviation pb := (ptr_bytes P).
Local Abbreviation hdr := (xHeapStructSize P).
Local Abbreviation e := (uxEndAddress P).
Local Abbreviation st := (uxStartAddress P).
Local Abbreviation mn := (heapMINIMUM_BLOCK_SIZE P).

Lemma last_free_node (bl : list block) (a d : Z) :
  seg_ok P a bl -> node P d -> node P (last_free a bl d).
Proof.
  revert a d; induction bl as [|[sz [|]] r IH]; intros a d Hs Hd; simpl; auto;
    destruct (seg_ok_cons P WF _ _ _ Hs) as (Ha & Hr & _); simpl in Hr.
  - now apply IH.
  - apply IH; auto. now left.
Qed.

(** Allocated headers do not notice a write to the last free node in
    front of a position. *)
Lemma useg_frame_last (m m' : memory) (bl : list block) (a d : Z) :
  seg_ok P a bl ->
  ~ (a <= d < a + total bl) -> ~ (a <= d + pb < a + total bl) ->
  (forall x, a <= x < a + total bl ->
             x <> last_free a bl d -> x <> last_free a bl d + pb -> m' x = m x) ->
  useg P m a bl -> useg P m' a bl.
Proof.
  pose proof (hdr_pos P WF) as (Hh1 & Hh2 & Hh3).
  intros (S1 & S2 & S3 & S4) Hd1 Hd2 Hm Hu.
  destruct (prefix_cases bl a d) as [[Hall E] | (p1 & fsz & p2 & E1 & Hall & E2)].
  - rewrite E in Hm. apply (useg_frame P WF m); auto.
    intros x Hx. apply Hm; lia.
  - rewrite E2 in Hm. subst bl.
    apply Forall_app in S4. destruct S4 as [S41 S42].
    apply Forall_cons_iff in S42. destruct S42 as [[Hf1 Hf2] S43]. simpl in Hf1, Hf2.
    pose proof (total_nonneg P WF p1 S41). pose proof (total_nonneg P WF p2 S43).
    rewrite total_app in *. simpl total in *.
    rewrite useg_app in *. simpl in *. destruct Hu as [Hu1 Hu2]. split.
    + apply (useg_frame P WF m); auto. intros x Hx. apply Hm; lia.
    + apply (useg_frame P WF m); auto. intros x Hx. apply Hm; lia.
Qed.

Lemma coalesce_after_used (pre post : list block) (w sz : Z) :
  head_used post ->
  coalesce (pre ++ [(w, true)]) sz post = pre ++ (w, true) :: (sz, false) :: post.
Proof.
  intros Hh. unfold coalesce.
  rewrite (merge_back_used_tail pre [(w, true)] sz) by (repeat constructor || discriminate).
  cbn [fst snd].
  destruct (merge_fwd_cases sz post) as [[-> _] | (n & r & -> & _)]; [|contradiction].
  cbn [fst snd]. now rewrite <- app_assoc.
Qed.

Lemma carve_total (w sz : Z) : total (carve mn w sz) = sz.
Proof. unfold carve. destruct (mn <? sz - w); simpl; lia. Qed.

Lemma malloc_body_spec (s : heap) (bl : list block) (w : Z) :
  heap_inv P s bl -> hdr <= w -> w mod 8 = 0 -> w < modulus P ->
  match alloc_abs mn w st bl with
  | None => malloc_body P s w = Some (s, NULL)
  | Some (blk, bl') =>
      exists s',
        malloc_body P s w = Some (s', blk + hdr) /\
        heap_inv P s' bl' /\
        xMinimumEverFreeBytesRemaining s' =
          (if xFreeBytesRemaining s' <? xMinimumEverFreeBytesRemaining s
           then xFreeBytesRemaining s' else xMinimumEverFreeBytesRemaining s) /\
        xNumberOfSuccessfulAllocations s' =
          wrap P (xNumberOfSuccessfulAllocations s + 1) /\
        xNumberOfSuccessfulFrees s' = xNumberOfSuccessfulFrees s /\
        (forall x, mem s' x = mem s x \/ 0 <= mem s' x <= e \/ x = blk + pb)
  end.
Proof.
  intros Hinv Hw1 Hw2 Hw3.
  destruct Hinv as [I1 I2 I3 I4 I5 I6 I7 I8 I9 I10 I11].
  pose proof (hdr_pos P WF) as (Hh1 & Hh2 & Hh3).
  pose proof (end_small P WF) as [He1 He2].
  pose proof (start_facts P WF) as [Hst _]. pose proof (wf_heap_pos P WF) as Hhp.
  pose proof (end_facts P WF) as [Hef _].
  pose proof (bitmask_big P WF) as Hbm. pose proof (usable_bounds P WF) as Hub.
  pose proof (wf_disjoint P WF) as Hdis. pose proof (modulus_big P WF) as Hmb.
  pose proof (heapMINIMUM_BLOCK_SIZE_val P WF) as Hmn.
  unfold usable_size in Hub.
  assert (Nx : node P xs) by now right.
  assert (Hfuel : (length bl < heap_fuel)%nat) by (apply (fuel_enough P WF st); auto).
  assert (Hfit : find_fit P heap_fuel (mem s) w xs (ff st bl e) =
                 Some (fit_abs w st xs bl)).
  { apply (find_fit_spec P WF); auto. lia. }
  unfold malloc_body.
  destruct (fit_cases mn w bl st xs)
    as [[E1 E2] | (pre & sz & post & Ebl & Hwsz & Efit & Eabs)].
  - (* no block fits *)
    rewrite E1.
    destruct ((0 <? w) && (w <=? xFreeBytesRemaining s)); [|reflexivity].
    rewrite (ld_next P WF _ _ Nx); cbn [obind]. rewrite I7, Hfit; cbn [obind].
    destruct (fit_abs w st xs bl) as [pv bk]. simpl in E2. subst bk.
    rewrite I1, I3, Z.eqb_refl. reflexivity.
  - (* the block [sz] between [pre] and [post] is chosen *)
    rewrite Eabs. subst bl.
    set (blk := st + total pre) in *.
    set (prev := last_free st pre xs) in *.
    assert (Hs' := I2). rewrite seg_ok_app in Hs' by assumption.
    destruct Hs' as [Hspre Hsrest].
    destruct (seg_ok_cons P WF _ _ _ Hsrest) as (Hblk & Hspost & [Hbk1 Hbk2]).
    simpl fst in Hspost, Hbk1, Hbk2. fold blk in Hblk, Hspost, Hsrest.
    assert (Hspre' := Hspre). assert (Hspost' := Hspost).
    destruct Hspre as (P1 & P2 & P3 & P4). destruct Hspost as (Q1 & Q2 & Q3 & Q4).
    pose proof (total_nonneg P WF pre P4) as Hpre0.
    pose proof (total_nonneg P WF post Q4) as Hpost0.
    pose proof (free_total_nonneg P WF pre P4) as Hfpre0.
    pose proof (free_total_nonneg P WF post Q4) as Hfpost0.
    pose proof (used_total_nonneg P WF pre P4) as Hupre0.
    pose proof (used_total_nonneg P WF post Q4) as Hupost0.
    pose proof (total_split pre) as Hsp1. pose proof (total_split post) as Hsp2.
    assert (Etot : total (pre ++ (sz, false) :: post) = total pre + (sz + total post))
      by (rewrite total_app; reflexivity).
    assert (Eft : free_total (pre ++ (sz, false) :: post) =
                  free_total pre + (sz + free_total post))
      by (rewrite free_total_app; reflexivity).
    rewrite Etot in I3. rewrite Eft in I11.
    assert (Hu := I6). rewrite useg_app in Hu by assumption. fold blk in Hu.
    destruct Hu as [Hupre Hupost]. simpl in Hupost.
    assert (Hff := I5). rewrite fseg_app in Hff by assumption. fold blk in Hff.
    destruct Hff as [Hfpre Hfblk]. simpl in Hfpre, Hfblk.
    destruct Hfblk as (B1 & B2 & Hfpost).
    rewrite ff_app in I7 by assumption. simpl ff in I7. fold blk in I7.
    set (nfp := ff (blk + sz) post e) in *.
    assert (Hnfp : blk + sz <= nfp <= e).
    { unfold nfp. destruct (ff_range P WF post (blk + sz) e Q4) as [-> | ?]; lia. }
    assert (Hblk_r : st <= blk /\ blk + sz + total post = e) by (unfold blk; lia).
    assert (Hnb : node P blk) by now left.
    assert (Hnp : node P prev) by (apply last_free_node; auto).
    assert (Hprev : prev = xs \/ (st <= prev /\ prev < blk)).
    { unfold prev. destruct (last_free_range P WF pre st xs P4) as [-> | ?]; auto. }
    assert (Hplink : mem s prev = blk)
      by (apply (last_free_link P (mem s) pre st xs blk); auto).
    apply no_adj_free in I4. destruct I4 as (N1 & N2 & N3).
    apply no_adj_snoc in N1.
    (* the guard and the walk *)
    rewrite I11.
    destruct (Z.ltb_spec 0 w); [|lia].
    destruct (Z.leb_spec w (free_total pre + (sz + free_total post))); [|lia].
    simpl andb. cbv iota.
    rewrite (ld_next P WF _ _ Nx); cbn [obind].
    replace (mem s xs) with (ff st (pre ++ (sz, false) :: post) e)
      by (rewrite ff_app; simpl; symmetry; exact I7).
    rewrite Hfit, Efit; cbn [obind]. fold blk prev.
    rewrite I1. destruct (Z.eqb_spec blk e); [lia|]. simpl negb. cbv iota.
    rewrite (ld_next P WF _ _ Hnp); cbn [obind]. rewrite Hplink.
    rewrite (wrap_small P (blk + hdr)) by lia.
    rewrite (ld_next P WF _ _ Hnb); cbn [obind]. rewrite B2.
    rewrite (st_next P WF _ _ _ Hnp); cbn [obind].
    set (m1 := upd (mem s) prev nfp).
    assert (Hnot : ~ (st <= xs < st + total pre)) by (fold blk; lia).
    destruct (fseg_retarget P WF (mem s) pre st xs blk nfp P4 Hnot Hfpre I7) as [R1 R2].
    fold prev in R1, R2. fold m1 in R1, R2.
    rewrite (ld_size P WF _ _ Hnb); cbn [obind].
    assert (Em1 : m1 (blk + pb) = sz) by (unfold m1; upd_tac).
    rewrite Em1. rewrite (wrap_small P (sz - w)) by lia.
    rewrite Hmn. unfold carve.
    destruct (Z.ltb_spec (2 * hdr) (sz - w)) as [Hsplit | Hwhole].
    + (* split *)
      set (new := blk + w).
      rewrite (wrap_small P new) by (unfold new; lia).
      assert (Hnew : hdr_addr P new).
      { split; [unfold new; lia|]. unfold new.
        destruct Hblk as [_ Hb8]. rewrite Z.add_mod, Hb8, Hw2 by lia. reflexivity. }
      assert (Hnn : node P new) by now left.
      rewrite (st_size P WF _ _ _ Hnn); cbn [obind].
      rewrite (st_size P WF _ _ _ Hnb); cbn [obind].
      set (mb := upd (upd m1 (new + pb) (sz - w)) (blk + pb) w).
      assert (Hmbx : forall x, x <> new + pb -> x <> blk + pb -> mb x = m1 x).
      { intros x G1 G2. unfold mb. upd_tac. }
      assert (Hm1 : forall x, x <> prev -> m1 x = mem s x).
      { intros x G. unfold m1. upd_tac. }
      assert (Hrem8 : (sz - w) mod 8 = 0) by (rewrite Zminus_mod, Hbk2, Hw2; reflexivity).
      (* the remainder goes back on the free list *)
      assert (Ebl : pre ++ (w, true) :: (sz - w, true) :: post =
                    (pre ++ [(w, true)]) ++ (sz - w, true) :: post)
        by (rewrite <- app_assoc; reflexivity).
      assert (Enew : new = st + total (pre ++ [(w, true)]))
        by (rewrite total_app; simpl; unfold new, blk; lia).
      assert (Eit : prev = last_free st (pre ++ [(w, true)]) xs)
        by (rewrite last_free_app; reflexivity).
      assert (H1 : seg_ok P st (pre ++ (w, true) :: (sz - w, true) :: post)).
      { rewrite seg_ok_app by assumption. split; auto. fold blk.
        repeat split; auto; try apply Hblk.
        - simpl. lia.
        - constructor; [split; auto|]. constructor; [split; simpl; auto; lia|]. auto. }
      assert (H2 : st + total (pre ++ (w, true) :: (sz - w, true) :: post) = e)
        by (rewrite total_app; simpl; lia).
      assert (H3 : fseg P mb st (pre ++ (w, true) :: (sz - w, true) :: post) e).
      { rewrite fseg_app by assumption. fold blk. simpl.
        replace (blk + w + (sz - w)) with (blk + sz) by lia. fold nfp. split.
        - apply (fseg_frame P WF m1); auto. intros x Hx. apply Hmbx; unfold new; lia.
        - apply (fseg_frame P WF (mem s)); auto. intros x Hx.
          rewrite Hmbx by (unfold new; lia). apply Hm1. lia. }
      assert (H4 : mb xs = ff st (pre ++ (w, true) :: (sz - w, true) :: post) e).
      { rewrite ff_app. fold blk. simpl.
        replace (blk + w + (sz - w)) with (blk + sz) by lia. fold nfp.
        rewrite Hmbx by lia. exact R2. }
      assert (H5 : mb (xs + pb) = 0).
      { rewrite Hmbx by lia. rewrite Hm1 by lia. exact I8. }
      assert (H6 : mb (new + pb) = sz - w) by (unfold mb; upd_tac).
      destruct (insert_spec_at P WF mb _ _ _ _ _ _ Ebl Enew Eit H1 H2 H3 H4 H5 H6)
        as (mi & Emi & K1 & K2 & K3 & K4 & K5 & K6 & K7).
      rewrite (coalesce_after_used pre post w (sz - w) N2) in K1, K3.
      rewrite Emi; cbn [obind].
      assert (Emi_b : mi (blk + pb) = w).
      { rewrite K5 by (unfold new; lia). unfold mb. upd_tac. }
      rewrite (ld_size P WF _ _ Hnb); cbn [obind]. rewrite Emi_b.
      rewrite (st_size P WF _ _ _ Hnb); cbn [obind].
      rewrite (st_next P WF _ _ _ Hnb); cbn [obind].
      rewrite (allocate_small P WF w) by lia.
      rewrite (wrap_small P (_ - w)) by lia.
      eexists; split; [reflexivity|].
      cbn [mem pxEnd xFreeBytesRemaining xMinimumEverFreeBytesRemaining
           xNumberOfSuccessfulAllocations xNumberOfSuccessfulFrees].
      set (m4 := upd (upd mi (blk + pb) (w + heapBLOCK_ALLOCATED_BITMASK P)) blk NULL).
      assert (Hm4i : forall x, x <> blk -> x <> blk + pb -> m4 x = mi x).
      { intros x G1 G2. unfold m4. upd_tac. }
      assert (Hm4 : forall x, x <> blk -> x <> blk + pb -> x <> new -> x <> new + pb ->
                              x <> prev -> x <> prev + pb -> m4 x = mem s x).
      { intros x G1 G2 G3 G4 G5 G6. rewrite Hm4i, K5, Hmbx, Hm1; auto. }
      assert (Hfi := K1). rewrite fseg_app in Hfi by assumption. fold blk in Hfi.
      simpl in Hfi. destruct Hfi as (Fi1 & Fi2 & Fi3 & Fi4).
      fold new in Fi1, Fi2, Fi3, Fi4.
      replace (new + (sz - w)) with (blk + sz) in Fi3, Fi4 by (unfold new; lia).
      split; [|repeat split; auto].
      * constructor; cbn [mem pxEnd xFreeBytesRemaining]; auto.
        -- rewrite seg_ok_app by assumption. split; auto. fold blk.
           repeat split; auto; try apply Hblk.
           ++ simpl. lia.
           ++ constructor; [split; auto|]. constructor; [split; simpl; auto; lia|]. auto.
        -- rewrite total_app. simpl. lia.
        -- apply no_adj_used. split; auto. simpl. auto.
        -- rewrite fseg_app by assumption. fold blk. simpl. fold new.
           replace (new + (sz - w)) with (blk + sz) by (unfold new; lia).
           repeat split.
           ++ apply (fseg_frame P WF mi); auto. intros x Hx. apply Hm4i; lia.
           ++ rewrite Hm4i by (unfold new; lia). exact Fi2.
           ++ rewrite Hm4i by (unfold new; lia). exact Fi3.
           ++ apply (fseg_frame P WF mi); auto. intros x Hx. apply Hm4i; lia.
        -- rewrite useg_app by assumption. fold blk. simpl. fold new.
           replace (new + (sz - w)) with (blk + sz) by (unfold new; lia).
           repeat split.
           ++ apply (useg_frame_last (mem s) m4 pre st xs); auto; try lia.
              fold prev. intros x Hx G1 G2. apply Hm4; unfold new; lia.
           ++ unfold m4. upd_tac.
           ++ unfold m4. upd_tac.
           ++ apply (useg_frame P WF (mem s)); auto. intros x Hx.
              apply Hm4; unfold new; lia.
        -- rewrite Hm4i by lia. exact K3.
        -- rewrite Hm4i by lia. exact K4.
        -- rewrite Hm4 by (unfold new; lia). exact I9.
        -- rewrite Hm4 by (unfold new; lia). exact I10.
        -- rewrite free_total_app. simpl. lia.
      * intros x.
        destruct (Z.eq_dec x (blk + pb)); [right; right; assumption|].
        destruct (Z.eq_dec x blk) as [-> | Hxb].
        { right; left. unfold m4, NULL. upd_tac. }
        rewrite Hm4i by assumption.
        destruct (K6 x) as [E | E]; [|tauto]. rewrite E.
        assert (G : mb x = mem s x \/ 0 <= mb x <= e)
          by (unfold mb, m1; small_tac).
        tauto.
    + (* hand out the whole block *)
      cbn [obind].
      rewrite (ld_size P WF _ _ Hnb); cbn [obind]. rewrite Em1.
      rewrite (st_size P WF _ _ _ Hnb); cbn [obind].
      rewrite (st_next P WF _ _ _ Hnb); cbn [obind].
      rewrite (allocate_small P WF sz) by lia.
      rewrite (wrap_small P (_ - sz)) by lia.
      eexists; split; [reflexivity|].
      cbn [mem pxEnd xFreeBytesRemaining xMinimumEverFreeBytesRemaining
           xNumberOfSuccessfulAllocations xNumberOfSuccessfulFrees].
      set (m4 := upd (upd m1 (blk + pb) (sz + heapBLOCK_ALLOCATED_BITMASK P)) blk NULL).
      assert (Hm4 : forall x, x <> blk -> x <> blk + pb -> x <> prev -> m4 x = mem s x).
      { intros x G1 G2 G3. unfold m4, m1. upd_tac. }
      assert (Hm41 : forall x, x <> blk -> x <> blk + pb -> m4 x = m1 x).
      { intros x G1 G2. unfold m4. upd_tac. }
      split; [|repeat split; auto].
      * constructor; cbn [mem pxEnd xFreeBytesRemaining]; auto.
        -- rewrite seg_ok_app by assumption. split; auto.
           fold blk. repeat split; auto; try apply Hblk.
           ++ simpl. lia.
           ++ constructor; auto. split; auto.
        -- rewrite total_app. simpl. lia.
        -- apply no_adj_used. split; auto.
        -- rewrite fseg_app by assumption. fold blk. simpl. split.
           ++ apply (fseg_frame P WF m1); auto. intros x Hx. apply Hm41; lia.
           ++ apply (fseg_frame P WF (mem s)); auto. intros x Hx. apply Hm4; lia.
        -- rewrite useg_app by assumption. fold blk. simpl. repeat split.
           ++ apply (useg_frame_last (mem s) m4 pre st xs); auto; try lia.
              fold prev. intros x Hx G1 G2. apply Hm4; lia.
           ++ unfold m4. upd_tac.
           ++ unfold m4. upd_tac.
           ++ apply (useg_frame P WF (mem s)); auto. intros x Hx. apply Hm4; lia.
        -- rewrite ff_app by assumption. simpl. fold blk. fold nfp.
           rewrite Hm41 by lia. exact R2.
        -- rewrite Hm41 by lia. unfold m1. upd_tac.
        -- rewrite Hm41 by lia. unfold m1. upd_tac.
        -- rewrite Hm41 by lia. unfold m1. upd_tac.
        -- rewrite free_total_app. simpl. lia.
      * intros x. unfold m4, m1. unfold NULL.
        destruct (Z.eq_dec x (blk + pb)); [right; right; assumption|].
        assert (G : upd (upd (upd (mem s) prev nfp) (blk + pb)
                     (sz + heapBLOCK_ALLOCATED_BITMASK P)) blk 0 x = mem s x \/
                    0 <= upd (upd (upd (mem s) prev nfp) (blk + pb)
                     (sz + heapBLOCK_ALLOCATED_BITMASK P)) blk 0 x <= e)
          by small_tac.
        tauto.
Qed.

End Malloc.

(* ================================================================== *)
(** ** Call sequences *)

(** The client's view of a run: which payload pointers it currently
    holds. *)
Fixpoint remove_one (p : Z) (l : list Z) : list Z :=
  match l with
  | [] => []
  | q :: r => if q =? p then r else q :: remove_one p r
  end.

Fixpoint sum_list (l : list Z) : Z :=
  match l with
  | [] => 0
  | x :: r => x + sum_list r
  end.

Section Runs.
Variable P : platform.

(** Size recorded in the header in front of payload [pv], flag masked. *)
Definition block_size_of (s : heap) (pv : Z) : Z :=
  heapFREE_BLOCK P (mem s (pv - xHeapStructSize P + ptr_bytes P)).

(** Bytes held by the client, headers included. *)
Definition allocated_bytes (s : heap) (live : list Z) : Z :=
  sum_list (map (block_size_of s) live).

(** Requests whose computed block size did not wrap below one header. *)
Definition fits_header (n : Z) : Prop :=
  wanted_size P n = 0 \/ xHeapStructSize P <= wanted_size P n.

(** States reachable from program start by calls of the public
    interface, with the pointers the client holds.  [vPortFree] is only
    ever given NULL or a pointer the client holds; [ok] restricts the
    sizes that are requested.  The steps are calls only: what the
    client stores in its blocks between two calls is not part of this
    relation, see [run] further down for runs with stores. *)
Inductive reachable (ok : Z -> Prop) : heap -> list Z -> Prop :=
| reach_start : reachable ok heap0 []
| reach_malloc (s : heap) (live : list Z) (n : Z) (s' : heap) (r : Z) :
    reachable ok s live ->
    0 <= n < modulus P -> ok n ->
    pvPortMalloc P s n = Some (s', r) ->
    reachable ok s' (if r =? NULL then live else r :: live)
| reach_free (s : heap) (live : list Z) (pv : Z) (s' : heap) :
    reachable ok s live ->
    pv = NULL \/ In pv live ->
    vPortFree P s pv = Ok s' ->
    reachable ok s' (remove_one pv live).

Definition any_size (n : Z) : Prop := True.

Hypothesis WF : wf_platform P.

Local Abbreviation xs := (xStart_addr P).
Local Abbreviation pb := (ptr_bytes P).
Local Abbreviation hdr := (xHeapStructSize P).
Local Abbreviation e := (uxEndAddress P).
Local Abbreviation st := (uxStartAddress P).
Local Abbreviation mn := (heapMINIMUM_BLOCK_SIZE P).

Lemma wanted_size_range (n : Z) :
  0 <= n < modulus P -> 0 <= wanted_size P n < modulus P.
Proof.
  intros Hn. unfold wanted_size.
  destruct (0 <? n); [|lia].
  destruct (negb _); apply (wrap_range P WF).
Qed.

Lemma wanted_size_mod8 (n : Z) : 0 <= n -> wanted_size P n mod 8 = 0.
Proof.
  intros Hn. unfold wanted_size.
  destruct (Z.ltb_spec 0 n); [|now replace n with 0 by lia].
  rewrite land_mask_mod.
  set (w1 := wrap P (n + hdr)).
  destruct (Z.eqb_spec (w1 mod 8) 0) as [E | E]; cbn [negb]; [assumption|].
  rewrite (wrap_mod8 P WF). unfold portBYTE_ALIGNMENT.
  pose proof (Z.div_mod w1 8).
  replace (w1 + (8 - w1 mod 8)) with ((w1 / 8 + 1) * 8) by lia.
  apply Z.mod_mul. lia.
Qed.

(** Without wrap-around the block size covers the request and its
    header. *)
Lemma wanted_size_exact (n : Z) :
  0 < n -> n + hdr + 7 < modulus P ->
  n + hdr <= wanted_size P n <= n + hdr + 7.
Proof.
  intros Hn Hfit. pose proof (hdr_pos P WF) as (Hh & _ & _).
  unfold wanted_size.
  destruct (Z.ltb_spec 0 n); [|lia].
  rewrite land_mask_mod. rewrite (wrap_small P (n + hdr)) by lia.
  pose proof (Z.mod_pos_bound (n + hdr) 8).
  destruct (Z.eqb_spec ((n + hdr) mod 8) 0) as [E | E]; cbn [negb]; [lia|].
  unfold portBYTE_ALIGNMENT. rewrite (wrap_small P) by lia. lia.
Qed.

Lemma remove_one_perm (p : Z) (l : list Z) :
  In p l -> Permutation l (p :: remove_one p l).
Proof.
  induction l as [|q r IH]; simpl; [tauto|].
  intros [-> | Hin].
  - now rewrite Z.eqb_refl.
  - destruct (Z.eqb_spec q p) as [-> | Hne]; [reflexivity|].
    rewrite perm_swap. constructor. now apply IH.
Qed.

Lemma remove_one_absent (p : Z) (l : list Z) : ~ In p l -> remove_one p l = l.
Proof.
  induction l as [|q r IH]; simpl; [reflexivity|].
  intros Hn. destruct (Z.eqb_spec q p) as [-> | Hne]; [tauto|].
  f_equal. apply IH. tauto.
Qed.

Lemma sum_list_perm (l l' : list Z) : Permutation l l' -> sum_list l = sum_list l'.
Proof. induction 1; simpl; lia. Qed.

Lemma used_ptrs_split (h a pv : Z) (bl : list block) :
  In pv (used_ptrs h a bl) ->
  exists pre sz post, bl = pre ++ (sz, true) :: post /\ pv = a + total pre + h.
Proof.
  revert a; induction bl as [|[sz [|]] r IH]; intros a; simpl.
  - tauto.
  - intros [<- | Hin].
    + exists [], sz, r. simpl. split; [reflexivity | lia].
    + destruct (IH _ Hin) as (pre & s & post & -> & ->).
      exists ((sz, true) :: pre), s, post. simpl. split; [reflexivity | lia].
  - intros Hin. destruct (IH _ Hin) as (pre & s & post & -> & ->).
    exists ((sz, false) :: pre), s, post. simpl. split; [reflexivity | lia].
Qed.

Lemma used_ptrs_pos (a : Z) (bl : list block) :
  seg_ok P a bl -> Forall (fun p => a + hdr <= p /\ p <= a + total bl) (used_ptrs hdr a bl).
Proof.
  pose proof (hdr_pos P WF) as (Hh & _ & _).
  revert a; induction bl as [|[sz [|]] r IH]; intros a Hs; simpl; [constructor| |];
    destruct (seg_ok_cons P WF _ _ _ Hs) as (Ha & Hr & [Hb _]); simpl in Hr, Hb;
    pose proof (total_nonneg P WF r (proj2 (proj2 (proj2 Hr)))).
  - constructor; [lia|]. eapply Forall_impl; [|apply (IH _ Hr)]. simpl. intros; lia.
  - eapply Forall_impl; [|apply (IH _ Hr)]. simpl. intros; lia.
Qed.

Lemma alloc_abs_used_ptrs (w h : Z) (bl bl' : list block) (a blk : Z) :
  alloc_abs mn w a bl = Some (blk, bl') ->
  Permutation (used_ptrs h a bl') ((blk + h) :: used_ptrs h a bl).
Proof.
  revert a bl'; induction bl as [|[sz [|]] r IH]; intros a bl'; simpl.
  - discriminate.
  - destruct (alloc_abs mn w (a + sz) r) as [[p r']|] eqn:E; [|discriminate].
    intros [= <- <-]. simpl. rewrite (IH _ _ E). apply perm_swap.
  - destruct (sz <? w).
    + destruct (alloc_abs mn w (a + sz) r) as [[p r']|] eqn:E; [|discriminate].
      intros [= <- <-]. simpl. apply (IH _ _ E).
    + intros [= <- <-]. unfold carve. destruct (mn <? sz - w); simpl.
      * replace (a + w + (sz - w)) with (a + sz) by lia. reflexivity.
      * reflexivity.
Qed.

(** The sizes read from the headers of the live pointers add up to the
    allocated part of the block sequence. *)
Lemma allocated_bytes_used (s : heap) (bl : list block) (a : Z) :
  seg_ok P a bl -> useg P (mem s) a bl ->
  allocated_bytes s (used_ptrs hdr a bl) = used_total bl.
Proof.
  pose proof (bitmask_big P WF) as Hbm. pose proof (usable_bounds P WF) as Hub.
  pose proof (hdr_pos P WF) as (Hh & _ & _).
  unfold usable_size in Hub. unfold allocated_bytes.
  revert a; induction bl as [|[sz [|]] r IH]; intros a Hs Hu; simpl; [reflexivity| |];
    destruct (seg_ok_cons P WF _ _ _ Hs) as ([Ha _] & Hr & [Hb _]); simpl in Hr, Hb, Hu.
  - destruct Hu as (U1 & U2 & U3). rewrite (IH _ Hr U3).
    unfold block_size_of at 1. replace (a + hdr - hdr + pb) with (a + pb) by lia.
    rewrite U1. rewrite (free_marked P WF); [reflexivity|].
    destruct Hr as (R1 & _ & R3 & R4). pose proof (total_nonneg P WF r R4). lia.
  - now apply IH.
Qed.

(** What every state reached by requests that fit a header looks like:
    either no call has initialised the arena yet, or the state is a
    well-formed heap over some block sequence whose allocated blocks are
    exactly the pointers the client holds. *)
Definition heap_ok (s : heap) (live : list Z) : Prop :=
  (s = heap0 /\ live = []) \/
  (exists bl, heap_inv P s bl /\ Permutation live (used_ptrs hdr st bl)).

Lemma pvPortMalloc_ok (s : heap) (live : list Z) (n : Z) (s' : heap) (r : Z) :
  heap_ok s live -> 0 <= n < modulus P -> fits_header n ->
  pvPortMalloc P s n = Some (s', r) ->
  heap_ok s' (if r =? NULL then live else r :: live).
Proof.
  intros Hok Hn Hfit Hm. right.
  pose proof (hdr_pos P WF) as (Hh & _ & _).
  pose proof (start_facts P WF) as [Hst _]. pose proof (wf_heap_pos P WF) as Hhp.
  unfold pvPortMalloc in Hm.
  assert (Hs1 : exists s1 bl, (if pxEnd s =? NULL then prvHeapInit P s else Some s) = Some s1 /\
                              heap_inv P s1 bl /\ Permutation live (used_ptrs hdr st bl)).
  { destruct Hok as [[-> ->] | (bl & Hinv & Hperm)].
    - simpl. destruct (prvHeapInit_spec P WF heap0) as (s1 & E & Hinv & _).
      exists s1, [(usable_size P, false)]. rewrite E.
      split; [reflexivity|]. split; [assumption|]. simpl. constructor.
    - exists s, bl. rewrite (inv_end _ _ _ Hinv).
      pose proof (end_small P WF) as [He _].
      destruct (Z.eqb_spec e NULL); [unfold NULL in *; lia|]. auto. }
  destruct Hs1 as (s1 & bl & E1 & Hinv & Hperm). rewrite E1 in Hm. cbn [obind] in Hm.
  pose proof (wanted_size_range n Hn) as Hwr.
  pose proof (wanted_size_mod8 n (proj1 Hn)) as Hw8.
  destruct Hfit as [Hz | Hbig].
  - rewrite Hz in Hm. unfold malloc_body in Hm. simpl in Hm.
    injection Hm as <- <-. simpl. exists bl. auto.
  - pose proof (malloc_body_spec P WF s1 bl _ Hinv Hbig Hw8 (proj2 Hwr)) as Hspec.
    destruct (alloc_abs mn (wanted_size P n) st bl) as [[blk bl']|] eqn:Ea.
    + destruct Hspec as (s2 & E2 & Hinv2 & _).
      rewrite E2 in Hm. injection Hm as <- <-.
      pose proof (alloc_abs_used_ptrs _ hdr _ _ _ _ Ea) as Hp.
      assert (Hblk : st <= blk).
      { destruct (fit_cases mn (wanted_size P n) bl st xs)
          as [[E _] | (pre & sz & post & Ebl & _ & _ & Eabs)]; [congruence|].
        rewrite Eabs in Ea. injection Ea as <- _.
        destruct (inv_seg _ _ _ Hinv) as (_ & _ & _ & Hf). subst bl.
        apply Forall_app in Hf. destruct Hf as [Hf _].
        pose proof (total_nonneg P WF pre Hf). lia. }
      destruct (Z.eqb_spec (blk + hdr) NULL); [unfold NULL in *; lia|].
      exists bl'. split; auto. rewrite Hp. now constructor.
    + rewrite Hspec in Hm. injection Hm as <- <-. simpl. exists bl. auto.
Qed.

Lemma vPortFree_ok (s : heap) (live : list Z) (pv : Z) (s' : heap) :
  heap_ok s live -> pv = NULL \/ In pv live ->
  vPortFree P s pv = Ok s' ->
  heap_ok s' (remove_one pv live).
Proof.
  intros Hok Hpv Hf.
  pose proof (hdr_pos P WF) as (Hh & _ & _).
  pose proof (start_facts P WF) as [Hst _]. pose proof (wf_heap_pos P WF) as Hhp.
  destruct Hok as [[-> ->] | (bl & Hinv & Hperm)].
  - destruct Hpv as [-> | []]. simpl in Hf. injection Hf as <-. now left.
  - assert (Hpos : Forall (fun p => st + hdr <= p /\ p <= st + total bl) (used_ptrs hdr st bl))
      by (apply used_ptrs_pos, (inv_seg _ _ _ Hinv)).
    destruct (in_dec Z.eq_dec pv live) as [Hin | Hnin].
    + right.
      assert (Hin' : In pv (used_ptrs hdr st bl)) by (eapply Permutation_in; eauto).
      destruct (used_ptrs_split _ _ _ _ Hin') as (pre & sz & post & -> & ->).
      destruct (vPortFree_spec P WF s pre post sz Hinv) as (s2 & E2 & Hinv2 & _).
      rewrite E2 in Hf. injection Hf as <-.
      exists (coalesce pre sz post). split; auto.
      rewrite coalesce_used_ptrs.
      rewrite used_ptrs_app in Hperm. simpl in Hperm.
      apply (Permutation_cons_inv (a := st + total pre + hdr)).
      rewrite <- (remove_one_perm _ _ Hin). rewrite Hperm.
      symmetry. apply Permutation_middle.
    + destruct Hpv as [-> | ?]; [|contradiction].
      simpl in Hf. injection Hf as <-.
      rewrite remove_one_absent by assumption. right. exists bl. auto.
Qed.

(** Every reachable state of a run whose requests fit a header is a
    well-formed heap. *)
Theorem reachable_heap_ok (s : heap) (live : list Z) :
  reachable fits_header s live -> heap_ok s live.
Proof.
  induction 1 as [|s live n s' r _ IH Hn Hfit Hm|s live pv s' _ IH Hpv Hf].
  - now left.
  - eapply pvPortMalloc_ok; eauto.
  - eapply vPortFree_ok; eauto.
Qed.

End Runs.

(* ================================================================== *)
(** ** What the public calls do to the scalar state of any heap

    These facts follow the text of the functions; they hold for every
    state, well-formed or not. *)

Ltac obind_inv H :=
  repeat (cbn [obind] in H;
          match type of H with
          | obind ?c _ = Some _ =>
              let E := fresh "E" in destruct c eqn:E; [|discriminate H]
          | (let '(_, _) := ?p in _) = Some _ => destruct p
          | (if ?b then _ else _) = Some _ =>
              let E := fresh "E" in destruct b eqn:E
          end).

Ltac inv_all :=
  repeat match goal with
         | H : obind ?c _ = Some _ |- _ =>
             let E := fresh "E" in
             destruct c eqn:E; [cbn [obind] in H | discriminate H]
         | H : (let '(_, _) := ?p in _) = Some _ |- _ => destruct p
         | H : (if ?b then _ else _) = Some _ |- _ =>
             let E := fresh "E" in destruct b eqn:E
         | H : None = Some _ |- _ => discriminate H
         | H : Some ?a = Some ?b |- _ => is_var b; injection H as H; subst b
         end.

Section Scalars.
Variable P : platform.

Lemma malloc_body_scalars (s : heap) (w : Z) (s' : heap) (r : Z) :
  malloc_body P s w = Some (s', r) ->
  pxEnd s' = pxEnd s /\
  xNumberOfSuccessfulFrees s' = xNumberOfSuccessfulFrees s /\
  xMinimumEverFreeBytesRemaining s' <= xMinimumEverFreeBytesRemaining s.
Proof.
  unfold malloc_body. intros H. obind_inv H;
    injection H as <- <-; cbn; repeat split; auto; try lia.
  match goal with
  | |- context [?a <? ?b] => destruct (Z.ltb_spec a b); lia
  end.
Qed.

Lemma free_block_scalars (s : heap) (pv pxLink : Z) (s' : heap) :
  free_block P s pv pxLink = Some s' ->
  pxEnd s' = pxEnd s /\
  xMinimumEverFreeBytesRemaining s' = xMinimumEverFreeBytesRemaining s /\
  xNumberOfSuccessfulAllocations s' = xNumberOfSuccessfulAllocations s.
Proof.
  unfold free_block. intros H. obind_inv H; injection H as <-; cbn; auto.
Qed.

Lemma vPortFree_scalars (s : heap) (pv : Z) (s' : heap) :
  vPortFree P s pv = Ok s' ->
  pxEnd s' = pxEnd s /\
  xMinimumEverFreeBytesRemaining s' = xMinimumEverFreeBytesRemaining s /\
  xNumberOfSuccessfulAllocations s' = xNumberOfSuccessfulAllocations s.
Proof.
  unfold vPortFree. intros H.
  destruct (negb (pv =? NULL)); [|injection H as <-; auto].
  destruct (load_size P (mem s) (wrap P (pv - xHeapStructSize P))); [|discriminate].
  destruct (negb (heapBLOCK_IS_ALLOCATED P z)); [discriminate|].
  destruct (load_next P (mem s) (wrap P (pv - xHeapStructSize P))); [|discriminate].
  destruct (negb (z0 =? NULL)); [discriminate|].
  destruct (free_block P s pv (wrap P (pv - xHeapStructSize P))) eqn:E; [|discriminate].
  injection H as <-. now apply free_block_scalars in E.
Qed.

(** A call that spins in [configASSERT] has changed nothing. *)
Lemma vPortFree_halted (s : heap) (pv : Z) (s' : heap) :
  vPortFree P s pv = Halted s' -> s' = s.
Proof.
  unfold vPortFree. intros H.
  destruct (negb (pv =? NULL)); [|discriminate].
  destruct (load_size P (mem s) (wrap P (pv - xHeapStructSize P))); [|discriminate].
  destruct (negb (heapBLOCK_IS_ALLOCATED P z)); [now injection H|].
  destruct (load_next P (mem s) (wrap P (pv - xHeapStructSize P))); [|discriminate].
  destruct (negb (z0 =? NULL)); [now injection H|].
  destruct (free_block P s pv (wrap P (pv - xHeapStructSize P))); discriminate.
Qed.

Lemma prvHeapInit_scalars (s s' : heap) :
  prvHeapInit P s = Some s' -> pxEnd s' = uxEndAddress P.
Proof.
  unfold prvHeapInit. intros H. obind_inv H. now injection H as <-.
Qed.

Lemma pvPortMalloc_scalars (s : heap) (n : Z) (s' : heap) (r : Z) :
  pxEnd s <> NULL ->
  pvPortMalloc P s n = Some (s', r) ->
  pxEnd s' = pxEnd s /\
  xNumberOfSuccessfulFrees s' = xNumberOfSuccessfulFrees s /\
  xMinimumEverFreeBytesRemaining s' <= xMinimumEverFreeBytesRemaining s.
Proof.
  unfold pvPortMalloc. intros Hinit H.
  destruct (Z.eqb_spec (pxEnd s) NULL); [contradiction|].
  cbn [obind] in H. now apply malloc_body_scalars in H.
Qed.

End Scalars.

(* ================================================================== *)
(** ** Concrete targets *)

Lemma LP64_wf : wf_platform LP64.
Proof.
  constructor; vm_compute; try (intuition congruence); auto.
Defined.

Lemma ILP32_wf : wf_platform ILP32.
Proof.
  constructor; vm_compute; try (intuition congruence); auto.
Defined.

(** State left by a call that returned. *)
Definition state_of (o : option (heap * Z)) : heap :=
  match o with Some (s, _) => s | None => heap0 end.

Definition result_of (o : option (heap * Z)) : Z :=
  match o with Some (_, r) => r | None => NULL end.

Definition freed (o : outcome heap) : heap :=
  match o with Ok s => s | _ => heap0 end.

Definition returned (o : option (heap * Z)) : bool :=
  match o with Some _ => true | None => false end.

Definition is_ok (o : outcome heap) : bool :=
  match o with Ok _ => true | _ => false end.

Lemma returned_eq (o : option (heap * Z)) :
  returned o = true -> o = Some (state_of o, result_of o).
Proof. destruct o as [[s r]|]; [reflexivity | discriminate]. Defined.

Lemma is_ok_eq (o : outcome heap) : is_ok o = true -> o = Ok (freed o).
Proof. destruct o; [reflexivity | discriminate | discriminate]. Defined.

(* ================================================================== *)
(** ** The watermark *)

Section Watermark.
Variable P : platform.

(** One public call that returns. *)
Inductive call : heap -> heap -> Prop :=
| call_malloc (s : heap) (n : Z) (s' : heap) (r : Z) :
    pvPortMalloc P s n = Some (s', r) -> call s s'
| call_free (s : heap) (pv : Z) (s' : heap) :
    vPortFree P s pv = Ok s' -> call s s'.

(** Any number of calls, one after the other. *)
Inductive calls : heap -> heap -> Prop :=
| calls_nil (s : heap) : calls s s
| calls_cons (s s1 s' : heap) : call s s1 -> calls s1 s' -> calls s s'.

Lemma call_watermark (s s' : heap) :
  pxEnd s <> NULL -> call s s' ->
  pxEnd s' <> NULL /\
  xPortGetMinimumEverFreeHeapSize s' <= xPortGetMinimumEverFreeHeapSize s.
Proof.
  unfold xPortGetMinimumEverFreeHeapSize.
  intros Hinit Hc. destruct Hc as [s n s' r Hm | s pv s' Hf].
  - destruct (pvPortMalloc_scalars P _ _ _ _ Hinit Hm) as (E1 & _ & E2).
    split; [congruence | assumption].
  - destruct (vPortFree_scalars P _ _ _ Hf) as (E1 & E2 & _).
    split; [congruence | lia].
Qed.

End Watermark.

(** C6. Once the arena is initialised, the value returned by
    xPortGetMinimumEverFreeHeapSize never increases: over any sequence of
    pvPortMalloc and vPortFree calls, with any arguments, the value
    observed after the sequence is at most the value observed before
    it. *)
Theorem watermark_never_increases (P : platform) (s s' : heap) :
  pxEnd s <> NULL -> calls P s s' ->
  xPortGetMinimumEverFreeHeapSize s' <= xPortGetMinimumEverFreeHeapSize s.
Proof.
  intros Hinit Hc. induction Hc as [s | s s1 s' H1 _ IH].
  - lia.
  - destruct (call_watermark P s s1 Hinit H1) as [Hinit1 Hle].
    specialize (IH Hinit1). lia.
Qed.

Definition demo1 : heap := state_of (pvPortMalloc LP64 heap0 10).
Definition demo2 : heap := state_of (pvPortMalloc LP64 demo1 128).
Definition demo3 : heap := freed (vPortFree LP64 demo2 (result_of (pvPortMalloc LP64 heap0 10))).

Lemma demo_calls : calls LP64 demo1 demo3.
Proof.
  apply (calls_cons LP64 demo1 demo2 demo3).
  - apply (call_malloc LP64 demo1 128 demo2 (result_of (pvPortMalloc LP64 demo1 128))).
    apply returned_eq. vm_compute. reflexivity.
  - apply (calls_cons LP64 demo2 demo3 demo3); [|apply calls_nil].
    apply (call_free LP64 demo2 (result_of (pvPortMalloc LP64 heap0 10)) demo3).
    apply is_ok_eq. vm_compute. reflexivity.
Defined.

Lemma watermark_never_increases_witness :
  pxEnd demo1 <> NULL /\ calls LP64 demo1 demo3 /\
  xPortGetMinimumEverFreeHeapSize demo3 <= xPortGetMinimumEverFreeHeapSize demo1.
Proof.
  assert (H1 : pxEnd demo1 <> NULL) by (vm_compute; discriminate).
  split; [exact H1|]. split; [exact demo_calls|].
  exact (watermark_never_increases LP64 demo1 demo3 H1 demo_calls).
Defined.

(* ================================================================== *)
(** ** The free list as a walk over memory *)

Fixpoint ascending (l : list Z) : Prop :=
  match l with
  | a :: (b :: _) as r => a < b /\ ascending r
  | _ => True
  end.

Section FreeList.
Variable P : platform.

(** Follow the links from node [p] up to the node whose link is NULL;
    collect the address and size field of every node on the way. *)
Fixpoint walk_list (fuel : nat) (m : memory) (p : Z) : option (list (Z * Z)) :=
  match fuel with
  | O => None
  | S fuel' =>
      sz <- load_size P m p ;;
      nx <- load_next P m p ;;
      if nx =? NULL then Some [(p, sz)]
      else rest <- walk_list fuel' m nx ;; Some ((p, sz) :: rest)
  end.

(** The nodes behind [xStart]. *)
Definition free_list (s : heap) : option (list (Z * Z)) :=
  first <- load_next P (mem s) (xStart_addr P) ;;
  walk_list heap_fuel (mem s) first.

(** The free list is strictly ascending by address and ends in the end
    sentinel, and no free block ends where another one starts. *)
Definition free_list_ordered (s : heap) : Prop :=
  exists nodes,
    free_list s = Some (nodes ++ [(pxEnd s, 0)]) /\
    ascending (map fst (nodes ++ [(pxEnd s, 0)])) /\
    forall n1 n2, In n1 nodes -> In n2 nodes -> fst n1 + snd n1 <> fst n2.

Hypothesis WF : wf_platform P.

Lemma walk_list_spec (m : memory) (bl : list block) :
  forall (a : Z) (fuel : nat),
    seg_ok P a bl -> a + total bl = uxEndAddress P ->
    fseg P m a bl (uxEndAddress P) ->
    m (uxEndAddress P) = NULL -> m (uxEndAddress P + ptr_bytes P) = 0 ->
    (length bl < fuel)%nat ->
    walk_list fuel m (ff a bl (uxEndAddress P)) =
    Some (free_nodes a bl ++ [(uxEndAddress P, 0)]).
Proof.
  pose proof (start_facts P WF) as Hst. pose proof (wf_heap_pos P WF) as Hhp.
  induction bl as [|[sz [|]] r IH]; intros a fuel Hs He Hf Hn Hz Hfuel;
    (destruct fuel as [|fuel]; [simpl in Hfuel; lia|]).
  - simpl in *. replace a with (uxEndAddress P) in * by lia.
    assert (Hnode : node P (uxEndAddress P)) by (left; apply (seg_ok_hdr P WF _ _ Hs)).
    rewrite (ld_size P WF _ _ Hnode), (ld_next P WF _ _ Hnode). cbn [obind].
    rewrite Hn, Hz. reflexivity.
  - destruct (seg_ok_cons P WF _ _ _ Hs) as (Ha & Hr & Hb).
    simpl fst in Hr. simpl ff. simpl free_nodes.
    apply IH; auto.
    + simpl in He. lia.
    + simpl in Hfuel. lia.
  - destruct (seg_ok_cons P WF _ _ _ Hs) as (Ha & Hr & Hb).
    simpl fst in Hr. simpl ff. simpl free_nodes.
    destruct Hf as (E1 & E2 & E3).
    assert (Hnode : node P a) by now left.
    simpl walk_list. rewrite (ld_size P WF _ _ Hnode), (ld_next P WF _ _ Hnode).
    cbn [obind]. rewrite E1, E2.
    assert (Hnz : ff (a + sz) r (uxEndAddress P) <> NULL).
    { destruct Hr as (G1 & _ & G3 & G4). destruct Ha as [Ha _].
      destruct (ff_range P WF r (a + sz) (uxEndAddress P) G4) as [-> | ?];
        unfold NULL; lia. }
    destruct (Z.eqb_spec (ff (a + sz) r (uxEndAddress P)) NULL); [contradiction|].
    rewrite IH; auto.
    + simpl in He. lia.
    + simpl in Hfuel. lia.
Qed.

Lemma free_nodes_bounds (a : Z) (bl : list block) :
  seg_ok P a bl ->
  Forall (fun n => a <= fst n /\ fst n + snd n <= a + total bl /\ 0 < snd n)
         (free_nodes a bl).
Proof.
  pose proof (hdr_pos P WF) as (Hh & _ & _).
  revert a; induction bl as [|[sz [|]] r IH]; intros a Hs; simpl; [constructor| |];
    destruct (seg_ok_cons P WF _ _ _ Hs) as (Ha & Hr & [Hb _]); simpl in Hr, Hb;
    pose proof (total_nonneg P WF r (proj2 (proj2 (proj2 Hr)))).
  - eapply Forall_impl; [|apply (IH _ Hr)]. simpl. intros; lia.
  - constructor; [simpl; lia|].
    eapply Forall_impl; [|apply (IH _ Hr)]. simpl. intros; lia.
Qed.

Lemma free_nodes_after_used (a : Z) (bl : list block) :
  seg_ok P a bl -> head_used bl -> Forall (fun n => a < fst n) (free_nodes a bl).
Proof.
  pose proof (hdr_pos P WF) as (Hh & _ & _).
  destruct bl as [|[sz [|]] r]; simpl; intros Hs Hu; [constructor | | contradiction].
  destruct (seg_ok_cons P WF _ _ _ Hs) as (Ha & Hr & [Hb _]); simpl in Hr, Hb.
  eapply Forall_impl; [|apply (free_nodes_bounds _ _ Hr)]. simpl. intros; lia.
Qed.

Lemma ascending_cons (a : Z) (l : list Z) :
  Forall (fun y => a < y) l -> ascending l -> ascending (a :: l).
Proof.
  destruct l as [|b l]; simpl; auto. intros Hf Ha. split; auto.
  now inversion Hf.
Qed.

Lemma free_nodes_ascending (a top : Z) (bl : list block) :
  seg_ok P a bl -> a + total bl <= top ->
  ascending (map fst (free_nodes a bl ++ [(top, 0)])).
Proof.
  pose proof (hdr_pos P WF) as (Hh & _ & _).
  revert a; induction bl as [|[sz [|]] r IH]; intros a Hs Ht; simpl; auto;
    destruct (seg_ok_cons P WF _ _ _ Hs) as (Ha & Hr & [Hb _]); simpl in Hr, Hb, Ht.
  - apply IH; auto. lia.
  - apply ascending_cons; [|apply IH; auto; lia].
    rewrite map_app. apply Forall_app. split.
    + apply Forall_map.
      eapply Forall_impl; [|apply (free_nodes_bounds _ _ Hr)]. simpl. intros; lia.
    + simpl. constructor; [|constructor].
      pose proof (total_nonneg P WF r (proj2 (proj2 (proj2 Hr)))). lia.
Qed.

Lemma free_nodes_apart (a : Z) (bl : list block) :
  seg_ok P a bl -> no_adj bl ->
  forall n1 n2, In n1 (free_nodes a bl) -> In n2 (free_nodes a bl) ->
                fst n1 + snd n1 <> fst n2.
Proof.
  pose proof (hdr_pos P WF) as (Hh & _ & _).
  revert a; induction bl as [|[sz [|]] r IH]; intros a Hs Hn n1 n2; simpl; [tauto| |];
    destruct (seg_ok_cons P WF _ _ _ Hs) as (Ha & Hr & [Hb _]); simpl in Hr, Hb, Hn.
  - now apply IH.
  - destruct Hn as [Hu Hn].
    pose proof (free_nodes_bounds _ _ Hr) as Hbd.
    pose proof (free_nodes_after_used _ _ Hr Hu) as Haf.
    rewrite Forall_forall in Hbd, Haf.
    intros [<- | H1] [<- | H2]; simpl.
    + lia.
    + specialize (Haf _ H2). lia.
    + specialize (Hbd _ H1). simpl in Hbd. lia.
    + now apply (IH _ Hr Hn).
Qed.

(** On a well-formed heap the walk finds the free blocks of the block
    sequence, in order, followed by the end sentinel. *)
Lemma free_list_of_heap (s : heap) (bl : list block) :
  heap_inv P s bl ->
  free_list s = Some (free_nodes (uxStartAddress P) bl ++ [(pxEnd s, 0)]).
Proof.
  intros [I1 I2 I3 I4 I5 I6 I7 I8 I9 I10 I11]. unfold free_list.
  rewrite (ld_next P WF) by now right. cbn [obind]. rewrite I7, I1.
  apply walk_list_spec; auto. apply (fuel_enough P WF _ _ I2).
Qed.

Lemma heap_inv_free_list_ordered (s : heap) (bl : list block) :
  heap_inv P s bl -> free_list_ordered s.
Proof.
  intros Hinv. exists (free_nodes (uxStartAddress P) bl).
  split; [now apply free_list_of_heap|].
  destruct Hinv as [I1 I2 I3 I4 I5 I6 I7 I8 I9 I10 I11]. rewrite I1. split.
  - apply free_nodes_ascending; auto. lia.
  - now apply free_nodes_apart.
Qed.

End FreeList.

(* ================================================================== *)
(** ** Runs of the public interface *)

Lemma demo1_reachable (ok : Z -> Prop) :
  ok 10 -> reachable LP64 ok demo1 [6296016].
Proof.
  intros Hok.
  assert (Hn : 0 <= 10 < modulus LP64) by (vm_compute; split; [discriminate | reflexivity]).
  assert (Hc : pvPortMalloc LP64 heap0 10 = Some (demo1, 6296016)).
  { assert (Er : result_of (pvPortMalloc LP64 heap0 10) = 6296016)
      by (vm_compute; reflexivity).
    rewrite (returned_eq (pvPortMalloc LP64 heap0 10)) by (vm_compute; reflexivity).
    rewrite Er. reflexivity. }
  exact (reach_malloc LP64 ok heap0 [] 10 demo1 6296016 (reach_start LP64 ok) Hn Hok Hc).
Defined.

(* ================================================================== *)
(** ** Requests that are refused *)

Section Refusals.
Variable P : platform.

(** A request of size zero, or one whose block size exceeds the free
    bytes, leaves an initialised heap exactly as it found it. *)
Lemma malloc_body_refuses (s : heap) (w : Z) :
  w = 0 \/ xFreeBytesRemaining s < w -> malloc_body P s w = Some (s, NULL).
Proof.
  intros H. unfold malloc_body.
  assert (E : (0 <? w) && (w <=? xFreeBytesRemaining s) = false).
  { destruct (Z.ltb_spec 0 w); [|reflexivity].
    destruct (Z.leb_spec w (xFreeBytesRemaining s)); [lia | reflexivity]. }
  now rewrite E.
Qed.

Lemma wanted_size_0 : wanted_size P 0 = 0.
Proof. reflexivity. Qed.

Hypothesis WF : wf_platform P.

(** Initialisation succeeds from any state and leaves one free block
    that spans the arena. *)
Lemma prvHeapInit_fresh (s : heap) :
  exists s1,
    prvHeapInit P s = Some s1 /\
    pxEnd s1 <> NULL /\
    xFreeBytesRemaining s1 = usable_size P /\
    xMinimumEverFreeBytesRemaining s1 = usable_size P /\
    xNumberOfSuccessfulAllocations s1 = xNumberOfSuccessfulAllocations s.
Proof.
  destruct (prvHeapInit_spec P WF s) as (s1 & E & Hinv & Hmin & Ha & _).
  exists s1. split; [assumption|].
  pose proof (end_small P WF) as [He _].
  rewrite (inv_end _ _ _ Hinv), (inv_free _ _ _ Hinv).
  split; [unfold NULL; lia|]. split; [simpl; lia|]. auto.
Qed.

End Refusals.

(** C8. pvPortMalloc(0) returns NULL and performs no allocation.  On an
    initialised arena the call returns the very state it was given, so
    the free-byte counter, the watermark, the allocation counter and the
    free list are all unchanged; on an arena that is not yet initialised
    the only effect is that of prvHeapInit. *)
Theorem malloc_zero_is_refused (P : platform) (s : heap) :
  wf_platform P ->
  (pxEnd s <> NULL -> pvPortMalloc P s 0 = Some (s, NULL)) /\
  (pxEnd s = NULL ->
   exists s1, prvHeapInit P s = Some s1 /\ pvPortMalloc P s 0 = Some (s1, NULL) /\
              xNumberOfSuccessfulAllocations s1 = xNumberOfSuccessfulAllocations s /\
              xPortGetFreeHeapSize s1 = usable_size P /\
              xPortGetMinimumEverFreeHeapSize s1 = usable_size P).
Proof.
  intros WF. unfold pvPortMalloc. rewrite wanted_size_0. split; intros Hinit.
  - destruct (Z.eqb_spec (pxEnd s) NULL); [contradiction|].
    cbn [obind]. apply malloc_body_refuses. now left.
  - destruct (prvHeapInit_fresh P WF s) as (s1 & E & _ & Hf & Hm & Ha).
    exists s1. rewrite Hinit, E, Z.eqb_refl. cbn [obind].
    split; [reflexivity|]. split; [apply malloc_body_refuses; now left|]. auto.
Qed.

Lemma malloc_zero_is_refused_witness :
  pvPortMalloc LP64 demo1 0 = Some (demo1, NULL).
Proof.
  apply (proj1 (malloc_zero_is_refused LP64 demo1 LP64_wf)).
  vm_compute. discriminate.
Defined.



(* ================================================================== *)
(** ** Freeing what is not allocated *)

Section DoubleFree.
Variable P : platform.
Hypothesis WF : wf_platform P.

Local Abbreviation pb := (ptr_bytes P).
Local Abbreviation hdr := (xHeapStructSize P).
Local Abbreviation e := (uxEndAddress P).
Local Abbreviation st := (uxStartAddress P).
Local Abbreviation mn := (heapMINIMUM_BLOCK_SIZE P).

(** The first assertion of [vPortFree] stops a call whose header does
    not carry the flag. *)
Lemma vPortFree_unflagged (s : heap) (blk : Z) :
  hdr_addr P blk ->
  0 <= mem s (blk + pb) < heapBLOCK_ALLOCATED_BITMASK P ->
  vPortFree P s (blk + hdr) = Halted s.
Proof.
  intros Hb Hsmall. pose proof (hdr_pos P WF) as (Hh & Hp4 & _).
  assert (Hnode : node P blk) by now left.
  pose proof (node_range P WF blk Hnode) as [Hpos Htop].
  pose proof (start_facts P WF) as [Hst _].
  unfold vPortFree.
  destruct (Z.eqb_spec (blk + hdr) NULL) as [E | _]; [unfold NULL in E; lia|].
  cbn [negb]. replace (blk + hdr - hdr) with blk by lia.
  rewrite (wrap_small P blk) by lia.
  rewrite (ld_size P WF _ _ Hnode).
  now rewrite (is_allocated_small P WF _ Hsmall).
Qed.

End DoubleFree.

Lemma fits_header_10 : fits_header LP64 10.
Proof. right. vm_compute. discriminate. Defined.

(* ================================================================== *)
(** ** What a free may write *)

Section FreeFrame.
Variable P : platform.

Local Abbreviation pb := (ptr_bytes P).
Local Abbreviation hdr := (xHeapStructSize P).
Local Abbreviation st := (uxStartAddress P).

(** The words that differ between [s] and [s'] lie in the block of
    [pv], header and payload, or are link fields: the link of [xStart]
    or of a node that is on the free list before or after the call. *)
Definition free_confined_to_block_and_links (s s' : heap) (pv : Z) : Prop :=
  forall x, mem s' x <> mem s x ->
    (pv - hdr <= x < pv - hdr + block_size_of P s pv) \/
    x = xStart_addr P \/
    (exists nodes sz, (free_list P s = Some nodes \/ free_list P s' = Some nodes) /\
                      In (x, sz) nodes).

(** The same, with both header words of one list node [prev] in place
    of the link fields. *)
Definition free_confined_to_block_and_node (s s' : heap) (pv prev : Z) : Prop :=
  forall x, mem s' x <> mem s x ->
    (pv - hdr <= x < pv - hdr + block_size_of P s pv) \/
    x = prev \/ x = prev + pb.

Hypothesis WF : wf_platform P.

Lemma free_nodes_app (l1 l2 : list block) (a : Z) :
  free_nodes a (l1 ++ l2) = free_nodes a l1 ++ free_nodes (a + total l1) l2.
Proof.
  revert a; induction l1 as [|[sz [|]] r IH]; intros a; simpl.
  - now rewrite Z.add_0_r.
  - rewrite IH. now rewrite Z.add_assoc.
  - rewrite IH. now rewrite Z.add_assoc.
Qed.

Lemma block_size_of_used (s : heap) (pre post : list block) (sz : Z) :
  heap_inv P s (pre ++ (sz, true) :: post) ->
  block_size_of P s (st + total pre + hdr) = sz.
Proof.
  intros Hinv. pose proof (bitmask_big P WF) as Hbm.
  pose proof (usable_bounds P WF) as Hub. unfold usable_size in Hub.
  pose proof (hdr_pos P WF) as (Hh & _ & _).
  pose proof (inv_useg _ _ _ Hinv) as Hu. pose proof (inv_seg _ _ _ Hinv) as Hs.
  apply useg_app in Hu. destruct Hu as [_ (U1 & _ & _)].
  apply (seg_ok_app P WF) in Hs. destruct Hs as [(S1 & _ & _ & S4) Hs].
  destruct (seg_ok_cons P WF _ _ _ Hs) as (_ & (_ & _ & R3 & R4) & [Hb _]).
  simpl in Hb, R3.
  pose proof (total_nonneg P WF _ S4). pose proof (total_nonneg P WF _ R4).
  unfold block_size_of.
  replace (st + total pre + hdr - hdr + pb) with (st + total pre + pb) by lia.
  rewrite U1. apply (free_marked P WF). lia.
Qed.

End FreeFrame.

(* ================================================================== *)
(** ** Calls on a well-formed heap *)

Section Steps.
Variable P : platform.
Hypothesis WF : wf_platform P.

Local Abbreviation hdr := (xHeapStructSize P).
Local Abbreviation st := (uxStartAddress P).
Local Abbreviation mn := (heapMINIMUM_BLOCK_SIZE P).

(** An allocation on a well-formed heap does what first fit does on the
    block sequence. *)
Lemma malloc_step (s : heap) (bl : list block) (n : Z) :
  heap_inv P s bl -> 0 <= n < modulus P -> hdr <= wanted_size P n ->
  match alloc_abs mn (wanted_size P n) st bl with
  | None => pvPortMalloc P s n = Some (s, NULL)
  | Some (blk, bl') =>
      exists s', pvPortMalloc P s n = Some (s', blk + hdr) /\ heap_inv P s' bl'
  end.
Proof.
  intros Hinv Hn Hbig.
  pose proof (wanted_size_range P WF n Hn) as Hwr.
  pose proof (wanted_size_mod8 P WF n (proj1 Hn)) as Hw8.
  pose proof (malloc_body_spec P WF s bl _ Hinv Hbig Hw8 (proj2 Hwr)) as Hspec.
  unfold pvPortMalloc. rewrite (inv_end _ _ _ Hinv).
  pose proof (end_small P WF) as [He _].
  destruct (Z.eqb_spec (uxEndAddress P) NULL) as [E | _]; [unfold NULL in E; lia|].
  cbn [obind].
  destruct (alloc_abs mn (wanted_size P n) st bl) as [[blk bl']|]; [|assumption].
  destruct Hspec as (s' & E & Hinv' & _). now exists s'.
Qed.

(** The first call initialises the arena and allocates from the single
    free block. *)
Lemma malloc_first (n : Z) :
  0 <= n < modulus P -> hdr <= wanted_size P n ->
  match alloc_abs mn (wanted_size P n) st [(usable_size P, false)] with
  | None => exists s', pvPortMalloc P heap0 n = Some (s', NULL) /\
                       heap_inv P s' [(usable_size P, false)]
  | Some (blk, bl') =>
      exists s', pvPortMalloc P heap0 n = Some (s', blk + hdr) /\ heap_inv P s' bl'
  end.
Proof.
  intros Hn Hbig.
  destruct (prvHeapInit_spec P WF heap0) as (s1 & E & Hinv & _).
  pose proof (malloc_step s1 _ n Hinv Hn Hbig) as Hstep.
  assert (Hc : pvPortMalloc P heap0 n = pvPortMalloc P s1 n).
  { unfold pvPortMalloc. simpl pxEnd. rewrite Z.eqb_refl, E.
    rewrite (inv_end _ _ _ Hinv). pose proof (end_small P WF) as [He _].
    destruct (Z.eqb_spec (uxEndAddress P) NULL) as [E' | _];
      [unfold NULL in E'; lia | reflexivity]. }
  rewrite Hc.
  destruct (alloc_abs mn (wanted_size P n) st [(usable_size P, false)])
    as [[blk bl']|]; [assumption|].
  exists s1. auto.
Qed.

(** Freeing an allocated block coalesces it on the block sequence. *)
Lemma free_step (s : heap) (pre post : list block) (sz : Z) :
  heap_inv P s (pre ++ (sz, true) :: post) ->
  exists s', vPortFree P s (st + total pre + hdr) = Ok s' /\
             heap_inv P s' (coalesce pre sz post).
Proof.
  intros Hinv. destruct (vPortFree_spec P WF s pre post sz Hinv) as (s' & E & H & _).
  now exists s'.
Qed.

End Steps.

(** C3. Coalescing.  Three blocks A, B and C are allocated one after the
    other from a fresh arena, with block sizes wa, wb and wc, each split
    off the free block so that they lie side by side.  B is freed, then
    A.  The free list then starts with one block at A's address whose
    size is wa + wb, followed by the rest of the arena behind C.  A
    request whose block size is exactly wa + wb is then served from that
    block: it returns A's pointer, the block keeps the size wa + wb, and
    nothing of it goes back on the free list. *)
Theorem coalescing_scenario (P : platform) (na nb nc n : Z) :
  wf_platform P ->
  0 <= na < modulus P -> 0 <= nb < modulus P -> 0 <= nc < modulus P ->
  0 <= n < modulus P ->
  xHeapStructSize P <= wanted_size P na ->
  xHeapStructSize P <= wanted_size P nb ->
  xHeapStructSize P <= wanted_size P nc ->
  wanted_size P na + wanted_size P nb + wanted_size P nc + heapMINIMUM_BLOCK_SIZE P
    < usable_size P ->
  wanted_size P n = wanted_size P na + wanted_size P nb ->
  exists s1 s2 s3 s4 s5 s6 pa pb pc,
    pvPortMalloc P heap0 na = Some (s1, pa) /\
    pvPortMalloc P s1 nb = Some (s2, pb) /\
    pvPortMalloc P s2 nc = Some (s3, pc) /\
    pb = pa + wanted_size P na /\ pc = pb + wanted_size P nb /\
    vPortFree P s3 pb = Ok s4 /\
    vPortFree P s4 pa = Ok s5 /\
    free_list P s5 =
      Some [(pa - xHeapStructSize P, wanted_size P na + wanted_size P nb);
            (pc - xHeapStructSize P + wanted_size P nc,
             usable_size P - wanted_size P na - wanted_size P nb - wanted_size P nc);
            (pxEnd s5, 0)] /\
    pvPortMalloc P s5 n = Some (s6, pa) /\
    block_size_of P s6 pa = wanted_size P na + wanted_size P nb /\
    free_list P s6 =
      Some [(pc - xHeapStructSize P + wanted_size P nc,
             usable_size P - wanted_size P na - wanted_size P nb - wanted_size P nc);
            (pxEnd s6, 0)].
Proof.
  intros WF Hna Hnb Hnc Hn Ha Hb Hc Hroom Hfit.
  pose proof (hdr_pos P WF) as (Hh & _ & _).
  pose proof (heapMINIMUM_BLOCK_SIZE_val P WF) as Hmn.
  set (wa := wanted_size P na) in *. set (wb := wanted_size P nb) in *.
  set (wc := wanted_size P nc) in *. set (U := usable_size P) in *.
  set (mn := heapMINIMUM_BLOCK_SIZE P) in *. set (h := xHeapStructSize P) in *.
  set (a := uxStartAddress P).
  (* A *)
  pose proof (malloc_first P WF na Hna Ha) as Q1. fold wa U mn a h in Q1.
  cbn [alloc_abs] in Q1.
  destruct (Z.ltb_spec U wa); [lia|]. unfold carve in Q1.
  destruct (Z.ltb_spec mn (U - wa)); [|lia]. cbn [app] in Q1.
  destruct Q1 as (s1 & E1 & I1).
  (* B *)
  pose proof (malloc_step P WF s1 _ nb I1 Hnb Hb) as Q2. fold wb mn a h in Q2.
  cbn [alloc_abs] in Q2.
  destruct (Z.ltb_spec (U - wa) wb); [lia|]. unfold carve in Q2.
  destruct (Z.ltb_spec mn (U - wa - wb)); [|lia]. cbn [app] in Q2.
  destruct Q2 as (s2 & E2 & I2).
  (* C *)
  pose proof (malloc_step P WF s2 _ nc I2 Hnc Hc) as Q3. fold wc mn a h in Q3.
  cbn [alloc_abs] in Q3.
  destruct (Z.ltb_spec (U - wa - wb) wc); [lia|]. unfold carve in Q3.
  destruct (Z.ltb_spec mn (U - wa - wb - wc)); [|lia]. cbn [app] in Q3.
  destruct Q3 as (s3 & E3 & I3).
  (* free B *)
  destruct (free_step P WF s3 [(wa, true)] [(wc, true); (U - wa - wb - wc, false)] wb I3)
    as (s4 & E4 & I4).
  fold a h in E4. cbn in E4, I4.
  (* free A *)
  destruct (free_step P WF s4 [] [(wb, false); (wc, true); (U - wa - wb - wc, false)] wa I4)
    as (s5 & E5 & I5).
  fold a h in E5. cbn in E5, I5.
  (* the request that fits exactly *)
  assert (Hh' : h <= wanted_size P n) by (rewrite Hfit; lia).
  pose proof (malloc_step P WF s5 _ n I5 Hn Hh') as Q6. rewrite Hfit in Q6.
  fold mn a h in Q6. cbn [alloc_abs] in Q6.
  destruct (Z.ltb_spec (wa + wb) (wa + wb)); [lia|]. unfold carve in Q6.
  destruct (Z.ltb_spec mn (wa + wb - (wa + wb))); [lia|]. cbn [app] in Q6.
  destruct Q6 as (s6 & E6 & I6).
  exists s1, s2, s3, s4, s5, s6, (a + h), (a + wa + h), (a + wa + wb + h).
  split; [exact E1|]. split; [exact E2|]. split; [exact E3|].
  split; [lia|]. split; [lia|].
  split; [rewrite <- E4; f_equal; lia|].
  split; [rewrite <- E5; f_equal; lia|].
  split.
  { rewrite (free_list_of_heap P WF _ _ I5). fold a. cbn.
    replace (a + h - h) with a by lia.
    replace (a + wa + wb + h - h + wc) with (a + (wa + wb) + wc) by lia.
    reflexivity. }
  split; [exact E6|]. split.
  { replace (a + h) with (a + total [] + h) by (simpl; lia).
    apply (block_size_of_used P WF s6 [] _ _ I6). }
  rewrite (free_list_of_heap P WF _ _ I6). fold a. cbn.
  replace (a + wa + wb + h - h + wc) with (a + (wa + wb) + wc) by lia.
  reflexivity.
Qed.

Lemma coalescing_scenario_witness :
  exists s5 s6 pa,
    pvPortMalloc LP64 s5 160 = Some (s6, pa) /\
    block_size_of LP64 s6 pa = wanted_size LP64 10 + wanted_size LP64 128.
Proof.
  destruct (coalescing_scenario LP64 10 128 50 160 LP64_wf
              ltac:(vm_compute; split; [discriminate | reflexivity])
              ltac:(vm_compute; split; [discriminate | reflexivity])
              ltac:(vm_compute; split; [discriminate | reflexivity])
              ltac:(vm_compute; split; [discriminate | reflexivity])
              ltac:(vm_compute; discriminate)
              ltac:(vm_compute; discriminate)
              ltac:(vm_compute; discriminate)
              ltac:(vm_compute; reflexivity)
              ltac:(vm_compute; reflexivity))
    as (s1 & s2 & s3 & s4 & s5 & s6 & pa & pb & pc & H).
  exists s5, s6, pa. split; apply H.
Defined.

(* ================================================================== *)
(** ** A run on the 64-bit target: 10, 128 and 50 bytes, then two frees *)

Definition demo_c : heap := state_of (pvPortMalloc LP64 demo2 50).
Definition demo_a : heap := freed (vPortFree LP64 demo_c 6296016).
Definition demo_b : heap := freed (vPortFree LP64 demo_a 6296048).

Ltac run_malloc :=
  match goal with
  | |- pvPortMalloc ?P ?s ?n = Some (_, ?r) =>
      let Er := fresh "Er" in
      assert (Er : result_of (pvPortMalloc P s n) = r) by (vm_compute; reflexivity);
      rewrite (returned_eq (pvPortMalloc P s n)) by (vm_compute; reflexivity);
      rewrite Er; reflexivity
  end.

Ltac run_free :=
  match goal with
  | |- vPortFree ?P ?s ?pv = Ok _ => apply is_ok_eq; vm_compute; reflexivity
  end.

Ltac in_range := vm_compute; split; [discriminate | reflexivity].

Lemma fits_header_128 : fits_header LP64 128.
Proof. right. vm_compute. discriminate. Defined.

Lemma fits_header_50 : fits_header LP64 50.
Proof. right. vm_compute. discriminate. Defined.

Lemma demo_a_reachable :
  reachable LP64 (fits_header LP64) demo_a [6296192; 6296048].
Proof.
  assert (R1 : reachable LP64 (fits_header LP64) demo1 [6296016])
    by exact (demo1_reachable _ fits_header_10).
  assert (R2 : reachable LP64 (fits_header LP64) demo2 [6296048; 6296016]).
  { refine (reach_malloc LP64 _ demo1 _ 128 demo2 6296048 R1 _ fits_header_128 _);
      [in_range | run_malloc]. }
  assert (R3 : reachable LP64 (fits_header LP64) demo_c [6296192; 6296048; 6296016]).
  { refine (reach_malloc LP64 _ demo2 _ 50 demo_c 6296192 R2 _ fits_header_50 _);
      [in_range | run_malloc]. }
  refine (reach_free LP64 _ demo_c _ 6296016 demo_a R3 _ _);
    [right; simpl; tauto | run_free].
Defined.

Lemma demo_b_freed : vPortFree LP64 demo_a 6296048 = Ok demo_b.
Proof. run_free. Defined.

(** C10 (as stated).  Counterexample to the claim that a free changes
    only the freed block and free-list links.  After 10, 128 and 50
    bytes are allocated and the first block is freed, freeing the second
    block merges it into the first: the size word of the first block,
    at its address plus the pointer size, changes from 32 to 176.  That
    word lies outside the freed block and is not a link field. *)
Lemma free_not_confined_to_block_and_links :
  reachable LP64 (fits_header LP64) demo_a [6296192; 6296048] /\
  vPortFree LP64 demo_a 6296048 = Ok demo_b /\
  ~ free_confined_to_block_and_links LP64 demo_a demo_b 6296048.
Proof.
  split; [exact demo_a_reachable|]. split; [exact demo_b_freed|].
  intros H. specialize (H 6296008).
  assert (Ea : mem demo_a 6296008 = 32) by (vm_compute; reflexivity).
  assert (Eb : mem demo_b 6296008 = 176) by (vm_compute; reflexivity).
  assert (Es : block_size_of LP64 demo_a 6296048 = 144) by (vm_compute; reflexivity).
  assert (La : free_list LP64 demo_a =
               Some [(6296000, 32); (6296248, 40696); (6336944, 0)])
    by (vm_compute; reflexivity).
  assert (Lb : free_list LP64 demo_b =
               Some [(6296000, 176); (6296248, 40696); (6336944, 0)])
    by (vm_compute; reflexivity).
  rewrite Ea, Eb, Es, La, Lb in H.
  destruct H as [Hin | [Hx | (nodes & sz & [E | E] & Hn)]].
  - discriminate.
  - change (xHeapStructSize LP64) with 16 in Hin. lia.
  - vm_compute in Hx. discriminate.
  - injection E as <-. simpl in Hn.
    destruct Hn as [Hn | [Hn | [Hn | []]]]; discriminate.
  - injection E as <-. simpl in Hn.
    destruct Hn as [Hn | [Hn | [Hn | []]]]; discriminate.
Qed.

(* ================================================================== *)
(** ** Runs whose requests fit a header *)

Section FittingRuns.
Variable P : platform.
Hypothesis WF : wf_platform P.

(** X21. Conservation.  At every point of a run whose requests fit a
    header, once the arena is initialised, the free-byte counter plus
    the sizes of the blocks the client holds, headers included, is the
    usable size of the arena. *)
Lemma conservation (s : heap) (live : list Z) :
  reachable P (fits_header P) s live -> pxEnd s <> NULL ->
  xPortGetFreeHeapSize s + allocated_bytes P s live = usable_size P.
Proof.
  intros Hr Hinit.
  destruct (reachable_heap_ok P WF _ _ Hr) as [[-> _] | (bl & Hinv & Hperm)];
    [now elim Hinit|].
  unfold xPortGetFreeHeapSize, usable_size, allocated_bytes.
  rewrite (inv_free _ _ _ Hinv).
  rewrite (sum_list_perm _ _ (Permutation_map (block_size_of P s) Hperm)).
  fold (allocated_bytes P s (used_ptrs (xHeapStructSize P) (uxStartAddress P) bl)).
  rewrite (allocated_bytes_used P WF s bl _ (inv_seg _ _ _ Hinv) (inv_useg _ _ _ Hinv)).
  pose proof (inv_total _ _ _ Hinv). pose proof (total_split bl). lia.
Qed.

(** X22. The free list stays in shape.  At every point of a run whose
    requests fit a header, once the arena is initialised, the free list
    is strictly ascending by address, ends in the end sentinel, and
    holds no two blocks of which one ends where the other starts. *)
Lemma free_list_stays_ordered (s : heap) (live : list Z) :
  reachable P (fits_header P) s live -> pxEnd s <> NULL -> free_list_ordered P s.
Proof.
  intros Hr Hinit.
  destruct (reachable_heap_ok P WF _ _ Hr) as [[-> _] | (bl & Hinv & Hperm)];
    [now elim Hinit|].
  now apply (heap_inv_free_list_ordered P WF s bl).
Qed.

(** X23. A request larger than the usable size of the arena, whose
    block size does not wrap around, is refused: on an initialised heap
    of a run whose requests fit a header, pvPortMalloc returns NULL and
    leaves the state exactly as it was. *)
Lemma oversized_request_refused (s : heap) (live : list Z) (n : Z) :
  reachable P (fits_header P) s live -> pxEnd s <> NULL ->
  usable_size P < n -> n + xHeapStructSize P + 7 < modulus P ->
  pvPortMalloc P s n = Some (s, NULL).
Proof.
  intros Hr Hinit Hbig Hfit.
  destruct (reachable_heap_ok P WF _ _ Hr) as [[-> _] | (bl & Hinv & Hperm)];
    [now elim Hinit|].
  pose proof (usable_bounds P WF) as Hub. pose proof (hdr_pos P WF) as (Hh & _ & _).
  pose proof (wanted_size_exact P WF n ltac:(lia) Hfit) as Hw.
  unfold pvPortMalloc.
  destruct (Z.eqb_spec (pxEnd s) NULL); [contradiction|]. cbn [obind].
  apply malloc_body_refuses. right.
  rewrite (inv_free _ _ _ Hinv).
  pose proof (inv_total _ _ _ Hinv). pose proof (total_split bl).
  pose proof (used_total_nonneg P WF bl ltac:(apply (inv_seg _ _ _ Hinv))).
  unfold usable_size in *. lia.
Qed.

End FittingRuns.

(* ================================================================== *)
(** ** A request whose block size wraps around *)

(** The state after a first request of 2^64 - 9 bytes on the 64-bit
    target. *)
Definition wrapped : heap := state_of (pvPortMalloc LP64 heap0 (2 ^ 64 - 9)).

Lemma wrapped_reachable : reachable LP64 any_size wrapped [6296016].
Proof.
  refine (reach_malloc LP64 any_size heap0 [] (2 ^ 64 - 9) wrapped 6296016
            (reach_start LP64 any_size) _ I _); [in_range | run_malloc].
Qed.

(** C1.  The code at a request larger than the arena.  On the 64-bit
    target a first request of 2^64 - 9 bytes is far larger than the
    arena of 40944 usable bytes.  Adding the header size wraps around,
    the computed block size is 8, and pvPortMalloc returns the non-NULL
    pointer 6296016 and counts a successful allocation.  The same
    happens on the 32-bit target for 2^32 - 7 bytes. *)
Lemma oversized_request_is_served :
  usable_size LP64 < 2 ^ 64 - 9 < modulus LP64 /\
  wanted_size LP64 (2 ^ 64 - 9) = 8 /\
  pvPortMalloc LP64 heap0 (2 ^ 64 - 9) = Some (wrapped, 6296016) /\
  xNumberOfSuccessfulAllocations wrapped = 1 /\
  usable_size ILP32 < 2 ^ 32 - 7 < modulus ILP32 /\
  result_of (pvPortMalloc ILP32 heap0 (2 ^ 32 - 7)) = 536871944.
Proof.
  split; [vm_compute; split; reflexivity|].
  split; [vm_compute; reflexivity|].
  split; [run_malloc|].
  split; [vm_compute; reflexivity|].
  split; [vm_compute; split; reflexivity|].
  vm_compute; reflexivity.
Qed.

(** C2.  The code after a request whose block size wrapped.  On the
    64-bit target, after the single call pvPortMalloc(2^64 - 9) the
    arena is initialised, the client holds one pointer, and the free-byte
    counter plus the size of the allocated block is 2^64 + 40944, not the
    usable size 40944. *)
Lemma conservation_broken_by_wrapped_request :
  reachable LP64 any_size wrapped [6296016] /\
  pxEnd wrapped <> NULL /\
  xPortGetFreeHeapSize wrapped = 2 ^ 64 - 6296000 /\
  allocated_bytes LP64 wrapped [6296016] = 6336944 /\
  xPortGetFreeHeapSize wrapped + allocated_bytes LP64 wrapped [6296016]
    <> usable_size LP64.
Proof.
  split; [exact wrapped_reachable|].
  split; [vm_compute; discriminate|].
  split; [vm_compute; reflexivity|].
  split; [vm_compute; reflexivity|].
  vm_compute. discriminate.
Qed.

(** C4.  The code after a request whose block size wrapped.  On the
    64-bit target, after the single call pvPortMalloc(2^64 - 9) the
    first node of the free list links to an address outside the arena:
    its link word holds the end pointer with the allocation flag set.
    The walk along the list never reaches the end sentinel. *)
Lemma free_list_broken_by_wrapped_request :
  reachable LP64 any_size wrapped [6296016] /\
  mem wrapped (xStart_addr LP64) = 6296008 /\
  mem wrapped 6296008 = pxEnd wrapped + heapBLOCK_ALLOCATED_BITMASK LP64 /\
  free_list LP64 wrapped = None /\
  ~ free_list_ordered LP64 wrapped.
Proof.
  split; [exact wrapped_reachable|].
  split; [vm_compute; reflexivity|].
  split; [vm_compute; reflexivity|].
  assert (E : free_list LP64 wrapped = None) by (vm_compute; reflexivity).
  split; [exact E|].
  intros (nodes & H & _). rewrite E in H. discriminate.
Qed.

(* ================================================================== *)
(** ** First fit and coalescing on block sequences *)

Section SequenceFacts.
Variable P : platform.
Hypothesis WF : wf_platform P.

Local Abbreviation hdr := (xHeapStructSize P).
Local Abbreviation mn := (heapMINIMUM_BLOCK_SIZE P).

(** First fit takes the first free block that is large enough: every
    free block in front of it is too small. *)
Lemma alloc_abs_first (w : Z) (bl : list block) :
  forall (a blk : Z) (bl' : list block),
    alloc_abs mn w a bl = Some (blk, bl') ->
    exists pre sz post,
      bl = pre ++ (sz, false) :: post /\ blk = a + total pre /\ w <= sz /\
      bl' = pre ++ carve mn w sz ++ post /\
      Forall (fun nd => snd nd < w) (free_nodes a pre).
Proof.
  induction bl as [|[sz [|]] r IH]; intros a blk bl' H; simpl in H.
  - discriminate.
  - destruct (alloc_abs mn w (a + sz) r) as [[p r']|] eqn:E; [|discriminate].
    injection H as <- <-.
    destruct (IH _ _ _ E) as (pre & s0 & post & -> & -> & Hw & -> & Hall).
    exists ((sz, true) :: pre), s0, post. simpl.
    split; [reflexivity|]. split; [lia|]. split; [assumption|]. split; [reflexivity|].
    assumption.
  - destruct (Z.ltb_spec sz w).
    + destruct (alloc_abs mn w (a + sz) r) as [[p r']|] eqn:E; [|discriminate].
      injection H as <- <-.
      destruct (IH _ _ _ E) as (pre & s0 & post & -> & -> & Hw & -> & Hall).
      exists ((sz, false) :: pre), s0, post. simpl.
      split; [reflexivity|]. split; [lia|]. split; [assumption|]. split; [reflexivity|].
      constructor; assumption.
    + injection H as <- <-. exists [], sz, r. simpl.
      split; [reflexivity|]. split; [lia|]. split; [assumption|]. split; [reflexivity|].
      constructor.
Qed.

(** First fit fails only when every free block is too small. *)
Lemma alloc_abs_none_small (w : Z) (bl : list block) :
  forall a, alloc_abs mn w a bl = None ->
            Forall (fun nd => snd nd < w) (free_nodes a bl).
Proof.
  induction bl as [|[sz [|]] r IH]; intros a H; simpl in *.
  - constructor.
  - destruct (alloc_abs mn w (a + sz) r) as [[p r']|] eqn:E; [discriminate|]. auto.
  - destruct (Z.ltb_spec sz w); [|discriminate].
    destruct (alloc_abs mn w (a + sz) r) as [[p r']|] eqn:E; [discriminate|].
    constructor; auto.
Qed.

Lemma free_nodes_total (a : Z) (bl : list block) :
  sum_list (map snd (free_nodes a bl)) = free_total bl.
Proof.
  revert a; induction bl as [|[sz [|]] r IH]; intros a; simpl; auto.
  now rewrite IH.
Qed.

Lemma sum_list_app (l1 l2 : list Z) : sum_list (l1 ++ l2) = sum_list l1 + sum_list l2.
Proof. induction l1; simpl; lia. Qed.

(** In front of a free block the sequence is empty or ends in an
    allocated block. *)
Lemma no_adj_before_free (pre post : list block) (sz : Z) :
  no_adj (pre ++ (sz, false) :: post) ->
  (forall x, merge_back pre x = (pre, x)) /\ head_used post.
Proof.
  intros Hn. apply no_adj_free in Hn. destruct Hn as (Hn & Hh & _).
  split; [|assumption]. intros x.
  destruct (merge_back_cases pre x) as [[E _] | (q & s & -> & _)]; [assumption|].
  exfalso. rewrite <- app_assoc in Hn. simpl in Hn.
  apply no_adj_free in Hn. destruct Hn as (_ & Hh' & _). exact Hh'.
Qed.

(** Freeing the block that first fit has just handed out gives back the
    sequence from before. *)
Lemma coalesce_carve (pre post : list block) (w sz : Z) :
  no_adj (pre ++ (sz, false) :: post) -> w <= sz ->
  match carve mn w sz with
  | [(u, _)] => coalesce pre u post
  | (u, _) :: rest => coalesce pre u (rest ++ post)
  | [] => []
  end = pre ++ (sz, false) :: post.
Proof.
  intros Hn Hw. destruct (no_adj_before_free _ _ _ Hn) as [Hb Hh].
  unfold carve. destruct (mn <? sz - w); unfold coalesce; rewrite Hb; cbn.
  - replace (w + (sz - w)) with sz by lia. reflexivity.
  - destruct (merge_fwd_cases sz post) as [[-> _] | (n & r & -> & _)];
      [reflexivity | contradiction].
Qed.

(** A sequence without allocated blocks and without two free neighbours
    is at most one free block. *)
Lemma all_free_single (h a : Z) (bl : list block) :
  used_ptrs h a bl = [] -> no_adj bl -> bl = [] \/ exists sz, bl = [(sz, false)].
Proof.
  destruct bl as [|[sz [|]] r]; simpl; intros Hu Hn.
  - now left.
  - discriminate.
  - right. exists sz. destruct Hn as [Hh _].
    destruct r as [|[sz' [|]] r']; simpl in *; [reflexivity | discriminate | contradiction].
Qed.

(** Free blocks are separated by allocated ones, so there is at most one
    more of them. *)
Lemma free_nodes_count (h a : Z) (bl : list block) :
  no_adj bl ->
  (length (free_nodes a bl) <= length (used_ptrs h a bl) + 1)%nat /\
  (head_used bl -> (length (free_nodes a bl) <= length (used_ptrs h a bl))%nat).
Proof.
  revert a; induction bl as [|[sz [|]] r IH]; intros a Hn; simpl in *.
  - split; intros; lia.
  - destruct (IH (a + sz) Hn) as [H1 _]. split; intros; lia.
  - destruct Hn as [Hh Hn]. destruct (IH (a + sz) Hn) as [_ H2].
    specialize (H2 Hh). split; [lia | contradiction].
Qed.

End SequenceFacts.

(* ================================================================== *)
(** ** Reasoning about runs, call by call *)

Section FittingCalls.
Variable P : platform.
Hypothesis WF : wf_platform P.

Local Abbreviation pb := (ptr_bytes P).
Local Abbreviation hdr := (xHeapStructSize P).
Local Abbreviation e := (uxEndAddress P).
Local Abbreviation st := (uxStartAddress P).
Local Abbreviation mn := (heapMINIMUM_BLOCK_SIZE P).

Lemma end_not_null : e <> NULL.
Proof. pose proof (end_small P WF). unfold NULL. lia. Qed.

Lemma heap_inv_initialised (s : heap) (bl : list block) :
  heap_inv P s bl -> pxEnd s <> NULL.
Proof. intros H. rewrite (inv_end _ _ _ H). apply end_not_null. Qed.

Lemma pvPortMalloc_initialised (s : heap) (n : Z) :
  pxEnd s <> NULL -> pvPortMalloc P s n = malloc_body P s (wanted_size P n).
Proof.
  intros H. unfold pvPortMalloc.
  destruct (Z.eqb_spec (pxEnd s) NULL); [contradiction | reflexivity].
Qed.

(** The first call behaves like a call on the freshly initialised
    heap. *)
Lemma pvPortMalloc_first (n : Z) :
  exists s1,
    prvHeapInit P heap0 = Some s1 /\
    heap_inv P s1 [(usable_size P, false)] /\
    xMinimumEverFreeBytesRemaining s1 = usable_size P /\
    xNumberOfSuccessfulAllocations s1 = 0 /\
    xNumberOfSuccessfulFrees s1 = 0 /\
    pvPortMalloc P heap0 n = pvPortMalloc P s1 n.
Proof.
  destruct (prvHeapInit_spec P WF heap0) as (s1 & E & Hinv & Hmin & Ha & Hf).
  exists s1. repeat (split; [assumption|]).
  rewrite (pvPortMalloc_initialised s1) by (eapply heap_inv_initialised; eauto).
  unfold pvPortMalloc. simpl pxEnd. now rewrite Z.eqb_refl, E.
Qed.

(** The two outcomes of a call on a well-formed heap. *)
Lemma malloc_cases (s : heap) (bl : list block) (n : Z) (s' : heap) (r : Z) :
  heap_inv P s bl -> 0 <= n < modulus P -> fits_header P n ->
  pvPortMalloc P s n = Some (s', r) ->
  (r = NULL /\ s' = s /\
   (wanted_size P n = 0 \/ alloc_abs mn (wanted_size P n) st bl = None)) \/
  (exists blk bl',
      hdr <= wanted_size P n /\
      alloc_abs mn (wanted_size P n) st bl = Some (blk, bl') /\
      r = blk + hdr /\ r <> NULL /\ st <= blk /\
      heap_inv P s' bl' /\
      xMinimumEverFreeBytesRemaining s' =
        (if xFreeBytesRemaining s' <? xMinimumEverFreeBytesRemaining s
         then xFreeBytesRemaining s' else xMinimumEverFreeBytesRemaining s) /\
      xNumberOfSuccessfulAllocations s' = wrap P (xNumberOfSuccessfulAllocations s + 1) /\
      xNumberOfSuccessfulFrees s' = xNumberOfSuccessfulFrees s).
Proof.
  intros Hinv Hn Hfit Hc.
  pose proof (hdr_pos P WF) as (Hh & _ & _).
  pose proof (start_facts P WF) as [Hst _]. pose proof (wf_heap_pos P WF) as Hhp.
  pose proof (wanted_size_range P WF n Hn) as Hwr.
  pose proof (wanted_size_mod8 P WF n (proj1 Hn)) as Hw8.
  rewrite pvPortMalloc_initialised in Hc by (eapply heap_inv_initialised; eauto).
  destruct Hfit as [Hz | Hbig].
  - rewrite malloc_body_refuses in Hc by (left; assumption).
    injection Hc as <- <-. left. auto.
  - pose proof (malloc_body_spec P WF s bl _ Hinv Hbig Hw8 (proj2 Hwr)) as Hspec.
    destruct (alloc_abs mn (wanted_size P n) st bl) as [[blk bl']|] eqn:Ea.
    + destruct Hspec as (s2 & E2 & Hinv2 & Hmin & Hal & Hfr & _).
      rewrite E2 in Hc. injection Hc as <- <-. right. exists blk, bl'.
      destruct (alloc_abs_first P _ _ _ _ _ Ea) as (pre & sz & post & -> & -> & _).
      pose proof (inv_seg _ _ _ Hinv) as (_ & _ & _ & Hok).
      apply Forall_app in Hok. destruct Hok as [Hok _].
      pose proof (total_nonneg P WF pre Hok).
      repeat (split; [first [assumption | reflexivity | unfold NULL; lia]|]).
      assumption.
    + rewrite Hspec in Hc. injection Hc as <- <-. left. auto.
Qed.

(** An induction principle for runs whose requests fit a header: a
    property of initialised states holds throughout a run when the
    initialisation establishes it and every successful allocation and
    every free of a held pointer preserves it. *)
Lemma fitting_run_ind (Q : heap -> list Z -> Prop) :
  (forall s1, prvHeapInit P heap0 = Some s1 ->
              heap_inv P s1 [(usable_size P, false)] ->
              xMinimumEverFreeBytesRemaining s1 = usable_size P ->
              xNumberOfSuccessfulAllocations s1 = 0 ->
              xNumberOfSuccessfulFrees s1 = 0 ->
              Q s1 []) ->
  (forall s bl live n blk bl' s',
      heap_inv P s bl -> Permutation live (used_ptrs hdr st bl) -> Q s live ->
      0 <= n < modulus P -> hdr <= wanted_size P n ->
      alloc_abs mn (wanted_size P n) st bl = Some (blk, bl') ->
      pvPortMalloc P s n = Some (s', blk + hdr) ->
      heap_inv P s' bl' ->
      xMinimumEverFreeBytesRemaining s' =
        (if xFreeBytesRemaining s' <? xMinimumEverFreeBytesRemaining s
         then xFreeBytesRemaining s' else xMinimumEverFreeBytesRemaining s) ->
      xNumberOfSuccessfulAllocations s' = wrap P (xNumberOfSuccessfulAllocations s + 1) ->
      xNumberOfSuccessfulFrees s' = xNumberOfSuccessfulFrees s ->
      Q s' ((blk + hdr) :: live)) ->
  (forall s pre sz post live s',
      heap_inv P s (pre ++ (sz, true) :: post) ->
      Permutation live (used_ptrs hdr st (pre ++ (sz, true) :: post)) -> Q s live ->
      vPortFree P s (st + total pre + hdr) = Ok s' ->
      heap_inv P s' (coalesce pre sz post) ->
      xFreeBytesRemaining s' = xFreeBytesRemaining s + sz ->
      xMinimumEverFreeBytesRemaining s' = xMinimumEverFreeBytesRemaining s ->
      xNumberOfSuccessfulAllocations s' = xNumberOfSuccessfulAllocations s ->
      xNumberOfSuccessfulFrees s' = wrap P (xNumberOfSuccessfulFrees s + 1) ->
      Q s' (remove_one (st + total pre + hdr) live)) ->
  forall s live,
    reachable P (fits_header P) s live ->
    (s = heap0 /\ live = []) \/ (pxEnd s <> NULL /\ Q s live).
Proof.
  intros Hinit Halloc Hfree.
  assert (Hstep : forall s bl live n s' r,
             heap_inv P s bl -> Permutation live (used_ptrs hdr st bl) -> Q s live ->
             0 <= n < modulus P -> fits_header P n ->
             pvPortMalloc P s n = Some (s', r) ->
             pxEnd s' <> NULL /\ Q s' (if r =? NULL then live else r :: live)).
  { intros s bl live n s' r Hinv Hperm HQ Hn Hfit Hc.
    destruct (malloc_cases s bl n s' r Hinv Hn Hfit Hc)
      as [(-> & -> & _) | (blk & bl' & Hbig & Ea & -> & Hnz & _ & Hinv' & Hmin & Hal & Hfr)].
    - split; [eapply heap_inv_initialised; eauto | exact HQ].
    - split; [eapply heap_inv_initialised; eauto|].
      destruct (Z.eqb_spec (blk + hdr) NULL); [contradiction|].
      apply (Halloc s bl live n blk bl' s'); assumption. }
  induction 1 as [|s live n s' r Hr IH Hn Hfit Hc|s live pv s' Hr IH Hpv Hf].
  - now left.
  - right. destruct (reachable_heap_ok P WF _ _ Hr) as [[-> ->] | (bl & Hinv & Hperm)].
    + destruct (pvPortMalloc_first n) as (s1 & E & Hinv & Hmin & Ha & Hfr & Hc1).
      rewrite Hc1 in Hc.
      eapply (Hstep s1 _ [] n); eauto; simpl; constructor.
    + destruct IH as [[-> _] | [_ HQ]].
      * pose proof (inv_end _ _ _ Hinv) as E. simpl in E.
        pose proof end_not_null. congruence.
      * eapply Hstep; eauto.
  - destruct (reachable_heap_ok P WF _ _ Hr) as [[-> ->] | (bl & Hinv & Hperm)].
    + left. destruct Hpv as [-> | []]. simpl in Hf. injection Hf as <-. auto.
    + right. destruct IH as [[-> _] | [Hinit' HQ]].
      * pose proof (inv_end _ _ _ Hinv) as E. simpl in E.
        pose proof end_not_null. congruence.
      * destruct (in_dec Z.eq_dec pv live) as [Hin | Hnin].
        -- assert (Hin' : In pv (used_ptrs hdr st bl)) by (eapply Permutation_in; eauto).
           destruct (used_ptrs_split _ _ _ _ Hin') as (pre & sz & post & -> & ->).
           destruct (vPortFree_spec P WF s pre post sz Hinv)
             as (s2 & E2 & Hinv2 & H3 & H4 & H5 & H6 & _).
           rewrite E2 in Hf. injection Hf as <-.
           split; [eapply heap_inv_initialised; eauto|].
           apply (Hfree s pre sz post live s2); assumption.
        -- destruct Hpv as [-> | ?]; [|contradiction].
           simpl in Hf. injection Hf as <-.
           rewrite remove_one_absent by assumption. auto.
Qed.

(** Initialised states of such runs are well-formed heaps. *)
Lemma reachable_heap_inv (s : heap) (live : list Z) :
  reachable P (fits_header P) s live -> pxEnd s <> NULL ->
  exists bl, heap_inv P s bl /\ Permutation live (used_ptrs hdr st bl).
Proof.
  intros Hr Hinit.
  destruct (reachable_heap_ok P WF _ _ Hr) as [[-> _] | H]; [now elim Hinit | exact H].
Qed.

End FittingCalls.

(* ================================================================== *)
(** ** Properties of the allocator in use *)

(** X1. prvHeapInit prepares the arena from any state.  It returns with
    the end pointer set, the free list holding one block that spans the
    arena from the aligned start to the end sentinel, and both the
    free-byte counter and the watermark equal to the size of that block;
    the two call counters are untouched.  The start and the end address
    are multiples of 8, the end sentinel's header lies inside ucHeap, and
    the arena has lost at most 14 bytes to alignment besides the
    sentinel's header. *)
Theorem init_establishes_arena (P : platform) (s : heap) :
  wf_platform P ->
  exists s1,
    prvHeapInit P s = Some s1 /\
    pxEnd s1 = uxEndAddress P /\
    free_list P s1 =
      Some [(uxStartAddress P, usable_size P); (uxEndAddress P, 0)] /\
    xPortGetFreeHeapSize s1 = usable_size P /\
    xPortGetMinimumEverFreeHeapSize s1 = usable_size P /\
    xNumberOfSuccessfulAllocations s1 = xNumberOfSuccessfulAllocations s /\
    xNumberOfSuccessfulFrees s1 = xNumberOfSuccessfulFrees s /\
    ucHeap P <= uxStartAddress P /\
    uxStartAddress P mod portBYTE_ALIGNMENT = 0 /\
    uxEndAddress P mod portBYTE_ALIGNMENT = 0 /\
    uxEndAddress P + xHeapStructSize P <= ucHeap P + configTOTAL_HEAP_SIZE /\
    configTOTAL_HEAP_SIZE - xHeapStructSize P - 14 <= usable_size P
      <= configTOTAL_HEAP_SIZE - xHeapStructSize P.
Proof.
  intros WF.
  destruct (prvHeapInit_spec P WF s) as (s1 & E & Hinv & Hmin & Ha & Hf).
  pose proof (start_facts P WF) as [Hst Hst8].
  pose proof (end_facts P WF) as [Hen Hen8].
  exists s1. split; [assumption|]. split; [apply (inv_end _ _ _ Hinv)|].
  split.
  { rewrite (free_list_of_heap P WF _ _ Hinv), (inv_end _ _ _ Hinv). reflexivity. }
  split; [unfold xPortGetFreeHeapSize; rewrite (inv_free _ _ _ Hinv); simpl; lia|].
  split; [assumption|]. split; [assumption|]. split; [assumption|].
  unfold portBYTE_ALIGNMENT, usable_size.
  repeat split; try assumption; lia.
Qed.

Lemma init_establishes_arena_witness :
  exists s1, prvHeapInit LP64 heap0 = Some s1 /\
             xPortGetFreeHeapSize s1 = usable_size LP64.
Proof.
  destruct (init_establishes_arena LP64 heap0 LP64_wf) as (s1 & H1 & _ & _ & H2 & _).
  exists s1. split; assumption.
Defined.

(** X2. The public calls return.  In a run whose requests fit a header,
    every further such request makes pvPortMalloc return, with a pointer
    or with NULL; vPortFree returns normally for every pointer the client
    holds and for NULL, which it ignores.  Neither the search loop of
    pvPortMalloc nor the insertion loop of prvInsertBlockIntoFreeList
    runs off the list. *)
Theorem calls_return (P : platform) (s : heap) (live : list Z) :
  wf_platform P -> reachable P (fits_header P) s live ->
  (forall n, 0 <= n < modulus P -> fits_header P n ->
             exists s' r, pvPortMalloc P s n = Some (s', r)) /\
  (forall pv, In pv live -> exists s', vPortFree P s pv = Ok s') /\
  vPortFree P s NULL = Ok s.
Proof.
  intros WF Hr. split; [|split; [|reflexivity]].
  - intros n Hn Hfit.
    assert (Hs : forall s1 bl, heap_inv P s1 bl ->
                               exists s' r, pvPortMalloc P s1 n = Some (s', r)).
    { intros s1 bl Hinv. destruct Hfit as [Hz | Hbig].
      - exists s1, NULL.
        rewrite (pvPortMalloc_initialised P s1)
          by (eapply heap_inv_initialised; eauto).
        apply malloc_body_refuses. now left.
      - pose proof (malloc_step P WF s1 bl n Hinv Hn Hbig) as Hstep.
        destruct (alloc_abs (heapMINIMUM_BLOCK_SIZE P) (wanted_size P n)
                            (uxStartAddress P) bl) as [[blk bl']|].
        + destruct Hstep as (s' & E & _). eauto.
        + eauto. }
    destruct (reachable_heap_ok P WF _ _ Hr) as [[-> ->] | (bl & Hinv & _)].
    + destruct (pvPortMalloc_first P WF n) as (s1 & _ & Hinv & _ & _ & _ & Hc).
      rewrite Hc. eapply Hs; eauto.
    + eapply Hs; eauto.
  - intros pv Hin.
    destruct (reachable_heap_ok P WF _ _ Hr) as [[_ ->] | (bl & Hinv & Hperm)];
      [destruct Hin|].
    assert (Hin' : In pv (used_ptrs (xHeapStructSize P) (uxStartAddress P) bl))
      by (eapply Permutation_in; eauto).
    destruct (used_ptrs_split _ _ _ _ Hin') as (pre & sz & post & -> & ->).
    destruct (free_step P WF s pre post sz Hinv) as (s' & E & _). eauto.
Qed.

Lemma calls_return_witness :
  exists s' r, pvPortMalloc LP64 demo_a 100 = Some (s', r).
Proof.
  apply (proj1 (calls_return LP64 demo_a _ LP64_wf demo_a_reachable) 100).
  - vm_compute. split; [discriminate | reflexivity].
  - right. vm_compute. discriminate.
Defined.

(** X3. The free-byte counter is the sum of the sizes of the blocks on
    the free list, at every point of a run whose requests fit a header. *)
Theorem free_counter_matches_list (P : platform) (s : heap) (live : list Z) :
  wf_platform P -> reachable P (fits_header P) s live -> pxEnd s <> NULL ->
  exists nodes,
    free_list P s = Some nodes /\
    xPortGetFreeHeapSize s = sum_list (map snd nodes).
Proof.
  intros WF Hr Hinit.
  destruct (reachable_heap_inv P WF s live Hr Hinit) as (bl & Hinv & _).
  eexists. split; [apply (free_list_of_heap P WF _ _ Hinv)|].
  rewrite map_app, sum_list_app, free_nodes_total. simpl.
  unfold xPortGetFreeHeapSize. rewrite (inv_free _ _ _ Hinv). lia.
Qed.

Lemma demo_a_initialised : pxEnd demo_a <> NULL.
Proof. vm_compute. discriminate. Defined.

Lemma free_counter_matches_list_witness :
  exists nodes,
    free_list LP64 demo_a = Some nodes /\
    xPortGetFreeHeapSize demo_a = sum_list (map snd nodes).
Proof.
  exact (free_counter_matches_list LP64 demo_a _ LP64_wf demo_a_reachable
           demo_a_initialised).
Defined.

(** X4. When the client holds no pointer any more, the arena is back in
    its initial shape: the free list is the single block that spans the
    arena, and the free-byte counter is the usable size.  Whatever was
    allocated and freed before, nothing is lost and nothing stays
    fragmented. *)
Theorem full_release_restores_arena (P : platform) (s : heap) :
  wf_platform P -> reachable P (fits_header P) s [] -> pxEnd s <> NULL ->
  free_list P s = Some [(uxStartAddress P, usable_size P); (pxEnd s, 0)] /\
  xPortGetFreeHeapSize s = usable_size P.
Proof.
  intros WF Hr Hinit.
  destruct (reachable_heap_inv P WF s [] Hr Hinit) as (bl & Hinv & Hperm).
  apply Permutation_nil in Hperm.
  pose proof (usable_bounds P WF) as Hub. unfold usable_size in *.
  pose proof (inv_total _ _ _ Hinv) as Htot.
  destruct (all_free_single _ _ _ Hperm (inv_no_adj _ _ _ Hinv)) as [-> | [sz ->]].
  - simpl in Htot. lia.
  - simpl in Htot. assert (sz = uxEndAddress P - uxStartAddress P) as -> by lia.
    split.
    + now rewrite (free_list_of_heap P WF _ _ Hinv).
    + unfold xPortGetFreeHeapSize. rewrite (inv_free _ _ _ Hinv). simpl. lia.
Qed.

Definition demo_f : heap := freed (vPortFree LP64 demo1 6296016).

Lemma demo_f_reachable : reachable LP64 (fits_header LP64) demo_f [].
Proof.
  refine (reach_free LP64 _ demo1 [6296016] 6296016 demo_f
            (demo1_reachable _ fits_header_10) _ _);
    [right; simpl; tauto | run_free].
Defined.

Lemma demo_f_initialised : pxEnd demo_f <> NULL.
Proof. vm_compute. discriminate. Defined.

Lemma full_release_restores_arena_witness :
  free_list LP64 demo_f = Some [(uxStartAddress LP64, usable_size LP64); (pxEnd demo_f, 0)] /\
  xPortGetFreeHeapSize demo_f = usable_size LP64.
Proof.
  exact (full_release_restores_arena LP64 demo_f LP64_wf demo_f_reachable
           demo_f_initialised).
Defined.

Section Counting.
Variable P : platform.
Hypothesis WF : wf_platform P.

Lemma wrap_succ (x : Z) : exists k, wrap P (x + 1) = x + 1 + k * modulus P.
Proof.
  pose proof (modulus_pos P WF). unfold wrap.
  exists (- ((x + 1) / modulus P)).
  pose proof (Z.div_mod (x + 1) (modulus P)). lia.
Qed.

Lemma remove_one_length (p : Z) (l : list Z) :
  In p l -> S (length (remove_one p l)) = length l.
Proof.
  induction l as [|q r IH]; simpl; [tauto|].
  destruct (Z.eqb_spec q p) as [-> | Hne]; [reflexivity|].
  intros [? | Hin]; [contradiction|]. simpl. now rewrite IH.
Qed.

End Counting.

(** X5. The two call counters account for the pointers the client
    holds: in a run whose requests fit a header, the number of successful
    allocations minus the number of successful frees is, modulo the word
    size, the number of live pointers.  A failed or zero-size request and
    a free of NULL count as neither. *)
Theorem counters_track_live (P : platform) (s : heap) (live : list Z) :
  wf_platform P -> reachable P (fits_header P) s live ->
  (xNumberOfSuccessfulAllocations s - xNumberOfSuccessfulFrees s
   - Z.of_nat (length live)) mod modulus P = 0.
Proof.
  intros WF Hr.
  pose proof (modulus_pos P WF) as Hm.
  destruct (fitting_run_ind P WF
              (fun s live =>
                 (xNumberOfSuccessfulAllocations s - xNumberOfSuccessfulFrees s
                  - Z.of_nat (length live)) mod modulus P = 0)) with (s := s) (live := live)
    as [[-> ->] | [_ H]]; auto.
  - intros s1 _ _ _ Ha Hf. rewrite Ha, Hf. reflexivity.
  - intros s0 bl l n blk bl' s' _ _ IH _ _ _ _ _ _ Ha Hf.
    rewrite Ha, Hf. destruct (wrap_succ P WF (xNumberOfSuccessfulAllocations s0)) as [k ->].
    simpl length. rewrite Nat2Z.inj_succ.
    replace (xNumberOfSuccessfulAllocations s0 + 1 + k * modulus P
             - xNumberOfSuccessfulFrees s0 - Z.succ (Z.of_nat (length l)))
      with (xNumberOfSuccessfulAllocations s0 - xNumberOfSuccessfulFrees s0
            - Z.of_nat (length l) + k * modulus P) by lia.
    now rewrite Z_mod_plus_full.
  - intros s0 pre sz post l s' _ Hperm IH _ _ _ _ Ha Hf.
    assert (Hin : In (uxStartAddress P + total pre + xHeapStructSize P) l).
    { eapply Permutation_in; [symmetry; exact Hperm|].
      rewrite used_ptrs_app. apply in_or_app. right. now left. }
    pose proof (remove_one_length _ _ Hin) as Hlen.
    rewrite Ha, Hf. destruct (wrap_succ P WF (xNumberOfSuccessfulFrees s0)) as [k ->].
    replace (xNumberOfSuccessfulAllocations s0
             - (xNumberOfSuccessfulFrees s0 + 1 + k * modulus P)
             - Z.of_nat (length (remove_one (uxStartAddress P + total pre
                                             + xHeapStructSize P) l)))
      with (xNumberOfSuccessfulAllocations s0 - xNumberOfSuccessfulFrees s0
            - Z.of_nat (length l) + (- k) * modulus P) by lia.
    now rewrite Z_mod_plus_full.
Qed.

Lemma counters_track_live_witness :
  (xNumberOfSuccessfulAllocations demo_a - xNumberOfSuccessfulFrees demo_a
   - 2) mod modulus LP64 = 0.
Proof.
  exact (counters_track_live LP64 demo_a _ LP64_wf demo_a_reachable).
Defined.

Section WatermarkFacts.
Variable P : platform.
Hypothesis WF : wf_platform P.

Lemma free_bytes_bounds (s : heap) (bl : list block) :
  heap_inv P s bl -> 0 <= xFreeBytesRemaining s <= usable_size P.
Proof.
  intros Hinv. rewrite (inv_free _ _ _ Hinv).
  pose proof (inv_seg _ _ _ Hinv) as (_ & _ & _ & Hok).
  pose proof (free_total_nonneg P WF bl Hok).
  pose proof (used_total_nonneg P WF bl Hok).
  pose proof (total_split bl). pose proof (inv_total _ _ _ Hinv).
  unfold usable_size. lia.
Qed.

(** The watermark never exceeds the free bytes. *)
Lemma watermark_below_free (s : heap) (live : list Z) :
  reachable P (fits_header P) s live -> pxEnd s <> NULL ->
  0 <= xMinimumEverFreeBytesRemaining s <= xFreeBytesRemaining s.
Proof.
  intros Hr Hinit.
  destruct (fitting_run_ind P WF
              (fun s live =>
                 0 <= xMinimumEverFreeBytesRemaining s <= xFreeBytesRemaining s))
    with (s := s) (live := live) as [[-> _] | [_ H]]; auto.
  - intros s1 _ Hinv Hmin _ _. pose proof (free_bytes_bounds _ _ Hinv) as Hb.
    rewrite Hmin. rewrite (inv_free _ _ _ Hinv) in *. simpl in *. lia.
  - intros s0 bl l n blk bl' s' _ _ IH _ _ _ _ Hinv' Hmin _ _.
    pose proof (free_bytes_bounds _ _ Hinv'). rewrite Hmin.
    destruct (Z.ltb_spec (xFreeBytesRemaining s') (xMinimumEverFreeBytesRemaining s0)); lia.
  - intros s0 pre sz post l s' Hinv _ IH _ _ Hf Hmin _ _.
    pose proof (inv_seg _ _ _ Hinv) as (_ & _ & _ & Hok).
    apply Forall_app in Hok. destruct Hok as [_ Hok].
    apply Forall_cons_iff in Hok. destruct Hok as [[Hb _] _]. simpl in Hb.
    pose proof (hdr_pos P WF) as (Hh & _ & _). rewrite Hf, Hmin. lia.
  - now elim Hinit.
Qed.

End WatermarkFacts.

(** X6. The watermark is the running minimum of the free-byte counter.
    At every point of a run whose requests fit a header, once the arena
    is initialised, 0 <= minimum ever free <= free <= usable size; and
    after the next call, be it a pvPortMalloc that succeeds or fails or
    a vPortFree of a pointer the client holds, the watermark is the
    smaller of its old value and the new free-byte count. *)
Theorem watermark_is_running_minimum (P : platform) (s : heap) (live : list Z) :
  wf_platform P -> reachable P (fits_header P) s live -> pxEnd s <> NULL ->
  (0 <= xPortGetMinimumEverFreeHeapSize s /\
   xPortGetMinimumEverFreeHeapSize s <= xPortGetFreeHeapSize s /\
   xPortGetFreeHeapSize s <= usable_size P) /\
  (forall n s' r,
      0 <= n < modulus P -> fits_header P n ->
      pvPortMalloc P s n = Some (s', r) ->
      xPortGetMinimumEverFreeHeapSize s' =
      Z.min (xPortGetMinimumEverFreeHeapSize s) (xPortGetFreeHeapSize s')) /\
  (forall pv s',
      In pv live -> vPortFree P s pv = Ok s' ->
      xPortGetMinimumEverFreeHeapSize s' =
      Z.min (xPortGetMinimumEverFreeHeapSize s) (xPortGetFreeHeapSize s')).
Proof.
  intros WF Hr Hinit.
  unfold xPortGetMinimumEverFreeHeapSize, xPortGetFreeHeapSize.
  pose proof (watermark_below_free P WF s live Hr Hinit) as Hlow.
  destruct (reachable_heap_inv P WF s live Hr Hinit) as (bl & Hinv & Hperm).
  pose proof (free_bytes_bounds P WF _ _ Hinv) as Hfb.
  split; [lia|]. split.
  - intros n s' r Hn Hfit Hc.
    destruct (malloc_cases P WF s bl n s' r Hinv Hn Hfit Hc)
      as [(_ & -> & _) | (blk & bl' & _ & _ & _ & _ & _ & _ & Hmin & _)].
    + lia.
    + rewrite Hmin.
      destruct (Z.ltb_spec (xFreeBytesRemaining s') (xMinimumEverFreeBytesRemaining s)); lia.
  - intros pv s' Hin Hf.
    assert (Hin' : In pv (used_ptrs (xHeapStructSize P) (uxStartAddress P) bl))
      by (eapply Permutation_in; eauto).
    destruct (used_ptrs_split _ _ _ _ Hin') as (pre & sz & post & -> & ->).
    destruct (vPortFree_spec P WF s pre post sz Hinv)
      as (s2 & E2 & Hinv2 & Hfree & Hmin & _).
    rewrite E2 in Hf. injection Hf as <-.
    pose proof (inv_seg _ _ _ Hinv) as (_ & _ & _ & Hok).
    apply Forall_app in Hok. destruct Hok as [_ Hok].
    apply Forall_cons_iff in Hok. destruct Hok as [[Hb _] _]. simpl in Hb.
    pose proof (hdr_pos P WF) as (Hh & _ & _). rewrite Hfree, Hmin. lia.
Qed.

Lemma watermark_is_running_minimum_witness :
  0 <= xPortGetMinimumEverFreeHeapSize demo_a /\
  xPortGetMinimumEverFreeHeapSize demo_a <= xPortGetFreeHeapSize demo_a /\
  xPortGetFreeHeapSize demo_a <= usable_size LP64.
Proof.
  exact (proj1 (watermark_is_running_minimum LP64 demo_a _ LP64_wf demo_a_reachable
                  demo_a_initialised)).
Defined.

Section Extents.
Variable P : platform.
Hypothesis WF : wf_platform P.

Local Abbreviation pb := (ptr_bytes P).
Local Abbreviation hdr := (xHeapStructSize P).

(** The allocated blocks of a sequence, read through their headers, lie
    one behind the other. *)
Lemma used_blocks_apart (s : heap) (bl : list block) :
  forall a,
    seg_ok P a bl -> useg P (mem s) a bl ->
    Forall (fun p => a + hdr <= p /\ hdr <= block_size_of P s p /\
                     p - hdr + block_size_of P s p <= a + total bl)
           (used_ptrs hdr a bl) /\
    NoDup (used_ptrs hdr a bl) /\
    (forall p q, In p (used_ptrs hdr a bl) -> In q (used_ptrs hdr a bl) -> p < q ->
                 p - hdr + block_size_of P s p <= q - hdr).
Proof.
  pose proof (bitmask_big P WF) as Hbm. pose proof (usable_bounds P WF) as Hub.
  pose proof (hdr_pos P WF) as (Hh & _ & _). unfold usable_size in Hub.
  induction bl as [|[sz [|]] r IH]; intros a Hs Hu; simpl.
  - split; [constructor|]. split; [constructor | tauto].
  - destruct (seg_ok_cons P WF _ _ _ Hs) as ([Ha _] & Hr & [Hb _]). simpl in Hr, Hb.
    destruct Hu as (U1 & _ & U3).
    destruct (IH _ Hr U3) as (F & N & A).
    pose proof Hr as (_ & _ & R3 & R4). pose proof (total_nonneg P WF r R4) as Ht.
    assert (Esz : block_size_of P s (a + hdr) = sz).
    { unfold block_size_of. replace (a + hdr - hdr + pb) with (a + pb) by lia.
      rewrite U1. apply (free_marked P WF). lia. }
    rewrite Forall_forall in F.
    split; [|split].
    + constructor; [rewrite Esz; lia|].
      rewrite Forall_forall. intros p Hp. specialize (F p Hp). lia.
    + constructor; [|assumption]. intros Hin. specialize (F _ Hin). lia.
    + intros p q [<- | Hp] [<- | Hq] Hlt.
      * lia.
      * rewrite Esz. specialize (F _ Hq). lia.
      * specialize (F _ Hp). lia.
      * now apply A.
  - destruct (seg_ok_cons P WF _ _ _ Hs) as (_ & Hr & [Hb _]). simpl in Hr, Hb.
    destruct (IH _ Hr Hu) as (F & N & A).
    split; [|split; assumption].
    rewrite Forall_forall in *. intros p Hp. specialize (F p Hp). lia.
Qed.

End Extents.

(** X7. Live blocks never overlap.  In a run whose requests fit a
    header, the pointers the client holds are pairwise different; the
    block of each, header included, lies inside the arena and is at least
    one header long; and of any two blocks one ends before the other
    begins. *)
Theorem live_blocks_disjoint (P : platform) (s : heap) (live : list Z) :
  wf_platform P -> reachable P (fits_header P) s live ->
  NoDup live /\
  (forall p, In p live ->
             uxStartAddress P <= p - xHeapStructSize P /\
             xHeapStructSize P <= block_size_of P s p /\
             p - xHeapStructSize P + block_size_of P s p <= uxEndAddress P) /\
  (forall p q, In p live -> In q live -> p <> q ->
               p - xHeapStructSize P + block_size_of P s p <= q - xHeapStructSize P \/
               q - xHeapStructSize P + block_size_of P s q <= p - xHeapStructSize P).
Proof.
  intros WF Hr.
  destruct (reachable_heap_ok P WF _ _ Hr) as [[_ ->] | (bl & Hinv & Hperm)].
  - split; [constructor|]. split; intros p; simpl; tauto.
  - destruct (used_blocks_apart P WF s bl _ (inv_seg _ _ _ Hinv) (inv_useg _ _ _ Hinv))
      as (F & N & A).
    rewrite (inv_total _ _ _ Hinv) in F. rewrite Forall_forall in F.
    split; [eapply Permutation_NoDup; [symmetry; exact Hperm | exact N]|].
    split.
    + intros p Hp. specialize (F p (Permutation_in _ Hperm Hp)). lia.
    + intros p q Hp Hq Hne.
      pose proof (Permutation_in _ Hperm Hp) as Hp'.
      pose proof (Permutation_in _ Hperm Hq) as Hq'.
      destruct (Z_lt_ge_dec p q) as [Hlt | Hge].
      * left. now apply A.
      * right. apply A; auto. lia.
Qed.

Lemma live_blocks_disjoint_witness :
  6296192 - xHeapStructSize LP64 + block_size_of LP64 demo_a 6296192
    <= 6296048 - xHeapStructSize LP64 \/
  6296048 - xHeapStructSize LP64 + block_size_of LP64 demo_a 6296048
    <= 6296192 - xHeapStructSize LP64.
Proof.
  apply (proj2 (proj2 (live_blocks_disjoint LP64 demo_a _ LP64_wf demo_a_reachable))).
  - simpl. tauto.
  - simpl. tauto.
  - discriminate.
Defined.

(** X8. vPortFree clears the payload.  After a free of a pointer the
    client holds, every word of the block behind its header reads
    zero. *)
Theorem free_clears_payload (P : platform) (s : heap) (live : list Z) (pv : Z) :
  wf_platform P -> reachable P (fits_header P) s live -> In pv live ->
  exists s',
    vPortFree P s pv = Ok s' /\
    forall x, pv <= x < pv - xHeapStructSize P + block_size_of P s pv ->
              mem s' x = 0.
Proof.
  intros WF Hr Hin.
  destruct (reachable_heap_ok P WF _ _ Hr) as [[_ ->] | (bl & Hinv & Hperm)];
    [destruct Hin|].
  assert (Hin' : In pv (used_ptrs (xHeapStructSize P) (uxStartAddress P) bl))
    by (eapply Permutation_in; eauto).
  destruct (used_ptrs_split _ _ _ _ Hin') as (pre & sz & post & -> & ->).
  destruct (vPortFree_spec_clear P WF s pre post sz Hinv)
    as (s' & E & _ & _ & _ & _ & _ & _ & _ & _ & Hz).
  exists s'. split; [assumption|].
  rewrite (block_size_of_used P WF _ _ _ _ Hinv).
  intros x Hx. apply Hz. lia.
Qed.

Lemma free_clears_payload_witness :
  exists s', vPortFree LP64 demo_a 6296048 = Ok s' /\
             forall x, 6296048 <= x
                         < 6296048 - xHeapStructSize LP64 + block_size_of LP64 demo_a 6296048 ->
                       mem s' x = 0.
Proof.
  apply (free_clears_payload LP64 demo_a _ 6296048 LP64_wf demo_a_reachable).
  simpl. tauto.
Defined.

(** X9. The block size pvPortMalloc computes for a request is the
    request plus one header, rounded up to the next multiple of the
    alignment, as long as that sum does not exceed the word size. *)
Theorem wanted_size_rounds_up (P : platform) (n : Z) :
  wf_platform P -> 0 < n -> n + xHeapStructSize P + 7 < modulus P ->
  wanted_size P n mod portBYTE_ALIGNMENT = 0 /\
  n + xHeapStructSize P <= wanted_size P n < n + xHeapStructSize P + portBYTE_ALIGNMENT.
Proof.
  intros WF Hn Hfit. unfold portBYTE_ALIGNMENT.
  pose proof (wanted_size_exact P WF n Hn Hfit).
  pose proof (wanted_size_mod8 P WF n ltac:(lia)). split; [assumption | lia].
Qed.

Lemma wanted_size_rounds_up_witness :
  wanted_size LP64 50 mod portBYTE_ALIGNMENT = 0 /\
  50 + xHeapStructSize LP64 <= wanted_size LP64 50
     < 50 + xHeapStructSize LP64 + portBYTE_ALIGNMENT.
Proof.
  apply (wanted_size_rounds_up LP64 50 LP64_wf); vm_compute; reflexivity.
Defined.

Section Totals.
Variable P : platform.
Hypothesis WF : wf_platform P.

Lemma heap_inv_conservation (s : heap) (bl : list block) (live : list Z) :
  heap_inv P s bl ->
  Permutation live (used_ptrs (xHeapStructSize P) (uxStartAddress P) bl) ->
  xPortGetFreeHeapSize s + allocated_bytes P s live = usable_size P.
Proof.
  intros Hinv Hperm.
  unfold xPortGetFreeHeapSize, usable_size, allocated_bytes.
  rewrite (inv_free _ _ _ Hinv).
  rewrite (sum_list_perm _ _ (Permutation_map (block_size_of P s) Hperm)).
  fold (allocated_bytes P s (used_ptrs (xHeapStructSize P) (uxStartAddress P) bl)).
  rewrite (allocated_bytes_used P WF s bl _ (inv_seg _ _ _ Hinv) (inv_useg _ _ _ Hinv)).
  pose proof (inv_total _ _ _ Hinv). pose proof (total_split bl). lia.
Qed.

End Totals.

(* ================================================================== *)
(** ** pvPortMalloc on the free list *)

(** Address of the first node whose size is at least [w]. *)
Fixpoint first_fit (w : Z) (nodes : list (Z * Z)) : option Z :=
  match nodes with
  | [] => None
  | (a, sz) :: r => if sz <? w then first_fit w r else Some a
  end.

(** The free list after the first node of size at least [w] has been
    taken: the node is replaced by what is left of it when more than
    [mn] bytes are left, and dropped otherwise. *)
Fixpoint take_fit (mn w : Z) (nodes : list (Z * Z)) : list (Z * Z) :=
  match nodes with
  | [] => []
  | (a, sz) :: r =>
      if sz <? w then (a, sz) :: take_fit mn w r
      else if mn <? sz - w then (a + w, sz - w) :: r else r
  end.

Section FirstFit.
Variable P : platform.
Hypothesis WF : wf_platform P.

Local Abbreviation hdr := (xHeapStructSize P).
Local Abbreviation mn := (heapMINIMUM_BLOCK_SIZE P).

Lemma first_fit_none (w : Z) (bl : list block) (tl : list (Z * Z)) :
  forall a, alloc_abs mn w a bl = None ->
            first_fit w (free_nodes a bl ++ tl) = first_fit w tl.
Proof.
  induction bl as [|[sz [|]] r IH]; intros a H; simpl in *.
  - reflexivity.
  - destruct (alloc_abs mn w (a + sz) r) as [[p r']|] eqn:E; [discriminate|]. auto.
  - destruct (sz <? w); [|discriminate].
    destruct (alloc_abs mn w (a + sz) r) as [[p r']|] eqn:E; [discriminate|]. auto.
Qed.

Lemma first_fit_some (w : Z) (bl : list block) (tl : list (Z * Z)) :
  forall a blk bl',
    alloc_abs mn w a bl = Some (blk, bl') ->
    first_fit w (free_nodes a bl ++ tl) = Some blk /\
    free_nodes a bl' ++ tl = take_fit mn w (free_nodes a bl ++ tl).
Proof.
  induction bl as [|[sz [|]] r IH]; intros a blk bl' H; simpl in H.
  - discriminate.
  - destruct (alloc_abs mn w (a + sz) r) as [[p r']|] eqn:E; [|discriminate].
    injection H as <- <-. simpl. now apply IH.
  - simpl. destruct (sz <? w).
    + destruct (alloc_abs mn w (a + sz) r) as [[p r']|] eqn:E; [|discriminate].
      injection H as <- <-. simpl. destruct (IH _ _ _ E) as [H1 H2].
      split; [assumption|]. now rewrite H2.
    + injection H as <- <-. split; [reflexivity|].
      unfold carve. destruct (mn <? sz - w); simpl.
      * replace (a + w + (sz - w)) with (a + sz) by lia. reflexivity.
      * reflexivity.
Qed.

End FirstFit.

(** X11. pvPortMalloc is first fit with splitting.  On an initialised
    heap of a run whose requests fit a header, a request with block size
    w of at least one header is served from the first node of the free
    list, in address order, whose size is at least w.  When there is
    none the call returns NULL and changes nothing.  Otherwise it
    returns the address behind that node's header; the node leaves the
    free list, and when more than heapMINIMUM_BLOCK_SIZE bytes are left
    over they take its place as a new node w bytes further up; the
    free-byte counter drops by the size of the block handed out. *)
Theorem malloc_is_first_fit (P : platform) (s : heap) (live : list Z) (n : Z)
        (s' : heap) (r : Z) :
  wf_platform P -> reachable P (fits_header P) s live -> pxEnd s <> NULL ->
  0 <= n < modulus P -> xHeapStructSize P <= wanted_size P n ->
  pvPortMalloc P s n = Some (s', r) ->
  exists nodes,
    free_list P s = Some nodes /\
    match first_fit (wanted_size P n) nodes with
    | None => r = NULL /\ s' = s
    | Some a =>
        r = a + xHeapStructSize P /\
        free_list P s' =
          Some (take_fit (heapMINIMUM_BLOCK_SIZE P) (wanted_size P n) nodes) /\
        xPortGetFreeHeapSize s' = xPortGetFreeHeapSize s - block_size_of P s' r
    end.
Proof.
  intros WF Hr Hinit Hn Hbig Hc.
  pose proof (hdr_pos P WF) as (Hh & _ & _).
  destruct (reachable_heap_inv P WF s live Hr Hinit) as (bl & Hinv & _).
  exists (free_nodes (uxStartAddress P) bl ++ [(pxEnd s, 0)]).
  split; [apply (free_list_of_heap P WF _ _ Hinv)|].
  destruct (malloc_cases P WF s bl n s' r Hinv Hn (or_intror Hbig) Hc)
    as [(-> & -> & [Hz | Hnone]) |
        (blk & bl' & _ & Ea & -> & _ & _ & Hinv' & _)].
  - lia.
  - rewrite (first_fit_none P _ _ _ _ Hnone). simpl.
    destruct (Z.ltb_spec 0 (wanted_size P n)); [auto | lia].
  - destruct (first_fit_some P _ _ [(pxEnd s, 0)] _ _ _ Ea) as [-> Ht].
    split; [reflexivity|]. split.
    + rewrite (free_list_of_heap P WF _ _ Hinv'), <- Ht.
      now rewrite (inv_end _ _ _ Hinv), (inv_end _ _ _ Hinv').
    + destruct (alloc_abs_first P _ _ _ _ _ Ea) as (pre & sz & post & -> & -> & Hw & -> & _).
      unfold xPortGetFreeHeapSize.
      rewrite (inv_free _ _ _ Hinv), (inv_free _ _ _ Hinv').
      rewrite !free_total_app. simpl free_total.
      revert Hinv'. unfold carve. destruct (heapMINIMUM_BLOCK_SIZE P <? sz - wanted_size P n);
        cbn [app]; intros Hinv'.
      * rewrite (block_size_of_used P WF _ _ _ _ Hinv'). simpl. lia.
      * rewrite (block_size_of_used P WF _ _ _ _ Hinv'). simpl. lia.
Qed.

Lemma fits_header_100 : xHeapStructSize LP64 <= wanted_size LP64 100.
Proof. vm_compute. discriminate. Defined.

Lemma malloc_is_first_fit_witness :
  exists nodes,
    free_list LP64 demo_a = Some nodes /\
    match first_fit (wanted_size LP64 100) nodes with
    | None => result_of (pvPortMalloc LP64 demo_a 100) = NULL /\
              state_of (pvPortMalloc LP64 demo_a 100) = demo_a
    | Some a =>
        result_of (pvPortMalloc LP64 demo_a 100) = a + xHeapStructSize LP64 /\
        free_list LP64 (state_of (pvPortMalloc LP64 demo_a 100)) =
          Some (take_fit (heapMINIMUM_BLOCK_SIZE LP64) (wanted_size LP64 100) nodes) /\
        xPortGetFreeHeapSize (state_of (pvPortMalloc LP64 demo_a 100)) =
          xPortGetFreeHeapSize demo_a
          - block_size_of LP64 (state_of (pvPortMalloc LP64 demo_a 100))
                          (result_of (pvPortMalloc LP64 demo_a 100))
    end.
Proof.
  apply (malloc_is_first_fit LP64 demo_a _ 100 _ _ LP64_wf demo_a_reachable
           demo_a_initialised).
  - vm_compute. split; [discriminate | reflexivity].
  - exact fits_header_100.
  - apply returned_eq. vm_compute. reflexivity.
Defined.

(** X12. What a successful allocation hands out.  For a request of n
    bytes whose block size does not wrap, in a run whose requests fit a
    header, a non-NULL result points to a block that lies inside the
    arena, whose size is the computed block size or exceeds it by at
    most heapMINIMUM_BLOCK_SIZE, and whose payload therefore holds at
    least n bytes, all of them inside ucHeap. *)
Theorem allocated_block_fits (P : platform) (s : heap) (live : list Z) (n : Z)
        (s' : heap) (r : Z) :
  wf_platform P -> reachable P (fits_header P) s live ->
  0 < n -> n + xHeapStructSize P + 7 < modulus P ->
  pvPortMalloc P s n = Some (s', r) -> r <> NULL ->
  wanted_size P n <= block_size_of P s' r /\
  block_size_of P s' r <= wanted_size P n + heapMINIMUM_BLOCK_SIZE P /\
  n <= block_size_of P s' r - xHeapStructSize P /\
  uxStartAddress P + xHeapStructSize P <= r /\
  r - xHeapStructSize P + block_size_of P s' r <= uxEndAddress P /\
  ucHeap P <= r /\ r + n <= ucHeap P + configTOTAL_HEAP_SIZE.
Proof.
  intros WF Hr Hn Hfit Hc Hnz.
  pose proof (hdr_pos P WF) as (Hh & _ & _).
  pose proof (start_facts P WF) as [Hst _]. pose proof (end_facts P WF) as [Hen _].
  pose proof (wanted_size_exact P WF n Hn Hfit) as Hw.
  pose proof (heapMINIMUM_BLOCK_SIZE_val P WF) as Hmn.
  assert (Hn' : 0 <= n < modulus P) by lia.
  assert (Hbig : xHeapStructSize P <= wanted_size P n) by lia.
  assert (Hs : exists s1 bl, heap_inv P s1 bl /\ pvPortMalloc P s1 n = Some (s', r)).
  { destruct (reachable_heap_ok P WF _ _ Hr) as [[-> _] | (bl & Hinv & _)].
    - destruct (pvPortMalloc_first P WF n) as (s1 & _ & Hinv & _ & _ & _ & Hc1).
      rewrite Hc1 in Hc. eauto.
    - eauto. }
  destruct Hs as (s1 & bl & Hinv & Hc1).
  destruct (malloc_cases P WF s1 bl n s' r Hinv Hn' (or_intror Hbig) Hc1)
    as [(-> & _) | (blk & bl' & _ & Ea & -> & _ & Hblk & Hinv' & _)];
    [now elim Hnz|].
  destruct (alloc_abs_first P _ _ _ _ _ Ea) as (pre & sz & post & -> & -> & Hsz & -> & _).
  pose proof (inv_seg _ _ _ Hinv) as Hseg.
  apply (seg_ok_app P WF) in Hseg. destruct Hseg as [(_ & _ & _ & Hpre) Hseg].
  destruct (seg_ok_cons P WF _ _ _ Hseg) as (_ & (_ & _ & Hend & Hpost) & _).
  simpl in Hend.
  pose proof (total_nonneg P WF _ Hpre). pose proof (total_nonneg P WF _ Hpost).
  revert Hinv'. unfold carve.
  destruct (Z.ltb_spec (heapMINIMUM_BLOCK_SIZE P) (sz - wanted_size P n));
    cbn [app]; intros Hinv';
    rewrite (block_size_of_used P WF _ _ _ _ Hinv'); lia.
Qed.

Lemma allocated_block_fits_witness :
  wanted_size LP64 100 <= block_size_of LP64 (state_of (pvPortMalloc LP64 demo_a 100))
                            (result_of (pvPortMalloc LP64 demo_a 100)).
Proof.
  exact (proj1 (allocated_block_fits LP64 demo_a _ 100 _ _ LP64_wf demo_a_reachable
                  eq_refl
                  ltac:(vm_compute; reflexivity)
                  (returned_eq (pvPortMalloc LP64 demo_a 100)
                               ltac:(vm_compute; reflexivity))
                  ltac:(vm_compute; discriminate))).
Defined.

(** X13. Allocating and freeing at once is a round trip.  On an
    initialised heap of a run whose requests fit a header, freeing the
    pointer that pvPortMalloc has just returned brings back the free
    list and the free-byte counter of before the allocation: the split
    that the allocation made is undone by the merge of the free. *)
Theorem malloc_free_round_trip (P : platform) (s : heap) (live : list Z) (n : Z)
        (s1 : heap) (r : Z) :
  wf_platform P -> reachable P (fits_header P) s live -> pxEnd s <> NULL ->
  0 <= n < modulus P -> fits_header P n ->
  pvPortMalloc P s n = Some (s1, r) -> r <> NULL ->
  exists s2,
    vPortFree P s1 r = Ok s2 /\
    free_list P s2 = free_list P s /\
    xPortGetFreeHeapSize s2 = xPortGetFreeHeapSize s /\
    xPortGetMinimumEverFreeHeapSize s2 <= xPortGetMinimumEverFreeHeapSize s.
Proof.
  intros WF Hr Hinit Hn Hfit Hc Hnz.
  destruct (reachable_heap_inv P WF s live Hr Hinit) as (bl & Hinv & _).
  destruct (malloc_cases P WF s bl n s1 r Hinv Hn Hfit Hc)
    as [(-> & _) | (blk & bl' & _ & Ea & -> & _ & _ & Hinv1 & Hmin & _)];
    [now elim Hnz|].
  destruct (alloc_abs_first P _ _ _ _ _ Ea) as (pre & sz & post & -> & -> & Hsz & -> & _).
  pose proof (coalesce_carve P pre post (wanted_size P n) sz (inv_no_adj _ _ _ Hinv) Hsz)
    as Hback.
  assert (Hfree : exists s2, vPortFree P s1 (uxStartAddress P + total pre + xHeapStructSize P)
                             = Ok s2 /\
                             heap_inv P s2 (pre ++ (sz, false) :: post) /\
                             xMinimumEverFreeBytesRemaining s2
                             = xMinimumEverFreeBytesRemaining s1).
  { revert Hinv1 Hback. unfold carve.
    destruct (heapMINIMUM_BLOCK_SIZE P <? sz - wanted_size P n); cbn [app];
      intros Hinv1 Hback;
      destruct (vPortFree_spec P WF s1 _ _ _ Hinv1) as (s2 & E & Hinv2 & _ & Hm & _);
      rewrite Hback in Hinv2; eauto. }
  destruct Hfree as (s2 & E & Hinv2 & Hm).
  exists s2. split; [assumption|]. split; [|split].
  - rewrite (free_list_of_heap P WF _ _ Hinv2), (free_list_of_heap P WF _ _ Hinv).
    now rewrite (inv_end _ _ _ Hinv), (inv_end _ _ _ Hinv2).
  - unfold xPortGetFreeHeapSize.
    now rewrite (inv_free _ _ _ Hinv2), (inv_free _ _ _ Hinv).
  - unfold xPortGetMinimumEverFreeHeapSize. rewrite Hm, Hmin.
    destruct (Z.ltb_spec (xFreeBytesRemaining s1) (xMinimumEverFreeBytesRemaining s)); lia.
Qed.

Lemma malloc_free_round_trip_witness :
  exists s2,
    vPortFree LP64 (state_of (pvPortMalloc LP64 demo_a 100))
              (result_of (pvPortMalloc LP64 demo_a 100)) = Ok s2 /\
    free_list LP64 s2 = free_list LP64 demo_a /\
    xPortGetFreeHeapSize s2 = xPortGetFreeHeapSize demo_a /\
    xPortGetMinimumEverFreeHeapSize s2 <= xPortGetMinimumEverFreeHeapSize demo_a.
Proof.
  apply (malloc_free_round_trip LP64 demo_a _ 100 _ _ LP64_wf demo_a_reachable
           demo_a_initialised).
  - vm_compute. split; [discriminate | reflexivity].
  - right. exact fits_header_100.
  - apply returned_eq. vm_compute. reflexivity.
  - vm_compute. discriminate.
Defined.

(* ================================================================== *)
(** ** vPortFree on the free list *)

(** Merge node [nd] with the node behind it when the two touch and that
    node is not the end sentinel. *)
Definition join_fwd (end_ : Z) (nd : Z * Z) (rest : list (Z * Z)) : list (Z * Z) :=
  match rest with
  | (b, bsz) :: r =>
      if (fst nd + snd nd =? b) && negb (b =? end_)
      then (fst nd, snd nd + bsz) :: r
      else nd :: rest
  | [] => [nd]
  end.

Definition starts_before (blk : Z) (nodes : list (Z * Z)) : bool :=
  match nodes with
  | (b, _) :: _ => b <? blk
  | [] => false
  end.

(** Insertion of the block [(blk, sz)] into an address-ordered list of
    nodes, as prvInsertBlockIntoFreeList does it: walk to the last node
    in front of the block, merge the block into that node when the two
    touch, then merge with the node behind. *)
Fixpoint insert_node (end_ blk sz : Z) (nodes : list (Z * Z)) : list (Z * Z) :=
  match nodes with
  | [] => [(blk, sz)]
  | (a, asz) :: r =>
      if a <? blk then
        if starts_before blk r then (a, asz) :: insert_node end_ blk sz r
        else if a + asz =? blk then join_fwd end_ (a, asz + sz) r
             else (a, asz) :: join_fwd end_ (blk, sz) r
      else join_fwd end_ (blk, sz) nodes
  end.

Section SortedInsert.
Variable P : platform.
Hypothesis WF : wf_platform P.

Local Abbreviation hdr := (xHeapStructSize P).
Local Abbreviation e := (uxEndAddress P).

Lemma nodes_lower_bound (a : Z) (bl : list block) :
  seg_ok P a bl ->
  Forall (fun nd => a <= fst nd) (free_nodes a bl ++ [(e, 0)]).
Proof.
  intros Hs. apply Forall_app. split.
  - eapply Forall_impl; [|apply (free_nodes_bounds P WF _ _ Hs)]. simpl. tauto.
  - constructor; [|constructor]. simpl.
    destruct Hs as (_ & _ & Ht & Hok). pose proof (total_nonneg P WF _ Hok). lia.
Qed.

Lemma nodes_not_before (a blk : Z) (bl : list block) :
  seg_ok P a bl -> blk <= a ->
  starts_before blk (free_nodes a bl ++ [(e, 0)]) = false /\
  free_nodes a bl ++ [(e, 0)] <> [].
Proof.
  intros Hs Hle. pose proof (nodes_lower_bound a bl Hs) as Hlb.
  destruct (free_nodes a bl ++ [(e, 0)]) as [|[b bsz] r] eqn:E.
  - apply app_eq_nil in E. destruct E as [_ E]. discriminate.
  - split; [|discriminate]. inversion Hlb as [|? ? Hb _]. simpl in *.
    destruct (Z.ltb_spec b blk); [lia | reflexivity].
Qed.

Lemma insert_node_front (end_ blk sz : Z) (nodes : list (Z * Z)) :
  starts_before blk nodes = false -> nodes <> [] ->
  insert_node end_ blk sz nodes = join_fwd end_ (blk, sz) nodes.
Proof.
  destruct nodes as [|[b bsz] r]; simpl; intros Hb Hne; [now elim Hne|].
  now rewrite Hb.
Qed.

(** Merging forward on the nodes is merging forward on the blocks. *)
Lemma join_fwd_nodes (b0 s0 c : Z) (post : list block) :
  seg_ok P c post -> c + total post = e -> c = b0 + s0 ->
  join_fwd e (b0, s0) (free_nodes c post ++ [(e, 0)]) =
  (b0, fst (merge_fwd s0 post))
    :: free_nodes (b0 + fst (merge_fwd s0 post)) (snd (merge_fwd s0 post)) ++ [(e, 0)].
Proof.
  intros Hs He Hc. pose proof (hdr_pos P WF) as (Hh & _ & _).
  destruct post as [|[n [|]] r]; simpl in *.
  - replace (b0 + s0 =? e) with true by (symmetry; apply Z.eqb_eq; lia).
    rewrite Z.eqb_refl. reflexivity.
  - destruct (seg_ok_cons P WF _ _ _ Hs) as (_ & Hr & [Hb _]). simpl in Hr, Hb.
    destruct (nodes_not_before (c + n) (c + 1) r Hr ltac:(lia)) as [Hsb Hne].
    destruct (free_nodes (c + n) r ++ [(e, 0)]) as [|[b bsz] r'] eqn:E;
      [now elim Hne|].
    simpl in Hsb. apply Z.ltb_ge in Hsb.
    cbn [join_fwd fst snd].
    destruct (Z.eqb_spec (b0 + s0) b) as [Q1 | Q1]; [lia|]. cbn [andb].
    subst c. simpl. now rewrite E.
  - destruct (seg_ok_cons P WF _ _ _ Hs) as (_ & Hr & [Hb _]). simpl in Hr, Hb.
    destruct Hr as (_ & _ & Hr3 & Hr4). pose proof (total_nonneg P WF _ Hr4).
    destruct (Z.eqb_spec (b0 + s0) c) as [Q1 | Q1]; [|lia].
    destruct (Z.eqb_spec c e) as [Q2 | Q2]; [lia|]. cbn [andb negb fst snd].
    replace (b0 + (s0 + n)) with (c + n) by lia. reflexivity.
Qed.

Lemma merge_back_cons (b : block) (r : list block) (sz : Z) :
  r <> [] \/ snd b = true ->
  merge_back (b :: r) sz = (b :: fst (merge_back r sz), snd (merge_back r sz)).
Proof.
  intros H. simpl. destruct (merge_back r sz) as [r' s0] eqn:E.
  destruct r as [|b' r0].
  - destruct H as [H | H]; [now elim H|]. destruct b as [psz [|]]; [|discriminate].
    simpl in E. injection E as <- <-. reflexivity.
  - reflexivity.
Qed.

Lemma coalesce_cons (b : block) (pre post : list block) (sz : Z) :
  pre <> [] \/ snd b = true ->
  coalesce (b :: pre) sz post = b :: coalesce pre sz post.
Proof.
  intros H. unfold coalesce. rewrite (merge_back_cons b pre sz H). reflexivity.
Qed.

(** The free nodes after coalescing are the free nodes of before with
    the freed block inserted. *)
Lemma free_nodes_coalesce (sz : Z) (post pre : list block) :
  forall a,
    seg_ok P a (pre ++ (sz, true) :: post) ->
    a + total (pre ++ (sz, true) :: post) = e ->
    no_adj (pre ++ (sz, true) :: post) ->
    free_nodes a (coalesce pre sz post) ++ [(e, 0)] =
    insert_node e (a + total pre) sz
                (free_nodes a (pre ++ (sz, true) :: post) ++ [(e, 0)]).
Proof.
  pose proof (hdr_pos P WF) as (Hh & _ & _).
  induction pre as [|[p [|]] pre' IH]; intros a Hs He Hn.
  - simpl app in *. simpl total in *.
    destruct (seg_ok_cons P WF _ _ _ Hs) as (_ & Hr & [Hb _]). simpl in Hr, Hb.
    simpl free_nodes at 2.
    destruct (nodes_not_before (a + sz) (a + 0) post Hr ltac:(lia)) as [Hsb Hne].
    rewrite (insert_node_front _ _ _ _ Hsb Hne).
    replace (a + 0) with a by lia.
    rewrite (join_fwd_nodes a sz (a + sz) post Hr ltac:(simpl in He; lia) eq_refl).
    reflexivity.
  - rewrite coalesce_cons by (right; reflexivity).
    simpl app in *. simpl total in *. simpl no_adj in Hn.
    destruct (seg_ok_cons P WF _ _ _ Hs) as (_ & Hr & _). simpl in Hr.
    simpl free_nodes.
    rewrite (IH (a + p) Hr ltac:(lia) Hn).
    now replace (a + p + total pre') with (a + (p + total pre')) by lia.
  - simpl app in *. simpl total in *. simpl no_adj in Hn. destruct Hn as [Hhu Hn].
    destruct (seg_ok_cons P WF _ _ _ Hs) as (_ & Hr & [Hb _]). simpl in Hr, Hb.
    assert (Hpre : 0 <= total pre').
    { destruct Hr as (_ & _ & _ & Hok). apply Forall_app in Hok.
      apply (total_nonneg P WF), Hok. }
    simpl free_nodes at 2. cbn [app insert_node].
    destruct (Z.ltb_spec a (a + (p + total pre'))) as [Q0 | Q0]; [|lia].
    destruct pre' as [|b' pre''].
    + (* the block in front is free and touches the freed block *)
      simpl app in *. simpl total in *.
      destruct (seg_ok_cons P WF _ _ _ Hr) as (_ & Hr' & [Hb' _]). simpl in Hr', Hb'.
      simpl free_nodes at 2.
      destruct (nodes_not_before (a + p + sz) (a + (p + 0)) post Hr' ltac:(lia))
        as [Hsb Hne].
      rewrite Hsb.
      destruct (Z.eqb_spec (a + p) (a + (p + 0))) as [Q1 | Q1]; [|lia].
      rewrite (join_fwd_nodes a (p + sz) (a + p + sz) post Hr'
                 ltac:(simpl in He; lia) ltac:(lia)).
      unfold coalesce. cbn [merge_back fst snd app free_nodes]. reflexivity.
    + rewrite coalesce_cons by (left; discriminate).
      simpl free_nodes at 1. cbn [app].
      rewrite (IH (a + p) Hr ltac:(lia) Hn).
      replace (a + p + total (b' :: pre'')) with (a + (p + total (b' :: pre''))) by lia.
      cbn [app].
      set (N := free_nodes (a + p) (b' :: pre'' ++ (sz, true) :: post) ++ [(e, 0)]).
      set (blk := a + (p + total (b' :: pre''))).
      destruct (starts_before blk N) eqn:Hsb; [reflexivity|].
      assert (Hne : N <> []).
      { unfold N. intros E. apply app_eq_nil in E. destruct E as [_ E]. discriminate. }
      rewrite (insert_node_front _ _ _ _ Hsb Hne).
      destruct b' as [q [|]]; [|contradiction].
      destruct (seg_ok_cons P WF _ _ _ Hr) as (_ & Hr' & [Hb' _]). simpl in Hr', Hb'.
      assert (Hpre' : 0 <= total pre'').
      { destruct Hr' as (_ & _ & _ & Hok). apply Forall_app in Hok.
        apply (total_nonneg P WF), Hok. }
      destruct (Z.eqb_spec (a + p) blk) as [E | _]; [|reflexivity].
      unfold blk in E. simpl in E. lia.
Qed.

End SortedInsert.

(** X14. vPortFree is an ordered insertion with merging.  After a free
    of a pointer the client holds, in a run whose requests fit a header,
    the free list is the free list of before with the freed block put in
    at its place in address order, merged with the node in front of it
    when that node ends where the block starts, and merged with the node
    behind it when the block ends where that node starts, the end
    sentinel excepted. *)
Theorem free_is_sorted_insert (P : platform) (s : heap) (live : list Z) (pv : Z) :
  wf_platform P -> reachable P (fits_header P) s live -> In pv live ->
  exists s' nodes,
    vPortFree P s pv = Ok s' /\
    free_list P s = Some nodes /\
    free_list P s' =
      Some (insert_node (pxEnd s) (pv - xHeapStructSize P) (block_size_of P s pv) nodes).
Proof.
  intros WF Hr Hin.
  destruct (reachable_heap_ok P WF _ _ Hr) as [[_ ->] | (bl & Hinv & Hperm)];
    [destruct Hin|].
  assert (Hin' : In pv (used_ptrs (xHeapStructSize P) (uxStartAddress P) bl))
    by (eapply Permutation_in; eauto).
  destruct (used_ptrs_split _ _ _ _ Hin') as (pre & sz & post & -> & ->).
  destruct (free_step P WF s pre post sz Hinv) as (s' & E & Hinv').
  exists s', (free_nodes (uxStartAddress P) (pre ++ (sz, true) :: post) ++ [(pxEnd s, 0)]).
  split; [assumption|]. split; [apply (free_list_of_heap P WF _ _ Hinv)|].
  rewrite (free_list_of_heap P WF _ _ Hinv').
  rewrite (block_size_of_used P WF _ _ _ _ Hinv).
  rewrite (inv_end _ _ _ Hinv), (inv_end _ _ _ Hinv').
  rewrite (free_nodes_coalesce P WF sz post pre _ (inv_seg _ _ _ Hinv)
             (inv_total _ _ _ Hinv) (inv_no_adj _ _ _ Hinv)).
  do 2 f_equal. lia.
Qed.

Lemma free_is_sorted_insert_witness :
  exists s' nodes,
    vPortFree LP64 demo_a 6296048 = Ok s' /\
    free_list LP64 demo_a = Some nodes /\
    free_list LP64 s' =
      Some (insert_node (pxEnd demo_a) (6296048 - xHeapStructSize LP64)
                        (block_size_of LP64 demo_a 6296048) nodes).
Proof.
  apply (free_is_sorted_insert LP64 demo_a _ 6296048 LP64_wf demo_a_reachable).
  simpl. tauto.
Defined.

(** X15. The largest request a fresh arena serves.  As the first call,
    a request of n bytes whose block size does not wrap succeeds exactly
    when n plus one header fits the usable size: then the call returns
    the address behind the first header of the arena; a larger request
    returns NULL. *)
Theorem fresh_arena_boundary (P : platform) (n : Z) :
  wf_platform P -> 0 < n -> n + xHeapStructSize P + 7 < modulus P ->
  (n + xHeapStructSize P <= usable_size P ->
   result_of (pvPortMalloc P heap0 n) = uxStartAddress P + xHeapStructSize P) /\
  (usable_size P < n + xHeapStructSize P ->
   result_of (pvPortMalloc P heap0 n) = NULL).
Proof.
  intros WF Hn Hfit.
  pose proof (hdr_pos P WF) as (Hh & _ & _).
  pose proof (wanted_size_exact P WF n Hn Hfit) as Hw.
  pose proof (wanted_size_mod8 P WF n ltac:(lia)) as Hw8.
  pose proof (usable_mod8 P WF) as Hu8.
  pose proof (Z.div_mod (wanted_size P n) 8 ltac:(lia)) as D1.
  pose proof (Z.div_mod (usable_size P) 8 ltac:(lia)) as D2.
  pose proof (malloc_first P WF n ltac:(lia) ltac:(lia)) as Hf.
  cbn [alloc_abs] in Hf.
  split; intros Hle.
  - destruct (Z.ltb_spec (usable_size P) (wanted_size P n)); [lia|].
    destruct Hf as (s' & E & _). rewrite E. reflexivity.
  - destruct (Z.ltb_spec (usable_size P) (wanted_size P n)); [|lia].
    destruct Hf as (s' & E & _). rewrite E. reflexivity.
Qed.

Lemma fresh_arena_boundary_witness :
  result_of (pvPortMalloc LP64 heap0 40928) = uxStartAddress LP64 + xHeapStructSize LP64 /\
  result_of (pvPortMalloc LP64 heap0 40929) = NULL.
Proof.
  split.
  - apply (proj1 (fresh_arena_boundary LP64 40928 LP64_wf eq_refl
                    ltac:(vm_compute; reflexivity))).
    vm_compute. discriminate.
  - apply (proj2 (fresh_arena_boundary LP64 40929 LP64_wf eq_refl
                    ltac:(vm_compute; reflexivity))).
    vm_compute. reflexivity.
Defined.

(** X16. Fragmentation is bounded by the number of live blocks.  In a
    run whose requests fit a header, the free list holds at most one
    block more than the client holds pointers, the end sentinel not
    counted: two free blocks are always separated by an allocated one. *)
Theorem free_list_length_bounded (P : platform) (s : heap) (live : list Z) :
  wf_platform P -> reachable P (fits_header P) s live -> pxEnd s <> NULL ->
  exists nodes,
    free_list P s = Some (nodes ++ [(pxEnd s, 0)]) /\
    (length nodes <= length live + 1)%nat.
Proof.
  intros WF Hr Hinit.
  destruct (reachable_heap_inv P WF s live Hr Hinit) as (bl & Hinv & Hperm).
  exists (free_nodes (uxStartAddress P) bl).
  split; [apply (free_list_of_heap P WF _ _ Hinv)|].
  rewrite (Permutation_length Hperm).
  apply (free_nodes_count (xHeapStructSize P) _ _ (inv_no_adj _ _ _ Hinv)).
Qed.

Lemma free_list_length_bounded_witness :
  exists nodes,
    free_list LP64 demo_a = Some (nodes ++ [(pxEnd demo_a, 0)]) /\
    (length nodes <= 3)%nat.
Proof.
  exact (free_list_length_bounded LP64 demo_a _ LP64_wf demo_a_reachable
           demo_a_initialised).
Defined.

(* ================================================================== *)
(** ** Writes of the client *)

(** The state with the store replaced. *)
Definition set_mem (s : heap) (m : memory) : heap :=
  {| mem := m;
     pxEnd := pxEnd s;
     xFreeBytesRemaining := xFreeBytesRemaining s;
     xMinimumEverFreeBytesRemaining := xMinimumEverFreeBytesRemaining s;
     xNumberOfSuccessfulAllocations := xNumberOfSuccessfulAllocations s;
     xNumberOfSuccessfulFrees := xNumberOfSuccessfulFrees s |}.

(** The client stores [v] in the word at address [x]. *)
Definition client_write (s : heap) (x v : Z) : heap :=
  set_mem s (upd (mem s) x v).

Section ClientWrites.
Variable P : platform.
Hypothesis WF : wf_platform P.

Local Abbreviation pb := (ptr_bytes P).
Local Abbreviation hdr := (xHeapStructSize P).
Local Abbreviation st := (uxStartAddress P).

(** A change confined to the payload of an allocated block leaves the
    heap well-formed over the same block sequence. *)
Lemma payload_change_heap_inv (s : heap) (pre post : list block) (sz : Z) (m' : memory) :
  heap_inv P s (pre ++ (sz, true) :: post) ->
  (forall y, y < st + total pre + hdr \/ st + total pre + sz <= y -> m' y = mem s y) ->
  heap_inv P (set_mem s m') (pre ++ (sz, true) :: post).
Proof.
  intros [I1 I2 I3 I4 I5 I6 I7 I8 I9 I10 I11] Hout.
  pose proof (hdr_pos P WF) as (Hh & Hp4 & Hpp).
  pose proof (wf_disjoint P WF) as Hdis.
  pose proof (start_facts P WF) as [Hst _]. pose proof (end_facts P WF) as [Hen _].
  assert (Hs' := I2). apply (seg_ok_app P WF) in Hs'. destruct Hs' as [Hspre Hsrest].
  destruct (seg_ok_cons P WF _ _ _ Hsrest) as (Hblk & Hspost & [Hb1 Hb2]).
  simpl fst in Hspost, Hb1.
  destruct Hspre as (_ & _ & _ & P4). destruct Hspost as (_ & _ & Q3 & Q4).
  pose proof (total_nonneg P WF pre P4). pose proof (total_nonneg P WF post Q4).
  constructor; cbn [set_mem mem pxEnd xFreeBytesRemaining]; auto.
  - apply fseg_app. apply fseg_app in I5. destruct I5 as [F1 F2]. split.
    + apply (fseg_frame P WF (mem s)); auto. intros y Hy. apply Hout. lia.
    + simpl in *. apply (fseg_frame P WF (mem s)); auto. intros y Hy. apply Hout. lia.
  - apply useg_app. apply useg_app in I6. destruct I6 as [U1 (U2 & U3 & U4)]. split.
    + apply (useg_frame P WF (mem s)); auto. intros y Hy. apply Hout. lia.
    + simpl. rewrite !Hout by lia. split; [assumption|]. split; [assumption|].
      apply (useg_frame P WF (mem s)); auto. intros y Hy. apply Hout. lia.
  - rewrite Hout by lia. assumption.
  - rewrite Hout by lia. assumption.
  - rewrite Hout by lia. assumption.
  - rewrite Hout by lia. assumption.
Qed.

Lemma client_write_heap_inv (s : heap) (pre post : list block) (sz x v : Z) :
  heap_inv P s (pre ++ (sz, true) :: post) ->
  st + total pre + hdr <= x < st + total pre + sz ->
  heap_inv P (client_write s x v) (pre ++ (sz, true) :: post).
Proof.
  intros Hinv Hx. apply payload_change_heap_inv; [assumption|].
  intros y Hy. unfold upd. destruct (Z.eqb_spec y x); [lia | reflexivity].
Qed.

End ClientWrites.

(** X17. What the client stores in its blocks is of no concern to the
    allocator.  In a run whose requests fit a header, a write of any
    value to a word of the payload of a block the client holds leaves
    the free list as it is, and pvPortMalloc returns the same pointer
    afterwards, for every request that fits a header, as it would have
    returned without the write. *)
Theorem payload_writes_do_not_interfere (P : platform) (s : heap) (live : list Z)
        (pv x v : Z) :
  wf_platform P -> reachable P (fits_header P) s live -> In pv live ->
  pv <= x < pv - xHeapStructSize P + block_size_of P s pv ->
  free_list P (client_write s x v) = free_list P s /\
  forall n, 0 <= n < modulus P -> fits_header P n ->
            result_of (pvPortMalloc P (client_write s x v) n) =
            result_of (pvPortMalloc P s n).
Proof.
  intros WF Hr Hin Hx.
  destruct (reachable_heap_ok P WF _ _ Hr) as [[_ ->] | (bl & Hinv & Hperm)];
    [destruct Hin|].
  assert (Hin' : In pv (used_ptrs (xHeapStructSize P) (uxStartAddress P) bl))
    by (eapply Permutation_in; eauto).
  destruct (used_ptrs_split _ _ _ _ Hin') as (pre & sz & post & -> & ->).
  rewrite (block_size_of_used P WF _ _ _ _ Hinv) in Hx.
  assert (Hinv' : heap_inv P (client_write s x v) (pre ++ (sz, true) :: post))
    by (apply client_write_heap_inv; auto; lia).
  split.
  - now rewrite (free_list_of_heap P WF _ _ Hinv'), (free_list_of_heap P WF _ _ Hinv).
  - intros n Hn Hfit.
    assert (Hdet : forall s0, heap_inv P s0 (pre ++ (sz, true) :: post) ->
              result_of (pvPortMalloc P s0 n) =
              match alloc_abs (heapMINIMUM_BLOCK_SIZE P) (wanted_size P n)
                              (uxStartAddress P) (pre ++ (sz, true) :: post) with
              | Some (blk, _) => if wanted_size P n =? 0 then NULL
                                 else blk + xHeapStructSize P
              | None => NULL
              end).
    { intros s0 H0. pose proof (hdr_pos P WF) as (Hh & _ & _).
      destruct Hfit as [Hz | Hbig].
      - rewrite (pvPortMalloc_initialised P s0) by (eapply heap_inv_initialised; eauto).
        rewrite malloc_body_refuses by (left; assumption). rewrite Hz. simpl.
        now destruct (alloc_abs _ _ _ _) as [[? ?]|].
      - pose proof (malloc_step P WF s0 _ n H0 Hn Hbig) as Hstep.
        destruct (alloc_abs _ _ _ _) as [[blk bl']|].
        + destruct Hstep as (s1 & E & _). rewrite E. simpl.
          destruct (Z.eqb_spec (wanted_size P n) 0); [lia | reflexivity].
        + now rewrite Hstep. }
    now rewrite (Hdet _ Hinv'), (Hdet _ Hinv).
Qed.

Lemma payload_writes_do_not_interfere_witness :
  free_list LP64 (client_write demo_a 6296048 170) = free_list LP64 demo_a.
Proof.
  apply (payload_writes_do_not_interfere LP64 demo_a _ 6296048 6296048 170 LP64_wf
           demo_a_reachable).
  - simpl. tauto.
  - vm_compute. split; [discriminate | reflexivity].
Defined.

(* ================================================================== *)
(** ** The test program of stress.c *)

(** [memset( pv, c, len )] called by the client: the bytes
    [pv .. pv+len-1] must lie in [ucHeap]; every word that starts in the
    range gets a new content.  Which content depends on the byte order
    and on how much of the word the range covers; [fill c x old] stands
    for it. *)
Definition client_memset (P : platform) (fill : Z -> Z -> Z -> Z)
           (m : memory) (pv c len : Z) : option memory :=
  if len =? 0 then Some m
  else if (ucHeap P <=? pv) && (pv + len <=? ucHeap P + configTOTAL_HEAP_SIZE)
       then Some (fun x => if (pv <=? x) && (x <? pv + len)
                           then fill c x (m x) else m x)
       else None.

(** The two numbers [print_heap_info] prints. *)
Definition print_heap_info (s : heap) : Z * Z :=
  (xPortGetFreeHeapSize s, xPortGetMinimumEverFreeHeapSize s).

(** A call of [vPortFree] that comes back. *)
Definition returns (o : outcome heap) : option heap :=
  match o with Ok s => Some s | _ => None end.

(** What [main] prints: the heap figures at its five checkpoints and
    the pointers it got. *)
Record stress_report : Type := {
  info_start : Z * Z;
  ptr1 : Z;
  ptr2 : Z;
  ptr3 : Z;
  ptr4 : Z;
  info_after_alloc : Z * Z;
  info_free_p2 : Z * Z;
  info_merged : Z * Z;
  p_too_large : Z;
  info_final : Z * Z
}.

(** [main] of stress.c, call by call. *)
Definition stress_main (P : platform) (fill : Z -> Z -> Z -> Z) : option stress_report :=
  let i0 := print_heap_info heap0 in
  '(s1, p1) <- pvPortMalloc P heap0 10 ;;
  '(s2, p2) <- pvPortMalloc P s1 128 ;;
  '(s3, p3) <- pvPortMalloc P s2 50 ;;
  '(s4, p4) <- pvPortMalloc P s3 100 ;;
  let i1 := print_heap_info s4 in
  m5 <- client_memset P fill (mem s4) p1 170 10 ;;
  m6 <- client_memset P fill m5 p2 187 128 ;;
  m7 <- client_memset P fill m6 p3 204 50 ;;
  s8 <- returns (vPortFree P (set_mem s4 m7) p2) ;;
  let i2 := print_heap_info s8 in
  s9 <- returns (vPortFree P s8 p1) ;;
  let i3 := print_heap_info s9 in
  '(s10, big) <- pvPortMalloc P s9 (1024 * 1024) ;;
  s11 <- returns (vPortFree P s10 p3) ;;
  s12 <- returns (vPortFree P s11 p4) ;;
  let i4 := print_heap_info s12 in
  Some {| info_start := i0;
          ptr1 := p1; ptr2 := p2; ptr3 := p3; ptr4 := p4;
          info_after_alloc := i1;
          info_free_p2 := i2;
          info_merged := i3;
          p_too_large := big;
          info_final := i4 |}.

Section Stress.
Variable P : platform.
Hypothesis WF : wf_platform P.

Local Abbreviation hdr := (xHeapStructSize P).
Local Abbreviation st := (uxStartAddress P).
Local Abbreviation mn := (heapMINIMUM_BLOCK_SIZE P).

(** A successful allocation, with the new watermark. *)
Lemma malloc_succeeds (s : heap) (bl : list block) (n blk : Z) (bl' : list block) :
  heap_inv P s bl -> 0 <= n < modulus P -> hdr <= wanted_size P n ->
  alloc_abs mn (wanted_size P n) st bl = Some (blk, bl') ->
  exists s',
    pvPortMalloc P s n = Some (s', blk + hdr) /\
    heap_inv P s' bl' /\
    xMinimumEverFreeBytesRemaining s' =
      Z.min (free_total bl') (xMinimumEverFreeBytesRemaining s).
Proof.
  intros Hinv Hn Hbig Ea.
  pose proof (wanted_size_range P WF n Hn) as Hwr.
  pose proof (wanted_size_mod8 P WF n (proj1 Hn)) as Hw8.
  pose proof (malloc_body_spec P WF s bl _ Hinv Hbig Hw8 (proj2 Hwr)) as Hspec.
  rewrite Ea in Hspec. destruct Hspec as (s' & E & Hinv' & Hmin & _).
  exists s'. rewrite (pvPortMalloc_initialised P s)
    by (eapply heap_inv_initialised; eauto).
  split; [assumption|]. split; [assumption|].
  rewrite Hmin, (inv_free _ _ _ Hinv').
  destruct (Z.ltb_spec (free_total bl') (xMinimumEverFreeBytesRemaining s)); lia.
Qed.

(** A free of an allocated block, with the watermark. *)
Lemma free_succeeds (s : heap) (pre post : list block) (sz : Z) :
  heap_inv P s (pre ++ (sz, true) :: post) ->
  exists s',
    returns (vPortFree P s (st + total pre + hdr)) = Some s' /\
    heap_inv P s' (coalesce pre sz post) /\
    xMinimumEverFreeBytesRemaining s' = xMinimumEverFreeBytesRemaining s.
Proof.
  intros Hinv.
  destruct (vPortFree_spec P WF s pre post sz Hinv) as (s' & E & Hinv' & _ & Hmin & _).
  exists s'. rewrite E. auto.
Qed.

(** A [memset] of the client inside the payload of an allocated block. *)
Lemma client_memset_payload (fill : Z -> Z -> Z -> Z) (s : heap)
      (pre post : list block) (sz c len : Z) :
  heap_inv P s (pre ++ (sz, true) :: post) ->
  0 < len <= sz - hdr ->
  exists m',
    client_memset P fill (mem s) (st + total pre + hdr) c len = Some m' /\
    heap_inv P (set_mem s m') (pre ++ (sz, true) :: post).
Proof.
  intros Hinv Hlen.
  pose proof (hdr_pos P WF) as (Hh & _ & _).
  pose proof (start_facts P WF) as [Hst _]. pose proof (end_facts P WF) as [Hen _].
  pose proof (inv_seg _ _ _ Hinv) as Hseg.
  apply (seg_ok_app P WF) in Hseg. destruct Hseg as [(_ & _ & _ & Hpre) Hseg].
  destruct (seg_ok_cons P WF _ _ _ Hseg) as (_ & (_ & _ & Hend & Hpost) & _).
  simpl in Hend.
  pose proof (total_nonneg P WF _ Hpre). pose proof (total_nonneg P WF _ Hpost).
  unfold client_memset.
  destruct (Z.eqb_spec len 0); [lia|].
  destruct (Z.leb_spec (ucHeap P) (st + total pre + hdr)); [|lia].
  destruct (Z.leb_spec (st + total pre + hdr + len) (ucHeap P + configTOTAL_HEAP_SIZE));
    [|lia].
  cbn [andb]. eexists. split; [reflexivity|].
  apply (payload_change_heap_inv P WF); [assumption|].
  intros y Hy. cbv beta.
  destruct (Z.leb_spec (st + total pre + hdr) y);
    destruct (Z.ltb_spec y (st + total pre + hdr + len)); cbn [andb];
    first [reflexivity | lia].
Qed.

End Stress.

(** X18. The test program runs through and finds what its comments
    expect.  On every well-formed target and whatever bytes the three
    memset calls leave in the words they touch, main of stress.c
    performs all its calls without a fault or a failed assertion.
    Before the first allocation both figures read 0.  The four blocks
    lie side by side at multiples of 8; the request for one megabyte is
    refused; after p2 and then p1 are freed the free bytes have grown by
    the two block sizes; and at the end, with all four blocks freed, the
    free bytes are again the usable size of the arena, while the
    watermark still shows the low point reached after the four
    allocations. *)
Theorem stress_main_passes (P : platform) (fill : Z -> Z -> Z -> Z) :
  wf_platform P ->
  let wa := wanted_size P 10 in
  let wb := wanted_size P 128 in
  let wc := wanted_size P 50 in
  let wd := wanted_size P 100 in
  let low := usable_size P - (wa + wb + wc + wd) in
  exists r,
    stress_main P fill = Some r /\
    info_start r = (0, 0) /\
    ptr1 r = uxStartAddress P + xHeapStructSize P /\
    ptr2 r = ptr1 r + wa /\ ptr3 r = ptr2 r + wb /\ ptr4 r = ptr3 r + wc /\
    ptr1 r mod 8 = 0 /\ ptr2 r mod 8 = 0 /\ ptr3 r mod 8 = 0 /\ ptr4 r mod 8 = 0 /\
    info_after_alloc r = (low, low) /\
    info_free_p2 r = (low + wb, low) /\
    info_merged r = (low + wa + wb, low) /\
    p_too_large r = NULL /\
    info_final r = (usable_size P, low).
Proof.
  intros WF wa wb wc wd low.
  pose proof (hdr_pos P WF) as (Hh & _ & _).
  pose proof (hdr_cases P WF) as Hhc.
  pose proof (modulus_cases P WF) as Hmc.
  pose proof (heapMINIMUM_BLOCK_SIZE_val P WF) as Hmn.
  pose proof (usable_bounds P WF) as Hub.
  pose proof (start_facts P WF) as [_ Hst8].
  assert (Hm : 4294967296 <= modulus P) by lia.
  assert (Hh16 : xHeapStructSize P <= 16) by lia.
  pose proof (wanted_size_exact P WF 10 ltac:(lia) ltac:(lia)) as Ha. fold wa in Ha.
  pose proof (wanted_size_exact P WF 128 ltac:(lia) ltac:(lia)) as Hb. fold wb in Hb.
  pose proof (wanted_size_exact P WF 50 ltac:(lia) ltac:(lia)) as Hc. fold wc in Hc.
  pose proof (wanted_size_exact P WF 100 ltac:(lia) ltac:(lia)) as Hd. fold wd in Hd.
  pose proof (wanted_size_exact P WF (1024 * 1024) ltac:(lia) ltac:(lia)) as Hbig.
  pose proof (wanted_size_mod8 P WF 10 ltac:(lia)) as Ha8. fold wa in Ha8.
  pose proof (wanted_size_mod8 P WF 128 ltac:(lia)) as Hb8. fold wb in Hb8.
  pose proof (wanted_size_mod8 P WF 50 ltac:(lia)) as Hc8. fold wc in Hc8.
  set (U := usable_size P) in *. set (h := xHeapStructSize P) in *.
  set (a := uxStartAddress P) in *. set (mn := heapMINIMUM_BLOCK_SIZE P) in *.
  set (R := U - wa - wb - wc - wd).
  (* the four allocations *)
  destruct (pvPortMalloc_first P WF 10) as (s0 & _ & I0 & M0 & _ & _ & C0).
  fold U in I0, M0.
  assert (A1 : alloc_abs mn wa a [(U, false)] = Some (a, [(wa, true); (U - wa, false)])).
  { cbn [alloc_abs]. destruct (Z.ltb_spec U wa); [lia|]. unfold carve.
    destruct (Z.ltb_spec mn (U - wa)); [reflexivity | lia]. }
  destruct (malloc_succeeds P WF s0 _ 10 _ _ I0 ltac:(lia) ltac:(fold wa h; lia) A1)
    as (s1 & E1 & I1 & M1).
  assert (A2 : alloc_abs mn wb a [(wa, true); (U - wa, false)]
               = Some (a + wa, [(wa, true); (wb, true); (U - wa - wb, false)])).
  { cbn [alloc_abs]. destruct (Z.ltb_spec (U - wa) wb); [lia|]. unfold carve.
    destruct (Z.ltb_spec mn (U - wa - wb)); [reflexivity | lia]. }
  destruct (malloc_succeeds P WF s1 _ 128 _ _ I1 ltac:(lia) ltac:(fold wb h; lia) A2)
    as (s2 & E2 & I2 & M2).
  assert (A3 : alloc_abs mn wc a [(wa, true); (wb, true); (U - wa - wb, false)]
               = Some (a + wa + wb,
                       [(wa, true); (wb, true); (wc, true); (U - wa - wb - wc, false)])).
  { cbn [alloc_abs]. destruct (Z.ltb_spec (U - wa - wb) wc); [lia|]. unfold carve.
    destruct (Z.ltb_spec mn (U - wa - wb - wc)); [reflexivity | lia]. }
  destruct (malloc_succeeds P WF s2 _ 50 _ _ I2 ltac:(lia) ltac:(fold wc h; lia) A3)
    as (s3 & E3 & I3 & M3).
  assert (A4 : alloc_abs mn wd a
                 [(wa, true); (wb, true); (wc, true); (U - wa - wb - wc, false)]
               = Some (a + wa + wb + wc,
                       [(wa, true); (wb, true); (wc, true); (wd, true); (R, false)])).
  { cbn [alloc_abs]. destruct (Z.ltb_spec (U - wa - wb - wc) wd); [lia|]. unfold carve.
    destruct (Z.ltb_spec mn (U - wa - wb - wc - wd)); [reflexivity | lia]. }
  destruct (malloc_succeeds P WF s3 _ 100 _ _ I3 ltac:(lia) ltac:(fold wd h; lia) A4)
    as (s4 & E4 & I4 & M4).
  fold h in E1, E2, E3, E4.
  cbn [free_total] in M1, M2, M3, M4.
  (* the three memsets *)
  destruct (client_memset_payload P WF fill s4 [] _ wa 170 10 I4 ltac:(fold h; lia))
    as (m5 & F5 & I5).
  destruct (client_memset_payload P WF fill (set_mem s4 m5) [(wa, true)] _ wb 187 128 I5
              ltac:(fold h; lia)) as (m6 & F6 & I6).
  destruct (client_memset_payload P WF fill (set_mem s4 m6) [(wa, true); (wb, true)] _ wc
              204 50 I6 ltac:(fold h; lia)) as (m7 & F7 & I7).
  fold a h in F5, F6, F7. cbn [set_mem mem total] in F5, F6, F7.
  replace (a + 0 + h) with (a + h) in F5 by lia.
  replace (a + (wa + 0) + h) with (a + wa + h) in F6 by lia.
  replace (a + (wa + (wb + 0)) + h) with (a + wa + wb + h) in F7 by lia.
  (* the frees and the refused request *)
  destruct (free_succeeds P WF (set_mem s4 m7) [(wa, true)]
              [(wc, true); (wd, true); (R, false)] wb I7) as (s8 & E8 & I8 & M8).
  fold a h in E8. cbn [total] in E8.
  replace (a + (wa + 0) + h) with (a + wa + h) in E8 by lia.
  cbn [coalesce merge_back merge_fwd fst snd app] in I8. cbn [set_mem xMinimumEverFreeBytesRemaining] in M8.
  destruct (free_succeeds P WF s8 [] [(wb, false); (wc, true); (wd, true); (R, false)]
              wa I8) as (s9 & E9 & I9 & M9).
  fold a h in E9. cbn [total] in E9.
  replace (a + 0 + h) with (a + h) in E9 by lia.
  cbn [coalesce merge_back merge_fwd fst snd app] in I9.
  assert (E10 : pvPortMalloc P s9 (1024 * 1024) = Some (s9, NULL)).
  { rewrite (pvPortMalloc_initialised P s9) by (eapply heap_inv_initialised; eauto).
    apply malloc_body_refuses. right. rewrite (inv_free _ _ _ I9). cbn [free_total].
    fold h in Hbig. lia. }
  destruct (free_succeeds P WF s9 [(wa + wb, false)] [(wd, true); (R, false)] wc I9)
    as (s11 & E11 & I11 & M11).
  fold a h in E11. cbn [total] in E11.
  replace (a + (wa + wb + 0) + h) with (a + wa + wb + h) in E11 by lia.
  cbn [coalesce merge_back merge_fwd fst snd app] in I11.
  destruct (free_succeeds P WF s11 [(wa + wb + wc, false)] [(R, false)] wd I11)
    as (s12 & E12 & I12 & M12).
  fold a h in E12. cbn [total] in E12.
  replace (a + (wa + wb + wc + 0) + h) with (a + wa + wb + wc + h) in E12 by lia.
  cbn [coalesce merge_back merge_fwd fst snd app] in I12.
  (* the program *)
  unfold stress_main. rewrite C0, E1. cbn [obind]. rewrite E2. cbn [obind].
  rewrite E3. cbn [obind]. rewrite E4. cbn [obind].
  rewrite F5. cbn [obind]. rewrite F6. cbn [obind]. rewrite F7. cbn [obind].
  rewrite E8. cbn [obind]. rewrite E9. cbn [obind]. rewrite E10. cbn [obind].
  rewrite E11. cbn [obind]. rewrite E12. cbn [obind].
  eexists. split; [reflexivity|].
  cbn [info_start ptr1 ptr2 ptr3 ptr4 info_after_alloc info_free_p2 info_merged
       p_too_large info_final].
  unfold print_heap_info, xPortGetFreeHeapSize, xPortGetMinimumEverFreeHeapSize.
  rewrite (inv_free _ _ _ I4), (inv_free _ _ _ I8), (inv_free _ _ _ I9),
    (inv_free _ _ _ I12).
  cbn [free_total heap0 xFreeBytesRemaining xMinimumEverFreeBytesRemaining].
  rewrite M12, M11, M9, M8.
  assert (Hlow : xMinimumEverFreeBytesRemaining s4 = low) by (unfold low, R in *; lia).
  rewrite Hlow.
  split; [reflexivity|]. split; [reflexivity|].
  split; [lia|]. split; [lia|]. split; [lia|].
  assert (Hh8 : h mod 8 = 0) by (destruct Hhc as [[_ ->] | [_ ->]]; reflexivity).
  assert (Hal : forall x y, x mod 8 = 0 -> y mod 8 = 0 -> (x + y) mod 8 = 0).
  { intros x y Hx Hy. rewrite Z.add_mod, Hx, Hy by lia. reflexivity. }
  split; [auto|]. split; [auto|]. split; [auto|]. split; [auto 6|].
  split; [f_equal; unfold low, R; lia|].
  split; [f_equal; unfold low, R; lia|].
  split; [f_equal; unfold low, R; lia|].
  split; [reflexivity|].
  f_equal. unfold R. lia.
Qed.

Lemma stress_main_passes_witness :
  exists r,
    stress_main LP64 (fun c _ _ => c) = Some r /\
    p_too_large r = NULL /\
    fst (info_final r) = usable_size LP64.
Proof.
  pose proof (stress_main_passes LP64 (fun c _ _ => c) LP64_wf) as H.
  cbv zeta in H.
  destruct H as (r & H1 & _ & _ & _ & _ & _ & _ & _ & _ & _ & _ & _ & _ & H14 & H15).
  exists r. split; [exact H1|]. split; [exact H14|]. now rewrite H15.
Defined.

(** X19. The block size at the upper end of the size type.  A request
    within the last header's worth of the word size makes the sum of
    request and header wrap around: the computed block size is then
    positive but no more than one header, so that the request looks
    small.  A request of up to seven bytes less wraps in the rounding
    step and is computed as 0, which pvPortMalloc refuses. *)
Theorem wanted_size_wraps (P : platform) (n : Z) :
  wf_platform P ->
  (modulus P - xHeapStructSize P < n < modulus P ->
   0 < wanted_size P n <= xHeapStructSize P) /\
  (modulus P - xHeapStructSize P - 7 <= n <= modulus P - xHeapStructSize P ->
   wanted_size P n = 0).
Proof.
  intros WF. pose proof (hdr_pos P WF) as (Hh & _ & _).
  pose proof (hdr_cases P WF) as Hhc. pose proof (modulus_cases P WF) as Hmc.
  pose proof (modulus_mult8 P WF) as Hm8.
  assert (Hh8 : xHeapStructSize P mod 8 = 0)
    by (destruct Hhc as [[_ ->] | [_ ->]]; reflexivity).
  assert (Hbig : 4294967296 <= modulus P) by lia.
  split; intros Hn; unfold wanted_size.
  - destruct (Z.ltb_spec 0 n); [|lia].
    rewrite land_mask_mod.
    assert (Ew : wrap P (n + xHeapStructSize P) = n + xHeapStructSize P - modulus P).
    { unfold wrap. symmetry. apply Z.mod_unique with (q := 1); lia. }
    rewrite Ew. set (v := n + xHeapStructSize P - modulus P) in *.
    pose proof (Z.mod_pos_bound v 8 ltac:(lia)) as Hv.
    pose proof (Z.div_mod v 8 ltac:(lia)) as Dv.
    pose proof (Z.div_mod (xHeapStructSize P) 8 ltac:(lia)) as Dh.
    destruct (Z.eqb_spec (v mod 8) 0) as [E | E]; cbn [negb]; [lia|].
    unfold portBYTE_ALIGNMENT. rewrite (wrap_small P) by lia. lia.
  - destruct (Z.ltb_spec 0 n); [|lia].
    rewrite land_mask_mod.
    destruct (Z.eq_dec n (modulus P - xHeapStructSize P)) as [-> | Hne].
    + replace (modulus P - xHeapStructSize P + xHeapStructSize P) with (modulus P) by lia.
      assert (Ew : wrap P (modulus P) = 0) by (unfold wrap; apply Z.mod_same; lia).
      rewrite Ew. reflexivity.
    + rewrite (wrap_small P (n + xHeapStructSize P)) by lia.
      set (v := n + xHeapStructSize P) in *.
      pose proof (Z.mod_pos_bound v 8 ltac:(lia)) as Hv.
      pose proof (Z.div_mod v 8 ltac:(lia)) as Dv.
      pose proof (Z.div_mod (modulus P) 8 ltac:(lia)) as Dm.
      destruct (Z.eqb_spec (v mod 8) 0) as [E | E]; cbn [negb]; [lia|].
      unfold portBYTE_ALIGNMENT.
      assert (Ev : v + (8 - v mod 8) = modulus P) by lia.
      rewrite Ev. unfold wrap. apply Z.mod_same. lia.
Qed.

Lemma wanted_size_wraps_witness :
  0 < wanted_size LP64 (2 ^ 64 - 9) <= xHeapStructSize LP64 /\
  wanted_size LP64 (2 ^ 64 - 20) = 0.
Proof.
  split.
  - apply (proj1 (wanted_size_wraps LP64 (2 ^ 64 - 9) LP64_wf)).
    vm_compute. split; reflexivity.
  - apply (proj2 (wanted_size_wraps LP64 (2 ^ 64 - 20) LP64_wf)).
    vm_compute. split; discriminate.
Defined.

Lemma conservation_witness :
  xPortGetFreeHeapSize demo_a + allocated_bytes LP64 demo_a [6296192; 6296048]
  = usable_size LP64.
Proof.
  exact (conservation LP64 LP64_wf demo_a _ demo_a_reachable demo_a_initialised).
Defined.

Lemma free_list_stays_ordered_witness : free_list_ordered LP64 demo_a.
Proof.
  exact (free_list_stays_ordered LP64 LP64_wf demo_a _ demo_a_reachable
           demo_a_initialised).
Defined.

Lemma oversized_request_refused_witness :
  pvPortMalloc LP64 demo_a (1024 * 1024) = Some (demo_a, NULL).
Proof.
  apply (oversized_request_refused LP64 LP64_wf demo_a _ (1024 * 1024)
           demo_a_reachable demo_a_initialised); vm_compute; reflexivity.
Defined.

(** X20. The allocation flag and the size share one word without
    getting in each other's way.  For every size below the flag bit,
    which covers every size an arena of configTOTAL_HEAP_SIZE bytes can
    hold: the plain size reads as free; marking it with
    heapALLOCATE_BLOCK makes heapBLOCK_IS_ALLOCATED true and keeps the
    word inside the size type; and heapFREE_BLOCK gives the size back,
    from the marked word and from the plain one alike. *)
Theorem flag_round_trip (P : platform) (x : Z) :
  wf_platform P -> 0 <= x < heapBLOCK_ALLOCATED_BITMASK P ->
  heapBLOCK_IS_ALLOCATED P x = false /\
  heapBLOCK_IS_ALLOCATED P (heapALLOCATE_BLOCK P x) = true /\
  heapFREE_BLOCK P (heapALLOCATE_BLOCK P x) = x /\
  heapFREE_BLOCK P x = x /\
  0 <= heapALLOCATE_BLOCK P x < modulus P /\
  configTOTAL_HEAP_SIZE < heapBLOCK_ALLOCATED_BITMASK P.
Proof.
  intros WF Hx. pose proof (bitmask_val P WF) as Hb. pose proof (bitmask_big P WF) as Hbb.
  rewrite (allocate_small P WF x Hx).
  split; [apply (is_allocated_small P WF x Hx)|].
  split; [apply (is_allocated_marked P WF x Hx)|].
  split; [apply (free_marked P WF x Hx)|].
  split; [apply (free_small P WF x Hx)|].
  split; [lia|]. unfold configTOTAL_HEAP_SIZE. lia.
Qed.

Lemma flag_round_trip_witness :
  heapFREE_BLOCK LP64 (heapALLOCATE_BLOCK LP64 144) = 144.
Proof.
  apply (flag_round_trip LP64 144 LP64_wf). vm_compute. split; [discriminate | reflexivity].
Defined.

(* ================================================================== *)
(** ** Runs in which the client writes to the memory it was given

    Between two calls the client stores into the bytes it asked for
    (stress.c fills its blocks with memset).  A run of this kind keeps,
    for every pointer the client holds, the number of bytes that was
    requested for it; a store may go to any word that starts in these
    bytes. *)

Fixpoint remove_ptr (p : Z) (l : list (Z * Z)) : list (Z * Z) :=
  match l with
  | [] => []
  | (q, n) :: r => if q =? p then r else (q, n) :: remove_ptr p r
  end.

(** Payload pointers of the allocated blocks of a sequence, each with
    the size of its block. *)
Fixpoint used_sizes (h a : Z) (bl : list block) : list (Z * Z) :=
  match bl with
  | [] => []
  | (sz, true) :: r => (a + h, sz) :: used_sizes h (a + sz) r
  | (sz, false) :: r => used_sizes h (a + sz) r
  end.

Section ClientRuns.
Variable P : platform.

(** Requests whose computed block size is 0, so that the call is
    refused, or holds the requested bytes and a header, as it does
    whenever the sum of lines 197 to 206 of heap.c does not wrap
    around. *)
Definition covers (n : Z) : Prop :=
  wanted_size P n = 0 \/ n + xHeapStructSize P <= wanted_size P n.

(** States reached from program start by calls of the public interface
    and by stores of the client, with the pointers the client holds and
    the number of bytes requested for each.  A store writes one word
    that starts inside the requested bytes of a pointer the client
    holds; [ok] restricts the sizes that are requested. *)
Inductive run (ok : Z -> Prop) : heap -> list (Z * Z) -> Prop :=
| run_start : run ok heap0 []
| run_alloc (s : heap) (live : list (Z * Z)) (n : Z) (s' : heap) (r : Z) :
    run ok s live ->
    0 <= n < modulus P -> ok n ->
    pvPortMalloc P s n = Some (s', r) ->
    run ok s' (if r =? NULL then live else (r, n) :: live)
| run_release (s : heap) (live : list (Z * Z)) (pv : Z) (s' : heap) :
    run ok s live ->
    pv = NULL \/ In pv (map fst live) ->
    vPortFree P s pv = Ok s' ->
    run ok s' (remove_ptr pv live)
| run_store (s : heap) (live : list (Z * Z)) (pv n x v : Z) (m' : memory) :
    run ok s live ->
    In (pv, n) live -> pv <= x < pv + n ->
    0 <= v < modulus P ->
    store P (mem s) x v = Some m' ->
    run ok (set_mem s m') live.

Hypothesis WF : wf_platform P.

Local Abbreviation xs := (xStart_addr P).
Local Abbreviation pb := (ptr_bytes P).
Local Abbreviation hdr := (xHeapStructSize P).
Local Abbreviation e := (uxEndAddress P).
Local Abbreviation st := (uxStartAddress P).
Local Abbreviation mn := (heapMINIMUM_BLOCK_SIZE P).

Lemma covers_fits_header (n : Z) : 0 <= n -> covers n -> fits_header P n.
Proof. intros Hn [H | H]; [now left | right; lia]. Qed.

Lemma no_wrap_covers (n : Z) :
  0 <= n -> n + hdr + 7 < modulus P -> covers n.
Proof.
  intros Hn Hfit. destruct (Z.eq_dec n 0) as [-> | Hne].
  - left. apply wanted_size_0.
  - right. apply (wanted_size_exact P WF); lia.
Qed.

(** A run of calls alone is a run. *)
Lemma remove_ptr_fst (p : Z) (l : list (Z * Z)) :
  map fst (remove_ptr p l) = remove_one p (map fst l).
Proof.
  induction l as [|[q n] r IH]; simpl; [reflexivity|].
  destruct (q =? p); simpl; [reflexivity | now rewrite IH].
Qed.

Lemma reachable_run (ok : Z -> Prop) (s : heap) (live : list Z) :
  reachable P ok s live -> exists held, run ok s held /\ map fst held = live.
Proof.
  induction 1 as [|s live n s' r _ (held & Hr & <-) Hn Hok Hc
                  |s live pv s' _ (held & Hr & <-) Hpv Hf].
  - exists []. split; [constructor | reflexivity].
  - exists (if r =? NULL then held else (r, n) :: held). split.
    + now apply run_alloc with (s := s).
    + now destruct (r =? NULL).
  - exists (remove_ptr pv held). split.
    + now apply run_release with (s := s).
    + apply remove_ptr_fst.
Qed.

Lemma used_sizes_ptrs (h a : Z) (bl : list block) :
  map fst (used_sizes h a bl) = used_ptrs h a bl.
Proof.
  revert a; induction bl as [|[sz [|]] r IH]; intros a; simpl;
    [reflexivity | now rewrite IH | apply IH].
Qed.

Lemma used_sizes_app (h a : Z) (l1 l2 : list block) :
  used_sizes h a (l1 ++ l2) = used_sizes h a l1 ++ used_sizes h (a + total l1) l2.
Proof.
  revert a; induction l1 as [|[s [|]] r IH]; intros a; simpl.
  - f_equal; lia.
  - rewrite IH. do 3 f_equal. lia.
  - rewrite IH. do 2 f_equal. lia.
Qed.

Lemma coalesce_used_sizes (h a : Z) (pre post : list block) (sz : Z) :
  used_sizes h a (coalesce pre sz post) =
  used_sizes h a pre ++ used_sizes h (a + total pre + sz) post.
Proof.
  unfold coalesce.
  destruct (merge_back_cases pre sz) as [[-> Hc] | (q & s & -> & ->)]; cbn [fst snd];
    [destruct (merge_fwd_cases sz post) as [[-> Hh] | (n & r & -> & ->)]
    |destruct (merge_fwd_cases (s + sz) post) as [[-> Hh] | (n & r & -> & ->)]];
    cbn [fst snd]; repeat (rewrite used_sizes_app; simpl); rewrite ?app_nil_r;
    repeat (rewrite total_app; simpl); try reflexivity; f_equal; f_equal; lia.
Qed.

Lemma alloc_abs_used_sizes (w h : Z) (bl bl' : list block) (a blk : Z) :
  alloc_abs mn w a bl = Some (blk, bl') ->
  exists sz, w <= sz /\
             Permutation (used_sizes h a bl') ((blk + h, sz) :: used_sizes h a bl).
Proof.
  revert a bl'; induction bl as [|[sz [|]] r IH]; intros a bl'; simpl.
  - discriminate.
  - destruct (alloc_abs mn w (a + sz) r) as [[p r']|] eqn:E; [|discriminate].
    intros [= <- <-]. destruct (IH _ _ E) as (z & Hz & Hp).
    exists z. split; [assumption|]. simpl. rewrite Hp. apply perm_swap.
  - destruct (Z.ltb_spec sz w).
    + destruct (alloc_abs mn w (a + sz) r) as [[p r']|] eqn:E; [|discriminate].
      intros [= <- <-]. simpl. apply (IH _ _ E).
    + intros [= <- <-]. unfold carve. destruct (mn <? sz - w); simpl.
      * exists w. split; [lia|].
        replace (a + w + (sz - w)) with (a + sz) by lia. reflexivity.
      * exists sz. split; [lia | reflexivity].
Qed.

Lemma used_sizes_split (h a pv sz : Z) (bl : list block) :
  In (pv, sz) (used_sizes h a bl) ->
  exists pre post, bl = pre ++ (sz, true) :: post /\ pv = a + total pre + h.
Proof.
  revert a; induction bl as [|[z [|]] r IH]; intros a; simpl.
  - tauto.
  - intros [E | Hin].
    + injection E as <- <-. exists [], r. simpl. split; [reflexivity | lia].
    + destruct (IH _ Hin) as (pre & post & -> & ->).
      exists ((z, true) :: pre), post. simpl. split; [reflexivity | lia].
  - intros Hin. destruct (IH _ Hin) as (pre & post & -> & ->).
    exists ((z, false) :: pre), post. simpl. split; [reflexivity | lia].
Qed.

(** The block behind a pointer holds the bytes requested for it. *)
Definition holds (l b : Z * Z) : Prop := fst l = fst b /\ snd l + hdr <= snd b.

Lemma holds_fst (live ub : list (Z * Z)) :
  Forall2 holds live ub -> map fst live = map fst ub.
Proof. induction 1 as [|l b live ub [E _] _ IH]; simpl; [reflexivity | now rewrite E, IH]. Qed.

Lemma holds_in (live ub : list (Z * Z)) (l : Z * Z) :
  Forall2 holds live ub -> In l live -> exists b, In b ub /\ holds l b.
Proof.
  induction 1 as [|l0 b0 live ub H0 _ IH]; simpl; [tauto|].
  intros [<- | Hin].
  - exists b0. auto.
  - destruct (IH Hin) as (b & Hb & Hh). exists b. auto.
Qed.

Lemma holds_remove (p : Z) (live ub : list (Z * Z)) :
  Forall2 holds live ub -> Forall2 holds (remove_ptr p live) (remove_ptr p ub).
Proof.
  induction 1 as [|[q n] [q' z] live ub [E H0] Hall IH]; simpl; [constructor|].
  simpl in E. subst q'.
  destruct (q =? p); [assumption|]. constructor; [split; auto | assumption].
Qed.

Lemma remove_ptr_perm (p sz : Z) (l : list (Z * Z)) :
  NoDup (map fst l) -> In (p, sz) l -> Permutation l ((p, sz) :: remove_ptr p l).
Proof.
  induction l as [|[q m] r IH]; simpl; [tauto|].
  intros Hnd Hin. apply NoDup_cons_iff in Hnd. destruct Hnd as [Hq Hnd].
  destruct Hin as [E | Hin].
  - injection E as -> ->. now rewrite Z.eqb_refl.
  - destruct (Z.eqb_spec q p) as [-> | Hne].
    + elim Hq. apply in_map_iff. exists (p, sz). auto.
    + rewrite perm_swap. constructor. now apply IH.
Qed.

Lemma remove_ptr_absent (p : Z) (l : list (Z * Z)) :
  ~ In p (map fst l) -> remove_ptr p l = l.
Proof.
  induction l as [|[q m] r IH]; simpl; [reflexivity|].
  intros Hn. destruct (Z.eqb_spec q p) as [-> | Hne]; [tauto|].
  f_equal. apply IH. tauto.
Qed.

(** Outside the blocks the client holds the allocator keeps its words
    small: a word that exceeds the end address is the size word of a
    held block or lies in the payload of one. *)
Definition tidy (s : heap) (ub : list (Z * Z)) : Prop :=
  forall x,
    (exists p z, In (p, z) ub /\ (x = p - hdr + pb \/ p <= x < p - hdr + z)) \/
    0 <= mem s x <= e.

(** What every state of a run looks like when the block sizes cover the
    requests: either no call has initialised the arena yet, or the state
    is a well-formed heap over some block sequence whose allocated
    blocks are the blocks of the pointers the client holds, each large
    enough for the bytes requested, and tidy outside these blocks. *)
Definition run_ok (s : heap) (live : list (Z * Z)) : Prop :=
  (s = heap0 /\ live = []) \/
  (exists bl ub, heap_inv P s bl /\
                 Permutation ub (used_sizes hdr st bl) /\
                 Forall2 holds live ub /\
                 tidy s ub).

Lemma store_cases (m : memory) (a v : Z) (m' : memory) :
  store P m a v = Some m' -> forall x, m' x = m x \/ m' x = v.
Proof.
  unfold store. destruct (valid_word P a); [|discriminate].
  intros [= <-] x. unfold upd. destruct (x =? a); auto.
Qed.

Lemma prvHeapInit_small (s1 : heap) :
  prvHeapInit P heap0 = Some s1 -> forall x, 0 <= mem s1 x <= e.
Proof.
  pose proof (start_facts P WF) as [Hst _]. pose proof (wf_heap_pos P WF) as Hhp.
  pose proof (end_facts P WF) as Hef. pose proof (usable_bounds P WF) as Hub.
  pose proof (modulus_big P WF) as Hmb.
  unfold usable_size in Hub.
  unfold prvHeapInit. intros H. inv_all.
  intros x. cbn [mem].
  repeat match goal with
         | E : store_next P _ _ _ = Some _ |- _ =>
             apply store_cases with (x := x) in E
         | E : store_size P _ _ _ = Some _ |- _ =>
             apply store_cases with (x := x) in E
         end.
  rewrite (wrap_small P) in * by lia. unfold NULL in *.
  assert (Ez : mem heap0 x = 0) by reflexivity.
  lia.
Qed.

Lemma nodup_fst_unique (l : list (Z * Z)) (p z z' : Z) :
  NoDup (map fst l) -> In (p, z) l -> In (p, z') l -> z = z'.
Proof.
  induction l as [|[q m] r IH]; simpl; [tauto|].
  intros Hnd H1 H2. apply NoDup_cons_iff in Hnd. destruct Hnd as [Hq Hnd].
  assert (Hout : forall y, In (q, y) r -> False).
  { intros y Hy. apply Hq. apply in_map_iff. exists (q, y). auto. }
  destruct H1 as [E1 | H1], H2 as [E2 | H2].
  - congruence.
  - injection E1 as -> ->. elim (Hout _ H2).
  - injection E2 as -> ->. elim (Hout _ H1).
  - now apply IH.
Qed.

Lemma remove_ptr_other (p q z : Z) (l : list (Z * Z)) :
  In (q, z) l -> q <> p -> In (q, z) (remove_ptr p l).
Proof.
  induction l as [|[q' m] r IH]; simpl; [tauto|].
  intros [E | Hin] Hne.
  - injection E as -> ->. destruct (Z.eqb_spec q p); [contradiction | now left].
  - destruct (q' =? p); [assumption | right; auto].
Qed.

Lemma run_ok_malloc (s : heap) (live : list (Z * Z)) (n : Z) (s' : heap) (r : Z) :
  run_ok s live -> 0 <= n < modulus P -> covers n ->
  pvPortMalloc P s n = Some (s', r) ->
  run_ok s' (if r =? NULL then live else (r, n) :: live).
Proof.
  intros Hok Hn Hcov Hc. right.
  pose proof (hdr_pos P WF) as (Hh & _ & _).
  assert (Hfit : fits_header P n) by (apply covers_fits_header; [lia | assumption]).
  assert (Hs1 : exists s1 bl ub, pvPortMalloc P s1 n = Some (s', r) /\ heap_inv P s1 bl /\
                                 Permutation ub (used_sizes hdr st bl) /\
                                 Forall2 holds live ub /\ tidy s1 ub).
  { destruct Hok as [[-> ->] | (bl & ub & Hinv & Hperm & Hall & Ht)].
    - destruct (pvPortMalloc_first P WF n) as (s1 & Ei & Hinv & _ & _ & _ & E).
      exists s1, [(usable_size P, false)], []. rewrite <- E.
      split; [assumption|]. split; [assumption|]. split; [constructor|].
      split; [constructor|]. intros x. right. now apply prvHeapInit_small.
    - exists s, bl, ub. auto. }
  destruct Hs1 as (s1 & bl & ub & Hc1 & Hinv & Hperm & Hall & Ht).
  destruct (malloc_cases P WF s1 bl n s' r Hinv Hn Hfit Hc1)
    as [(-> & -> & _) | (blk & bl' & Hbig & Ea & -> & Hnz & _ & Hinv' & _)].
  - simpl. exists bl, ub. auto.
  - destruct (Z.eqb_spec (blk + hdr) NULL); [contradiction|].
    destruct (alloc_abs_used_sizes _ hdr _ _ _ _ Ea) as (sz & Hsz & Hp).
    exists bl', ((blk + hdr, sz) :: ub).
    split; [assumption|]. split; [rewrite Hp; now constructor|]. split.
    + constructor; [|assumption]. split; [reflexivity|]. simpl.
      destruct Hcov as [Hz | Hcov]; lia.
    + pose proof (malloc_body_spec P WF s1 bl _ Hinv Hbig
                    (wanted_size_mod8 P WF n (proj1 Hn))
                    (proj2 (wanted_size_range P WF n Hn))) as Hspec.
      rewrite Ea in Hspec. destruct Hspec as (s2 & E2 & _ & _ & _ & _ & Hfr).
      rewrite (pvPortMalloc_initialised P s1) in Hc1
        by (eapply heap_inv_initialised; eauto).
      rewrite E2 in Hc1. injection Hc1 as <-.
      intros x. destruct (Hfr x) as [E | [Hsm | ->]].
      * rewrite E. destruct (Ht x) as [(p & z & Hin & Hx) | Hs]; [left | now right].
        exists p, z. split; [now right | assumption].
      * now right.
      * left. exists (blk + hdr), sz. split; [now left | left; lia].
Qed.

Lemma run_ok_nodup (s : heap) (bl : list block) (ub : list (Z * Z)) :
  heap_inv P s bl -> Permutation ub (used_sizes hdr st bl) -> NoDup (map fst ub).
Proof.
  intros Hinv Hperm.
  destruct (used_blocks_apart P WF s bl st (inv_seg _ _ _ Hinv) (inv_useg _ _ _ Hinv))
    as (_ & Hnd & _).
  eapply Permutation_NoDup; [|exact Hnd].
  rewrite <- used_sizes_ptrs. symmetry. now apply Permutation_map.
Qed.

Lemma run_ok_free (s : heap) (live : list (Z * Z)) (pv : Z) (s' : heap) :
  run_ok s live -> pv = NULL \/ In pv (map fst live) ->
  vPortFree P s pv = Ok s' ->
  run_ok s' (remove_ptr pv live).
Proof.
  intros Hok Hpv Hf.
  pose proof (hdr_pos P WF) as (Hh & _ & Hpp).
  pose proof (bitmask_big P WF) as Hbb.
  destruct Hok as [[-> ->] | (bl & ub & Hinv & Hperm & Hall & Ht)].
  - destruct Hpv as [-> | []]. simpl in Hf. injection Hf as <-. now left.
  - right. destruct (in_dec Z.eq_dec pv (map fst live)) as [Hin | Hnin].
    + rewrite (holds_fst _ _ Hall) in Hin.
      apply in_map_iff in Hin. destruct Hin as ([q sz] & Eq & Hin). simpl in Eq. subst q.
      assert (Hin' : In (pv, sz) (used_sizes hdr st bl)) by (eapply Permutation_in; eauto).
      pose proof (run_ok_nodup _ _ _ Hinv Hperm) as Hnd.
      destruct (used_sizes_split _ _ _ _ _ Hin') as (pre & post & -> & ->).
      destruct (vPortFree_spec_clear P WF s pre post sz Hinv)
        as (s2 & E2 & Hinv2 & _ & _ & _ & _ & _ & Hsm & Hown & Hclear).
      rewrite E2 in Hf. injection Hf as <-.
      exists (coalesce pre sz post), (remove_ptr (st + total pre + hdr) ub).
      split; [assumption|]. split; [|split; [now apply holds_remove|]].
      * rewrite coalesce_used_sizes.
        rewrite used_sizes_app in Hperm. simpl in Hperm.
        apply (Permutation_cons_inv (a := (st + total pre + hdr, sz))).
        rewrite <- (remove_ptr_perm _ _ _ Hnd Hin).
        rewrite Hperm. symmetry. apply Permutation_middle.
      * pose proof (inv_useg _ _ _ Hinv) as Hu.
        apply useg_app in Hu. destruct Hu as [_ (U1 & _ & _)].
        pose proof (inv_seg _ _ _ Hinv) as Hs.
        apply (seg_ok_app P WF) in Hs. destruct Hs as [_ Hs].
        destruct (seg_ok_cons P WF _ _ _ Hs) as (_ & _ & [Hb _]). cbn [fst] in Hb.
        intros x.
        destruct (Z.eq_dec x (st + total pre + pb)) as [-> | Hx1].
        { right. destruct (Hsm (st + total pre + pb)) as [E | Hs']; [|assumption].
          rewrite E, U1 in Hown. lia. }
        destruct (Z_le_dec (st + total pre + hdr) x) as [Hlo | Hlo];
          [destruct (Z_lt_dec x (st + total pre + sz)) as [Hhi | Hhi]|].
        { right. rewrite Hclear by lia.
          pose proof (end_small P WF) as [He _]. unfold NULL in He. lia. }
        { destruct (Hsm x) as [E | Hs']; [|now right]. rewrite E.
          destruct (Ht x) as [(p & z & Hp & Hxp) | Hs'']; [left | now right].
          exists p, z. split; [|assumption].
          apply remove_ptr_other; [assumption|]. intros ->.
          pose proof (nodup_fst_unique _ _ _ _ Hnd Hp Hin) as ->. lia. }
        { destruct (Hsm x) as [E | Hs']; [|now right]. rewrite E.
          destruct (Ht x) as [(p & z & Hp & Hxp) | Hs'']; [left | now right].
          exists p, z. split; [|assumption].
          apply remove_ptr_other; [assumption|]. intros ->.
          pose proof (nodup_fst_unique _ _ _ _ Hnd Hp Hin) as ->. lia. }
    + destruct Hpv as [-> | ?]; [|contradiction].
      simpl in Hf. injection Hf as <-.
      rewrite remove_ptr_absent by assumption. exists bl, ub. auto.
Qed.

Lemma run_ok_store (s : heap) (live : list (Z * Z)) (pv n x v : Z) (m' : memory) :
  run_ok s live -> In (pv, n) live -> pv <= x < pv + n ->
  store P (mem s) x v = Some m' ->
  run_ok (set_mem s m') live.
Proof.
  intros Hok Hin Hx Hs.
  destruct Hok as [[_ ->] | (bl & ub & Hinv & Hperm & Hall & Ht)]; [destruct Hin|].
  right. exists bl, ub.
  destruct (holds_in _ _ _ Hall Hin) as ([q sz] & Hb & [E1 E2]); simpl in E1, E2; subst q.
  assert (Hin' : In (pv, sz) (used_sizes hdr st bl)) by (eapply Permutation_in; eauto).
  destruct (used_sizes_split _ _ _ _ _ Hin') as (pre & post & -> & ->).
  unfold store in Hs. destruct (valid_word P x); [|discriminate]. injection Hs as <-.
  split; [apply (client_write_heap_inv P WF); [assumption | lia]|].
  split; [assumption|]. split; [assumption|].
  intros y. cbn [set_mem mem]. unfold upd.
  destruct (Z.eqb_spec y x) as [-> | Hne]; [|apply Ht].
  left. exists (st + total pre + hdr), sz. split; [assumption | right; lia].
Qed.

(** Every state of a run whose block sizes cover the requests is a
    well-formed heap, whatever the client stores. *)
Lemma run_heap_ok (s : heap) (live : list (Z * Z)) :
  run covers s live -> run_ok s live.
Proof.
  induction 1 as [|s live n s' r _ IH Hn Hcov Hc|s live pv s' _ IH Hpv Hf
                  |s live pv n x v m' _ IH Hin Hx _ Hs].
  - now left.
  - eapply run_ok_malloc; eauto.
  - eapply run_ok_free; eauto.
  - eapply run_ok_store; eauto.
Qed.

(** The block of a pointer the client holds. *)
Lemma run_block (s : heap) (live : list (Z * Z)) (pv n : Z) :
  run covers s live -> In (pv, n) live ->
  exists pre sz post,
    heap_inv P s (pre ++ (sz, true) :: post) /\
    pv = st + total pre + hdr /\ n + hdr <= sz /\
    Permutation (map fst live) (used_ptrs hdr st (pre ++ (sz, true) :: post)).
Proof.
  intros Hr Hin.
  destruct (run_heap_ok _ _ Hr) as [[_ ->] | (bl & ub & Hinv & Hperm & Hall & _)];
    [destruct Hin|].
  destruct (holds_in _ _ _ Hall Hin) as ([q sz] & Hb & [E1 E2]); simpl in E1, E2; subst q.
  assert (Hin' : In (pv, sz) (used_sizes hdr st bl)) by (eapply Permutation_in; eauto).
  destruct (used_sizes_split _ _ _ _ _ Hin') as (pre & post & -> & ->).
  exists pre, sz, post. split; [assumption|]. split; [reflexivity|]. split; [assumption|].
  rewrite (holds_fst _ _ Hall), <- used_sizes_ptrs. now apply Permutation_map.
Qed.

(** Initialised states of such runs. *)
Lemma run_heap_inv (s : heap) (live : list (Z * Z)) :
  run covers s live -> pxEnd s <> NULL ->
  exists bl, heap_inv P s bl /\ Permutation (map fst live) (used_ptrs hdr st bl).
Proof.
  intros Hr Hinit.
  destruct (run_heap_ok _ _ Hr) as [[-> _] | (bl & ub & Hinv & Hperm & Hall & _)];
    [now elim Hinit|].
  exists bl. split; [assumption|].
  rewrite (holds_fst _ _ Hall), <- used_sizes_ptrs. now apply Permutation_map.
Qed.

Lemma holds_in_r (live ub : list (Z * Z)) (b : Z * Z) :
  Forall2 holds live ub -> In b ub -> exists l, In l live /\ holds l b.
Proof.
  induction 1 as [|l0 b0 live ub H0 _ IH]; simpl; [tauto|].
  intros [<- | Hin].
  - exists l0. auto.
  - destruct (IH Hin) as (l & Hl & Hh). exists l. auto.
Qed.

(** A word that is neither the size word of a held block nor inside the
    payload of one is at most the end address. *)
Lemma run_unheld_small (s : heap) (live : list (Z * Z)) (x : Z) :
  run covers s live ->
  (forall q m, In (q, m) live ->
     x <> q - hdr + pb /\ ~ (q <= x < q - hdr + block_size_of P s q)) ->
  0 <= mem s x <= e.
Proof.
  intros Hr Hout. pose proof (end_small P WF) as [He _]. unfold NULL in He.
  destruct (run_heap_ok _ _ Hr) as [[-> _] | (bl & ub & Hinv & Hperm & Hall & Ht)];
    [simpl; lia|].
  destruct (Ht x) as [(p & z & Hin & Hx) | Hs]; [exfalso | assumption].
  destruct (holds_in_r _ _ _ Hall Hin) as ([q m] & Hl & [E _]). simpl in E. subst q.
  assert (Hin' : In (p, z) (used_sizes hdr st bl)) by (eapply Permutation_in; eauto).
  destruct (used_sizes_split _ _ _ _ _ Hin') as (pre & post & -> & ->).
  destruct (Hout _ _ Hl) as [H1 H2].
  rewrite (block_size_of_used P WF _ _ _ _ Hinv) in H2.
  destruct Hx as [Hx | Hx]; [contradiction | now apply H2].
Qed.

End ClientRuns.

(** A store of the client, as a step of a run. *)
Lemma client_store (P : platform) (ok : Z -> Prop) (s : heap) (live : list (Z * Z))
      (pv n x v : Z) :
  run P ok s live -> In (pv, n) live -> pv <= x < pv + n ->
  0 <= v < modulus P -> valid_word P x = true ->
  run P ok (client_write s x v) live.
Proof.
  intros Hr Hin Hx Hv Hvalid.
  apply (run_store P ok s live pv n x v (upd (mem s) x v)); try assumption.
  unfold store. now rewrite Hvalid.
Qed.

Ltac client_stores held :=
  match goal with
  | |- run ?P ?ok (client_write ?s ?x ?v) ?live =>
      apply (client_store P ok s live (fst held) (snd held) x v);
      [ | simpl; tauto | in_range | in_range | vm_compute; reflexivity]
  end.

Section ClientRunFacts.
Variable P : platform.
Hypothesis WF : wf_platform P.

Local Abbreviation xs := (xStart_addr P).
Local Abbreviation pb := (ptr_bytes P).
Local Abbreviation hdr := (xHeapStructSize P).
Local Abbreviation e := (uxEndAddress P).
Local Abbreviation st := (uxStartAddress P).

Lemma all_used_no_nodes (a : Z) (bl : list block) :
  all_used bl -> free_nodes a bl = [].
Proof.
  intros H. revert a. induction H as [|[sz u] r Hu _ IH]; intros a; simpl; [reflexivity|].
  simpl in Hu. subst u. apply IH.
Qed.

(** The node at which the walk of prvInsertBlockIntoFreeList stops is
    xStart when no free block lies below the block being inserted, and
    otherwise the free block nearest to it among those below. *)
Lemma last_free_nearest (pre post : list block) (sz top : Z) :
  seg_ok P st (pre ++ (sz, true) :: post) ->
  st + total (pre ++ (sz, true) :: post) <= top ->
  let nodes := free_nodes st (pre ++ (sz, true) :: post) ++ [(top, 0)] in
  let prev := last_free st pre xs in
  (prev = xs /\ forall a z, In (a, z) nodes -> st + total pre < a) \/
  (exists fsz, In (prev, fsz) nodes /\ prev < st + total pre /\
               forall a z, In (a, z) nodes -> a < st + total pre -> a <= prev).
Proof.
  intros Hseg Htop. cbv zeta.
  pose proof (hdr_pos P WF) as (Hh & _ & _).
  rewrite total_app in Htop. cbn [total] in Htop.
  apply (seg_ok_app P WF) in Hseg. destruct Hseg as [Hpre Hrest].
  destruct (seg_ok_cons P WF _ _ _ Hrest) as (_ & Hpost & [Hb _]).
  cbn [fst] in Hpost, Hb.
  pose proof (free_nodes_bounds P WF _ _ Hpost) as Bpost.
  rewrite Forall_forall in Bpost.
  assert (Hafter : forall a z,
             In (a, z) (free_nodes (st + total pre + sz) post ++ [(top, 0)]) ->
             st + total pre < a).
  { intros a z Hin. apply in_app_or in Hin. destruct Hin as [Hin | [E | []]].
    - specialize (Bpost _ Hin). simpl in Bpost. lia.
    - injection E as <- _.
      destruct Hpost as (_ & _ & _ & Hok). pose proof (total_nonneg P WF _ Hok). lia. }
  rewrite free_nodes_app. cbn [free_nodes]. rewrite <- app_assoc.
  destruct (prefix_cases pre st xs) as [[Hu E] | (p1 & fsz & p2 & -> & Hu & E)].
  - left. split; [assumption|]. rewrite (all_used_no_nodes _ _ Hu). exact Hafter.
  - right. rewrite E. exists fsz.
    apply (seg_ok_app P WF) in Hpre. destruct Hpre as [Hp1 Hp2].
    destruct (seg_ok_cons P WF _ _ _ Hp2) as (_ & Hp2' & [Hf _]). cbn [fst] in Hp2', Hf.
    destruct Hp2' as (_ & _ & _ & Hok2). pose proof (total_nonneg P WF _ Hok2) as Hn2.
    pose proof (free_nodes_bounds P WF _ _ Hp1) as Bp1. rewrite Forall_forall in Bp1.
    rewrite total_app in *. cbn [total] in *.
    rewrite free_nodes_app. cbn [free_nodes]. rewrite (all_used_no_nodes _ _ Hu).
    split; [|split; [lia|]].
    + apply in_or_app. left. apply in_or_app. right. now left.
    + intros a z Hin Hlt. apply in_app_or in Hin. destruct Hin as [Hin | Hin].
      * apply in_app_or in Hin. destruct Hin as [Hin | [E' | []]].
        -- specialize (Bp1 _ Hin). simpl in Bp1. lia.
        -- injection E' as <- _. lia.
      * specialize (Hafter _ _ Hin). lia.
Qed.





End ClientRunFacts.

(** C10 (as amended).  In a run of calls and client stores in which every
    block size covers its request, a vPortFree call on a pointer the
    client holds leaves the watermark, the allocation counter and the
    end pointer unchanged; it adds the block's size to the free-byte
    counter and one to the free counter; and the only words of memory
    it changes lie in the freed block, header and payload, or are the
    two header words, link and size, of the node in front of the freed
    block: xStart when no block of the free list lies below the freed
    block, and otherwise the free block nearest to it among those
    below.  The size of that node is written when the freed block is
    merged into it.  Runs with a block size that wrapped around are left
    out: there the call need not return, see
    [free_of_wrapped_block_faults]. *)
Theorem free_frame (P : platform) (s : heap) (live : list (Z * Z)) (pv n : Z) :
  wf_platform P -> run P (covers P) s live -> In (pv, n) live ->
  exists s' prev nodes,
    vPortFree P s pv = Ok s' /\
    xMinimumEverFreeBytesRemaining s' = xMinimumEverFreeBytesRemaining s /\
    xNumberOfSuccessfulAllocations s' = xNumberOfSuccessfulAllocations s /\
    pxEnd s' = pxEnd s /\
    xFreeBytesRemaining s' = xFreeBytesRemaining s + block_size_of P s pv /\
    xNumberOfSuccessfulFrees s' = wrap P (xNumberOfSuccessfulFrees s + 1) /\
    free_list P s = Some nodes /\
    ((prev = xStart_addr P /\
      forall a z, In (a, z) nodes -> pv - xHeapStructSize P < a) \/
     (exists fsz, In (prev, fsz) nodes /\ prev < pv - xHeapStructSize P /\
                  forall a z, In (a, z) nodes -> a < pv - xHeapStructSize P ->
                              a <= prev)) /\
    free_confined_to_block_and_node P s s' pv prev.
Proof.
  intros WF Hr Hin.
  pose proof (hdr_pos P WF) as (Hh & _ & Hpp).
  destruct (run_block P WF _ _ _ _ Hr Hin) as (pre & sz & post & Hinv & -> & _).
  destruct (vPortFree_spec P WF s pre post sz Hinv)
    as (s1 & E1 & Hinv1 & Hf & Hmin & Hal & Hfr & Hframe & _).
  unfold free_confined_to_block_and_node.
  rewrite (block_size_of_used P WF _ _ _ _ Hinv).
  replace (uxStartAddress P + total pre + xHeapStructSize P - xHeapStructSize P)
    with (uxStartAddress P + total pre) by lia.
  exists s1, (last_free (uxStartAddress P) pre (xStart_addr P)),
         (free_nodes (uxStartAddress P) (pre ++ (sz, true) :: post) ++ [(pxEnd s, 0)]).
  split; [assumption|]. split; [assumption|]. split; [assumption|].
  split; [now rewrite (inv_end _ _ _ Hinv), (inv_end _ _ _ Hinv1)|].
  split; [assumption|]. split; [assumption|].
  split; [now apply free_list_of_heap|]. split.
  - apply (last_free_nearest P WF); [exact (inv_seg _ _ _ Hinv)|].
    rewrite (inv_end _ _ _ Hinv), (inv_total _ _ _ Hinv). lia.
  - intros x Hx.
    destruct (Z.eq_dec x (last_free (uxStartAddress P) pre (xStart_addr P)));
      [now (right; left)|].
    destruct (Z.eq_dec x (last_free (uxStartAddress P) pre (xStart_addr P) + ptr_bytes P));
      [now (right; right)|].
    left.
    destruct (Z_le_dec (uxStartAddress P + total pre) x);
      destruct (Z_lt_dec x (uxStartAddress P + total pre + sz)); try lia;
      elim Hx; apply Hframe; auto; lia.
Qed.

Lemma covers_10 : covers LP64 10.
Proof. right. vm_compute. discriminate. Defined.

Lemma covers_128 : covers LP64 128.
Proof. right. vm_compute. discriminate. Defined.

Lemma covers_50 : covers LP64 50.
Proof. right. vm_compute. discriminate. Defined.

Lemma demo_a_run :
  run LP64 (covers LP64) demo_a [(6296192, 50); (6296048, 128)].
Proof.
  assert (R1 : run LP64 (covers LP64) demo1 [(6296016, 10)]).
  { refine (run_alloc LP64 _ heap0 _ 10 demo1 6296016 (run_start LP64 _) _ covers_10 _);
      [in_range | run_malloc]. }
  assert (R2 : run LP64 (covers LP64) demo2 [(6296048, 128); (6296016, 10)]).
  { refine (run_alloc LP64 _ demo1 _ 128 demo2 6296048 R1 _ covers_128 _);
      [in_range | run_malloc]. }
  assert (R3 : run LP64 (covers LP64) demo_c
                 [(6296192, 50); (6296048, 128); (6296016, 10)]).
  { refine (run_alloc LP64 _ demo2 _ 50 demo_c 6296192 R2 _ covers_50 _);
      [in_range | run_malloc]. }
  refine (run_release LP64 _ demo_c _ 6296016 demo_a R3 _ _);
    [right; simpl; tauto | run_free].
Defined.

Lemma free_frame_witness :
  exists s', vPortFree LP64 demo_a 6296048 = Ok s' /\
             xMinimumEverFreeBytesRemaining s' = xMinimumEverFreeBytesRemaining demo_a.
Proof.
  destruct (free_frame LP64 demo_a _ 6296048 128 LP64_wf demo_a_run
              (or_intror (or_introl eq_refl)))
    as (s' & prev & nodes & H1 & H2 & _).
  exists s'. split; assumption.
Defined.

(** After the request of 2^64 - 9 bytes on the 64-bit target, whose
    block size wrapped to 8, the header of the block reads as 6336944
    bytes, and vPortFree of the pointer leaves the arena while it clears
    the payload. *)
Lemma free_of_wrapped_block_faults : vPortFree LP64 wrapped 6296016 = Fault.
Proof. vm_compute. reflexivity. Qed.

(** X10.  Stores of the client do not disturb the allocator as long as
    every block size covers its request.  In every initialised state of
    a run of pvPortMalloc calls, vPortFree calls and client stores into
    the requested bytes of held pointers, free bytes plus the sizes of
    the held blocks make up the usable size; the free list is ordered by
    address, ends in the end sentinel and has no two blocks that touch;
    the held pointers are distinct; and the block of each held pointer
    lies inside the arena and holds the requested bytes behind its
    header. *)
Theorem client_stores_keep_heap_well_formed (P : platform) (s : heap)
        (live : list (Z * Z)) :
  wf_platform P -> run P (covers P) s live -> pxEnd s <> NULL ->
  xPortGetFreeHeapSize s + allocated_bytes P s (map fst live) = usable_size P /\
  free_list_ordered P s /\
  NoDup (map fst live) /\
  forall pv n, In (pv, n) live ->
    n + xHeapStructSize P <= block_size_of P s pv /\
    uxStartAddress P + xHeapStructSize P <= pv /\
    pv - xHeapStructSize P + block_size_of P s pv <= uxEndAddress P.
Proof.
  intros WF Hr Hinit.
  destruct (run_heap_inv P WF s live Hr Hinit) as (bl & Hinv & Hperm).
  split; [eapply heap_inv_conservation; eauto|].
  split; [eapply heap_inv_free_list_ordered; eauto|].
  split.
  - destruct (used_blocks_apart P WF s bl _ (inv_seg _ _ _ Hinv) (inv_useg _ _ _ Hinv))
      as (_ & Hnd & _).
    eapply Permutation_NoDup; [symmetry; exact Hperm | exact Hnd].
  - intros pv n Hin.
    destruct (run_block P WF _ _ _ _ Hr Hin) as (pre & sz & post & Hinv' & -> & Hn & _).
    rewrite (block_size_of_used P WF _ _ _ _ Hinv').
    pose proof (inv_seg _ _ _ Hinv') as (_ & _ & Htop & Hok).
    rewrite total_app in Htop. cbn [total] in Htop.
    apply Forall_app in Hok. destruct Hok as [Hpre Hpost].
    apply Forall_cons_iff in Hpost. destruct Hpost as [_ Hpost].
    pose proof (total_nonneg P WF _ Hpre). pose proof (total_nonneg P WF _ Hpost).
    lia.
Qed.

(** The state after the client has stored 170 in the first word of the
    block of 128 bytes. *)
Definition stored_a : heap := client_write demo_a 6296048 170.

Lemma stored_a_run :
  run LP64 (covers LP64) stored_a [(6296192, 50); (6296048, 128)].
Proof.
  unfold stored_a. client_stores (6296048, 128). exact demo_a_run.
Defined.

Lemma client_stores_keep_heap_well_formed_witness :
  xPortGetFreeHeapSize stored_a + allocated_bytes LP64 stored_a [6296192; 6296048]
    = usable_size LP64 /\
  free_list_ordered LP64 stored_a.
Proof.
  destruct (client_stores_keep_heap_well_formed LP64 stored_a _ LP64_wf stored_a_run
              ltac:(vm_compute; discriminate)) as (H1 & H2 & _).
  split; [exact H1 | exact H2].
Defined.



(** X25.  Double free in runs whose block sizes cover the requests,
    client stores included: vPortFree on a pointer the client holds
    returns, and a second vPortFree on the same pointer right after it
    finds the allocation flag of the block clear and stops in
    configASSERT with the state as the first call left it. *)
Theorem double_free_halts_in_covering_runs (P : platform) (s : heap)
        (live : list (Z * Z)) (pv n : Z) :
  wf_platform P -> run P (covers P) s live -> In (pv, n) live ->
  exists s1,
    vPortFree P s pv = Ok s1 /\
    vPortFree P s1 pv = Halted s1 /\
    heapBLOCK_IS_ALLOCATED P (mem s1 (pv - xHeapStructSize P + ptr_bytes P)) = false.
Proof.
  intros WF Hr Hin.
  pose proof (hdr_pos P WF) as (Hh & _ & Hpp).
  destruct (run_block P WF _ _ _ _ Hr Hin) as (pre & sz & post & Hinv & -> & _).
  destruct (vPortFree_spec P WF s pre post sz Hinv)
    as (s1 & E1 & _ & _ & _ & _ & _ & _ & _ & Hown).
  pose proof (inv_seg _ _ _ Hinv) as Hseg.
  apply (seg_ok_app P WF) in Hseg. destruct Hseg as [_ Hseg].
  apply (seg_ok_hdr P WF) in Hseg.
  exists s1. split; [assumption|]. split.
  - now apply vPortFree_unflagged.
  - replace (uxStartAddress P + total pre + xHeapStructSize P - xHeapStructSize P
             + ptr_bytes P) with (uxStartAddress P + total pre + ptr_bytes P) by lia.
    now apply (is_allocated_small P WF).
Qed.

Lemma double_free_halts_in_covering_runs_witness :
  exists s1, vPortFree LP64 stored_a 6296048 = Ok s1 /\
             vPortFree LP64 s1 6296048 = Halted s1.
Proof.
  destruct (double_free_halts_in_covering_runs LP64 stored_a _ 6296048 128 LP64_wf
              stored_a_run (or_intror (or_introl eq_refl))) as (s1 & H1 & H2 & _).
  exists s1. split; assumption.
Defined.

(** X26.  Freeing what the client does not hold, in runs whose block
    sizes cover the requests, client stores included, when the arena
    lies below the flag bit of the address space: a vPortFree call on an
    address where a payload can start, that is not a pointer the client
    holds and whose header's size word does not lie in the payload of a
    block the client holds, finds the allocation flag clear and stops in
    configASSERT with the state untouched.  So a second free of a
    pointer stops, however many calls and stores lie between the two,
    until the memory of its header is handed out again. *)
Theorem free_of_unheld_pointer_halts (P : platform) (s : heap)
        (live : list (Z * Z)) (pv : Z) :
  wf_platform P -> uxEndAddress P < heapBLOCK_ALLOCATED_BITMASK P ->
  run P (covers P) s live ->
  hdr_addr P (pv - xHeapStructSize P) ->
  (forall q m, In (q, m) live ->
     pv <> q /\
     ~ (q <= pv - xHeapStructSize P + ptr_bytes P
          < q - xHeapStructSize P + block_size_of P s q)) ->
  vPortFree P s pv = Halted s.
Proof.
  intros WF LOW Hr Hh Hout.
  replace pv with (pv - xHeapStructSize P + xHeapStructSize P) at 1 by lia.
  apply (vPortFree_unflagged P WF); [assumption|].
  assert (Hs : 0 <= mem s (pv - xHeapStructSize P + ptr_bytes P) <= uxEndAddress P).
  { apply (run_unheld_small P WF s live); [assumption|].
    intros q m Hin. destruct (Hout q m Hin) as [H1 H2]. split; [lia | assumption]. }
  lia.
Qed.

Lemma free_of_unheld_pointer_halts_witness :
  vPortFree LP64 stored_a 6296016 = Halted stored_a.
Proof.
  apply (free_of_unheld_pointer_halts LP64 stored_a _ 6296016 LP64_wf
           ltac:(vm_compute; reflexivity) stored_a_run).
  - vm_compute. intuition discriminate.
  - intros q m [E | [E | []]]; injection E as <- <-;
      (split; [discriminate | intros [H _]; revert H; vm_compute; intros H; apply H; reflexivity]).
Defined.

(* ================================================================== *)
(** ** A wrapped request and the client's stores, on the 32-bit target

    The first request is for 2^32 - 7 bytes.  Its block size wraps to 8,
    the size of a header, so the block has no payload and the pointer
    returned, 536871944, is the address of the header of the free block
    behind it.  As far as the client can tell it holds 2^32 - 7 bytes
    from that address on, and what it stores there lands in the headers
    of the allocator. *)

Definition wrapped32 : heap := state_of (pvPortMalloc ILP32 heap0 (2 ^ 32 - 7)).

Lemma wrapped32_served :
  pvPortMalloc ILP32 heap0 (2 ^ 32 - 7) = Some (wrapped32, 536871944).
Proof. run_malloc. Qed.

Lemma wrapped32_run : run ILP32 any_size wrapped32 [(536871944, 2 ^ 32 - 7)].
Proof.
  refine (run_alloc ILP32 any_size heap0 [] (2 ^ 32 - 7) wrapped32 536871944
            (run_start ILP32 any_size) _ I wrapped32_served); in_range.
Qed.

(** The client stores three words through the pointer: a link to
    536872940, an address that is 4 modulo 8, in the first word of the
    free block's header, 0 in its size word, and 112 where the size word
    of a node at 536872940 would be. *)
Definition link_stored : heap := client_write wrapped32 536871944 536872940.
Definition size_stored : heap := client_write link_stored 536871948 0.
Definition node_stored : heap := client_write size_stored 536872944 112.
Definition misaligned : heap := state_of (pvPortMalloc ILP32 node_stored 100).

Lemma node_stored_run : run ILP32 any_size node_stored [(536871944, 2 ^ 32 - 7)].
Proof.
  unfold node_stored, size_stored, link_stored.
  do 3 client_stores (536871944, 2 ^ 32 - 7).
  exact wrapped32_run.
Qed.

(** C5.  The code after a request whose block size wrapped.  On the
    32-bit target the first call, pvPortMalloc(2^32 - 7), returns
    536871944; the client stores the three words 536872940, 0 and 112
    at 536871944, 536871948 and 536872944, all inside the bytes it
    asked for; the next call, pvPortMalloc(100), follows the stored link
    and returns 536872948, which is 4 modulo portBYTE_ALIGNMENT. *)
Theorem wrapped_request_breaks_alignment :
  pvPortMalloc ILP32 heap0 (2 ^ 32 - 7) = Some (wrapped32, 536871944) /\
  node_stored =
    client_write (client_write (client_write wrapped32 536871944 536872940)
                               536871948 0) 536872944 112 /\
  run ILP32 any_size node_stored [(536871944, 2 ^ 32 - 7)] /\
  pvPortMalloc ILP32 node_stored 100 = Some (misaligned, 536872948) /\
  536872948 mod portBYTE_ALIGNMENT = 4.
Proof.
  split; [exact wrapped32_served|]. split; [reflexivity|].
  split; [exact node_stored_run|]. split; [run_malloc | reflexivity].
Qed.

(** After the wrapped request a request for 10 bytes returns 536871952:
    the header of its block is where the first pointer points.  The
    block is freed.  Then the client stores two words through the first
    pointer, the size 24 with the flag bit and a NULL link, and the
    header reads as allocated again. *)
Definition held10 : heap := state_of (pvPortMalloc ILP32 wrapped32 10).
Definition freed_once : heap := freed (vPortFree ILP32 held10 536871952).
Definition flag_stored : heap := client_write freed_once 536871948 (2 ^ 31 + 24).
Definition null_stored : heap := client_write flag_stored 536871944 0.
Definition freed_twice : heap := freed (vPortFree ILP32 null_stored 536871952).

Lemma held10_served : pvPortMalloc ILP32 wrapped32 10 = Some (held10, 536871952).
Proof. run_malloc. Qed.

Lemma held10_run :
  run ILP32 any_size held10 [(536871952, 10); (536871944, 2 ^ 32 - 7)].
Proof.
  refine (run_alloc ILP32 any_size wrapped32 _ 10 held10 536871952
            wrapped32_run _ I held10_served); in_range.
Qed.

Lemma freed_once_ok : vPortFree ILP32 held10 536871952 = Ok freed_once.
Proof. run_free. Qed.

Lemma null_stored_run : run ILP32 any_size null_stored [(536871944, 2 ^ 32 - 7)].
Proof.
  unfold null_stored, flag_stored.
  do 2 client_stores (536871944, 2 ^ 32 - 7).
  exact (run_release ILP32 any_size held10 _ 536871952 freed_once held10_run
           (or_intror (or_introl eq_refl)) freed_once_ok).
Qed.

(** C7.  The code after a request whose block size wrapped.  On the
    32-bit target, after pvPortMalloc(2^32 - 7) has returned 536871944,
    pvPortMalloc(10) returns 536871952 and vPortFree of that pointer
    returns.  A second vPortFree right away would stop in configASSERT.
    But once the client has stored the two words 2^31 + 24 and 0 at
    536871948 and 536871944, inside the bytes it asked for with the
    first request, the second vPortFree of 536871952 finds the flag set
    and the link NULL and returns as well: the free counter goes from 1
    to 2, the free-byte counter becomes 40968, more than the usable size
    40952, and the block is linked into the free list a second time, as
    its own successor.  No pvPortMalloc call lies between the two frees. *)
Theorem double_free_returns_after_wrapped_request :
  pvPortMalloc ILP32 heap0 (2 ^ 32 - 7) = Some (wrapped32, 536871944) /\
  pvPortMalloc ILP32 wrapped32 10 = Some (held10, 536871952) /\
  vPortFree ILP32 held10 536871952 = Ok freed_once /\
  vPortFree ILP32 freed_once 536871952 = Halted freed_once /\
  null_stored =
    client_write (client_write freed_once 536871948 (2 ^ 31 + 24)) 536871944 0 /\
  run ILP32 any_size null_stored [(536871944, 2 ^ 32 - 7)] /\
  vPortFree ILP32 null_stored 536871952 = Ok freed_twice /\
  xNumberOfSuccessfulFrees freed_once = 1 /\
  xNumberOfSuccessfulFrees freed_twice = 2 /\
  xFreeBytesRemaining freed_twice = 40968 /\
  usable_size ILP32 = 40952 /\
  mem freed_twice (xStart_addr ILP32) = 536871944 /\
  mem freed_twice 536871944 = 536871944.
Proof.
  split; [exact wrapped32_served|]. split; [exact held10_served|].
  split; [exact freed_once_ok|].
  split.
  { assert (E : vPortFree ILP32 freed_once (536871944 + xHeapStructSize ILP32)
                = Halted freed_once).
    { apply (vPortFree_unflagged ILP32 ILP32_wf).
      - vm_compute. intuition discriminate.
      - vm_compute. split; [discriminate | reflexivity]. }
    exact E. }
  split; [reflexivity|].
  split; [exact null_stored_run|]. split; [run_free|].
  repeat split; vm_compute; reflexivity.
Qed.
